(** * Rotational closures model: forcing, dispersal, kernels and analysis

    A shallow embedding of [RotationalClosuresModel.py].

    Numbers.  Python ints are [Z].  Python and numpy floats are rationals
    [Q], compared up to [Qeq], in two layers.  The exact layer idealises
    every float operation as the exact one; it carries the properties of
    control flow, exceptions, attributes and signs, which do not depend
    on the last bit.  The rounded layer, module [Rounded], follows every
    float operation of the forcing function and of the dispersal loops
    by a rounding [rnd]; it carries the properties that depend on the
    value computed: which patch is closed, the mean multiplier, the sums
    of the dispersal matrix.  Binary64 is the rounding [round53].  The
    one function that needs [math.exp], [fishing], is embedded over the
    reals and compared with the rational kernels through [Q2R]; its
    overflow and its saturation in binary64 are not modelled.

    Effects.  A Python exception is the [Raise] outcome of the [py] monad.
    The model object is a dictionary of attributes that the patch system
    threads explicitly, since the source writes its derivative buffers in
    place. *)

From Stdlib Require Import ZArith QArith Qround Qreals Reals Qpower Qabs.
From Stdlib Require Import Lia Lra Lqa.
From stdpp Require Import base option list gmap strings.

Local Open Scope Z_scope.

(** ** Exceptions and the result monad *)

Inductive exn : Type :=
  | ZeroDivisionError
  | IndexError
  | AttributeError (name : string)
  | TypeError
  | ValueError
  | UnboundLocalError
  | RecursionError
  | NonFinite.

Inductive py (A : Type) : Type :=
  | Ok (a : A)
  | Raise (e : exn).
Arguments Ok {A} a.
Arguments Raise {A} e.

#[global] Instance py_ret : MRet py := λ A, Ok.
#[global] Instance py_bind : MBind py := λ A B f c,
  match c with
  | Ok a => f a
  | Raise e => Raise e
  end.
#[global] Instance py_fmap : FMap py := λ A B f c,
  match c with
  | Ok a => Ok (f a)
  | Raise e => Raise e
  end.

(** ** Python arithmetic on the rational model

    The operations of the exact layer: no result is rounded.  Their
    rounded counterparts are in the module [Rounded] below. *)

(** [int(x)] on a float truncates toward zero. *)
Definition py_int (x : Q) : Z := Z.quot (Qnum x) (Zpos (Qden x)).

(** [x % y] on floats: the result has the sign of [y]. *)
Definition py_fmod (x y : Q) : py Q :=
  if Qeq_bool y 0 then Raise ZeroDivisionError
  else Ok (x - inject_Z (Qfloor (x / y)) * y)%Q.

(** [x / y] on Python floats. *)
Definition py_fdiv (x y : Q) : py Q :=
  if Qeq_bool y 0 then Raise ZeroDivisionError else Ok (x / y)%Q.

(** [a / b] on Python ints (true division). *)
Definition py_truediv (a b : Z) : py Q :=
  if b =? 0 then Raise ZeroDivisionError else Ok (inject_Z a / inject_Z b)%Q.

(** [a % b] on Python ints. *)
Definition py_mod (a b : Z) : py Z :=
  if b =? 0 then Raise ZeroDivisionError else Ok (a mod b).

(** [x / y] where an operand is a numpy scalar.  On a zero divisor numpy
    warns, returns [inf] or [nan] and carries on; the rational model has
    no such values, so the embedding stops there with [NonFinite] and
    says nothing about what the code computes from them. *)
Definition np_div (x y : Q) : py Q :=
  if Qeq_bool y 0 then Raise NonFinite else Ok (x / y)%Q.

(** [range(n)] *)
Definition range (n : Z) : list Z := Z.of_nat <$> seq 0 (Z.to_nat n).

(** Indexing: a negative index counts from the end, anything outside the
    sequence raises [IndexError]. *)
Definition norm_index (len i : Z) : py nat :=
  let k := if i <? 0 then i + len else i in
  if (0 <=? k) && (k <? len) then Ok (Z.to_nat k) else Raise IndexError.

(** [l[i]] *)
Definition getitem {A} (l : list A) (i : Z) : py A :=
  k ← norm_index (Z.of_nat (length l)) i;
  match l !! k with
  | Some a => Ok a
  | None => Raise IndexError
  end.

(** [l[i] = v] *)
Definition setitem {A} (l : list A) (i : Z) (v : A) : py (list A) :=
  k ← norm_index (Z.of_nat (length l)) i;
  Ok (<[k := v]> l).

Definition Qsum (l : list Q) : Q := foldr Qplus 0%Q l.

(** ** Management forcing: [square_signal] *)

(** The open-patch value [(1-(m/n)*poaching)/(1-(m/n))], without the
    five roundings of the float expression; [Rounded.open_signal] has
    them. *)
Definition open_signal (m n : Z) (poaching : Q) : py Q :=
  frac ← py_truediv m n;
  py_fdiv (1 - frac * poaching)%Q (1 - frac)%Q.

(** The slot [int((t % (n*closure_length))/closure_length)], without the
    roundings of the product, of the remainder and of the quotient: the
    slot of the code can differ by one; [Rounded.start_region] has
    them. *)
Definition start_region (t closure_length : Q) (n : Z) : py Z :=
  if negb (Qeq_bool closure_length 0) then
    r ← py_fmod t (inject_Z n * closure_length)%Q;
    q ← py_fdiv r closure_length;
    mret (py_int q)
  else mret 0.

Definition end_region (start m n : Z) : py Z :=
  if n <=? start + m - 1 then py_mod (start + m - 1) n
  else mret (start + m - 1).

Definition square_signal (t closure_length : Q) (region m n : Z)
    (poaching : Q) (mgmt_strat : string) : py (option Q) :=
  if String.eqb mgmt_strat "periodic" then
    start ← start_region t closure_length n;
    end_ ← end_region start m n;
    if (start <=? region) && (region <=? end_) then mret (Some poaching)
    else if (n <=? start + m - 1) && ((start <=? region) || (region <=? end_))
    then mret (Some poaching)
    else Some <$> open_signal m n poaching
  else if String.eqb mgmt_strat "MPA" then
    if m =? 0 then mret (Some 1%Q)
    else if m =? n then mret (Some poaching)
    else if region <=? m then mret (Some poaching)
    else Some <$> open_signal m n poaching
  else mret None.

(** The multiplier as a number: [None] cannot be multiplied. *)
Definition multiplier (t closure_length : Q) (region m n : Z)
    (poaching : Q) (mgmt_strat : string) : py Q :=
  v ← square_signal t closure_length region m n poaching mgmt_strat;
  match v with
  | Some q => Ok q
  | None => Raise TypeError
  end.

(** The multipliers of patches [0 .. n-1] at one time, and their mean. *)
Definition multipliers (t closure_length : Q) (m n : Z) (poaching : Q)
    (mgmt_strat : string) : py (list Q) :=
  mapM (λ region, multiplier t closure_length region m n poaching mgmt_strat)
       (range n).


(** [r] is a normal return of a number equal to [v]. *)
Definition returns (r : py Q) (v : Q) : Prop :=
  match r with
  | Ok q => (q == v)%Q
  | Raise _ => False
  end.

(** ** The model object *)

(** Attribute values.  A [Model] instance is a dictionary of attributes,
    extended by [setattr] after construction. *)
#[warnings="-register-all"]
Inductive value : Type :=
  | VNone
  | VInt (z : Z)
  | VFloat (q : Q)
  | VStr (s : string)
  | VArray (a : list Q)
  | VMatrix (a : list (list Q))
  | VList (l : list value).

Abbreviation obj := (gmap string value).

Definition getattr (o : obj) (name : string) : py value :=
  match o !! name with
  | Some v => Ok v
  | None => Raise (AttributeError name)
  end.

Definition as_num (v : value) : py Q :=
  match v with
  | VInt z => Ok (inject_Z z)
  | VFloat q => Ok q
  | _ => Raise TypeError
  end.

Definition as_int (v : value) : py Z :=
  match v with
  | VInt z => Ok z
  | _ => Raise TypeError
  end.

Definition as_array (v : value) : py (list Q) :=
  match v with
  | VArray a => Ok a
  | _ => Raise TypeError
  end.

Definition as_matrix (v : value) : py (list (list Q)) :=
  match v with
  | VMatrix a => Ok a
  | _ => Raise TypeError
  end.

(** [v == s] for a string literal [s]; never raises. *)
Definition str_eq (v : value) (s : string) : bool :=
  match v with
  | VStr s' => String.eqb s' s
  | _ => false
  end.

(** The strategy tag as [square_signal] sees it: a value that is not a
    string equals neither literal it is compared with. *)
Definition strat_of (v : value) : string :=
  match v with
  | VStr s => s
  | _ => EmptyString
  end.

Definition num_attr (o : obj) (name : string) : py Q := getattr o name ≫= as_num.
Definition int_attr (o : obj) (name : string) : py Z := getattr o name ≫= as_int.
Definition array_attr (o : obj) (name : string) : py (list Q) :=
  getattr o name ≫= as_array.

(** [Model.__init__] *)
Definition Model (model_type n frac_nomove mgmt_strat : value) : obj :=
  <["poaching" := VInt 0]> (
  <["m" := VInt 0]> (
  <["closure_length" := VInt 0]> (
  <["f" := VInt 0]> (
  <["mgmt_strat" := mgmt_strat]> (
  <["frac_nomove" := frac_nomove]> (
  <["n" := n]> (
  <["model_type" := model_type]> ∅))))))).

(** [Model.set_mgmt_params] *)
Definition set_mgmt_params (self : obj) (closure_length f m poaching : value)
    : obj :=
  <["poaching" := poaching]> (
  <["m" := m]> (
  <["f" := f]> (
  <["closure_length" := closure_length]> self))).

(** ** Dispersal matrix and initialisation *)

(** The entries the double loop of [initialize_patch_model] leaves in
    [kP], with the diagonal product [-frac_dispersed*(n - 1)] not
    rounded; [Rounded.build_kP] rounds it. *)
Definition build_kP (n : Z) (frac_dispersed : Q) : list (list Q) :=
  (λ i, (λ j, if i =? j then (- frac_dispersed * inject_Z (n - 1))%Q
              else frac_dispersed) <$> range n) <$> range n.

(** [np.empty(n)]: [junk] stands for whatever the fresh memory holds. *)
Definition np_empty (junk : Z → Q) (n : Z) : list Q := junk <$> range n.
Definition np_zeros (n : Z) : list Q := replicate (Z.to_nat n) 0%Q.

(** [[x]*n] *)
Definition times {A} (x : A) (n : Z) : list A := replicate (Z.to_nat n) x.

Definition dispersal_setup (self : obj) : py obj :=
  frac_nomove ← num_attr self "frac_nomove";
  n ← int_attr self "n";
  inv ← py_truediv 1 n;
  let frac_dispersed := ((1 - frac_nomove) * inv)%Q in
  if n <? 0 then Raise ValueError
  else Ok (<["kP" := VMatrix (build_kP n frac_dispersed)]> self).

(** [Model.RB_initialize_patch_model] *)
Definition RB_initialize_patch_model (junk : string → Z → Q) (self : obj)
    (P0 C0L C0H M0vL M0vH M0iL M0iH : value) : py obj :=
  self ← dispersal_setup self;
  n ← int_attr self "n";
  Ok (<["X2" := VList (times P0 n ++ times C0H n ++ times M0vL n ++ times M0iL n)]> (
      <["X1" := VList (times P0 n ++ times C0L n ++ times M0vH n ++ times M0iH n)]> (
      <["dMvs" := VArray (np_empty (junk "dMvs") n)]> (
      <["dMis" := VArray (np_empty (junk "dMis") n)]> (
      <["dCs" := VArray (np_empty (junk "dCs") n)]> (
      <["dPs" := VArray (np_empty (junk "dPs") n)]> (
      <["Mv" := VArray (np_empty (junk "Mv") n)]> (
      <["Mi" := VArray (np_empty (junk "Mi") n)]> (
      <["C" := VArray (np_empty (junk "C") n)]> (
      <["P" := VArray (np_empty (junk "P") n)]> self)))))))))).

(** [Model.initialize_patch_model] *)
Definition initialize_patch_model (junk : string → Z → Q) (self : obj)
    (P0 C0L C0H M0L M0H M0iL M0iH : value) : py obj :=
  mt ← getattr self "model_type";
  if str_eq mt "RB" then
    RB_initialize_patch_model junk self P0 C0L C0H M0L M0H M0iL M0iH
  else
    self ← dispersal_setup self;
    n ← int_attr self "n";
    Ok (<["X2" := VList (times P0 n ++ times C0H n ++ times M0L n)]> (
        <["X1" := VList (times P0 n ++ times C0L n ++ times M0H n)]> (
        <["dMs" := VArray (np_empty (junk "dMs") n)]> (
        <["dCs" := VArray (np_empty (junk "dCs") n)]> (
        <["dPs" := VArray (np_empty (junk "dPs") n)]> (
        <["M" := VArray (np_empty (junk "M") n)]> (
        <["C" := VArray (np_empty (junk "C") n)]> (
        <["P" := VArray (np_zeros n)]> self)))))))).

(** ** Parameter tables: [Model.load_parameters] *)

Definition setattrs (self : obj) (params : list (string * value)) : obj :=
  foldl (λ o kv, <[kv.1 := kv.2]> o) self params.

Definition vdL_common (fish_growth_rate : value) : list (string * value) :=
  [("r", VFloat 0.3); ("i_C", VFloat 0.05); ("i_M", VFloat 0.05);
   ("ext_C", VFloat 0.0001); ("ext_P", VFloat 0.0001); ("gamma", VFloat 0.8);
   ("d", VFloat 0.1); ("g", VInt 1); ("s", fish_growth_rate)].

Definition parameter_table (model_type : value) (fish_growth_rate : value)
    : py (list (string * value)) :=
  if str_eq model_type "vdL" then
    Ok (vdL_common fish_growth_rate ++
        [("sigma", VFloat 0.5); ("eta", VInt 2); ("alpha", VFloat 0.5);
         ("P0", VFloat 0.1); ("C_HI", VFloat 0.4); ("M_LO", VFloat 0.04);
         ("C_LO", VFloat 0.04); ("M_HI", VFloat 0.4)])
  else if str_eq model_type "vdL_MC" then
    Ok (vdL_common fish_growth_rate ++
        [("sigma", VInt 0); ("eta", VInt 0); ("alpha", VInt 2)])
  else if str_eq model_type "vdL_MP" then
    Ok (vdL_common fish_growth_rate ++
        [("sigma", VInt 0); ("eta", VInt 4); ("alpha", VInt 0)])
  else if str_eq model_type "vdL_PC" then
    Ok (vdL_common fish_growth_rate ++
        [("sigma", VFloat 0.9); ("eta", VInt 0); ("alpha", VInt 0)])
  else if str_eq model_type "BM" then
    Ok [("gamma", VFloat 0.8); ("beta", VInt 1); ("alpha", VInt 1);
        ("s", fish_growth_rate); ("r", VInt 1); ("d", VFloat 0.44);
        ("a", VFloat 0.1); ("i_C", VFloat 0.05); ("i_M", VFloat 0.05)]
  else if str_eq model_type "RB" then
    Ok [("phiC", VFloat 0.001); ("phiM", VFloat 0.0001); ("rM", VFloat 0.5);
        ("gTC", VFloat 0.1); ("gTV", VFloat 0.2); ("gTI", VFloat 0.4);
        ("rH", fish_growth_rate); ("gamma", VFloat 0.4); ("omega", VInt 2);
        ("dC", VFloat 0.05); ("dI", VFloat 0.4); ("dV", VFloat 0.4);
        ("K", VInt 20); ("Graze", VFloat 0.58)]
  else Raise UnboundLocalError.

Definition load_parameters (self : obj) (fish_growth_rate : value) : py obj :=
  mt ← getattr self "model_type";
  params ← parameter_table mt fish_growth_rate;
  Ok (setattrs self params).

(** ** Reaction kernels *)

Definition K (sigma C : Q) : Q := ((1 - sigma) + sigma * C)%Q.
Definition BMK (C : Q) : Q := (1 - 0.5 * C)%Q.

(** [fishing], the density-dependent fishing term; [math.exp] is the real
    exponential.  In binary64 the quotient reaches [f] itself from a
    density of about 2 on, and [math.exp] raises [OverflowError] below a
    density of about -28; neither is modelled. *)
Definition fishing (parrotfish f : R) : R :=
  let steepness := 25%R in
  let shift := (2 / 10)%R in
  (f / (1 + exp (- steepness * (parrotfish - shift))))%R.

(** [X.reshape(k, n)] as the list of its [k] rows.  A kernel only runs
    inside a loop over [range(n)], where [n] is at least 1. *)
Definition reshape (k : nat) (n : Z) (X : list Q) : py (list (list Q)) :=
  if (0 <=? n) && (Z.of_nat (length X) =? Z.of_nat k * n)
  then Ok ((λ c, take (Z.to_nat n) (drop (c * Z.to_nat n) X)) <$> seq 0 k)
  else Raise ValueError.

(** The call [square_signal(t, system_model.closure_length, i,
    system_model.m, system_model.n, system_model.poaching,
    system_model.mgmt_strat)] used as a factor. *)
Definition model_signal (t : Q) (i : Z) (system_model : obj) : py Q :=
  closure_length ← num_attr system_model "closure_length";
  m ← int_attr system_model "m";
  n ← int_attr system_model "n";
  poaching ← num_attr system_model "poaching";
  strat ← getattr system_model "mgmt_strat";
  multiplier t closure_length i m n poaching (strat_of strat).

Definition rass_briggs (X : list Q) (t : Q) (i : Z) (system_model : obj)
    (P_influx : list Q) : py (list Q) :=
  n ← int_attr system_model "n";
  rows ← reshape 4 n X;
  match rows with
  | [P; C; Mv; Mi] =>
    Ci ← getitem C i; Mvi ← getitem Mv i; Mii ← getitem Mi i;
    let T := (1 - Ci - Mvi - Mii)%Q in
    influx ← getitem P_influx i;
    rH ← num_attr system_model "rH";
    Pi ← getitem P i;
    cap ← num_attr system_model "K";
    ratio ← np_div Pi cap;
    f ← num_attr system_model "f";
    signal ← model_signal t i system_model;
    let dP := (influx + rH * Pi * (1 - ratio) - f * Pi * signal)%Q in
    phiC ← num_attr system_model "phiC";
    gTC ← num_attr system_model "gTC";
    gamma ← num_attr system_model "gamma";
    gTI ← num_attr system_model "gTI";
    dC_ ← num_attr system_model "dC";
    let dC := (phiC * T + gTC * T * Ci - gamma * gTI * Mii * Ci - dC_ * Ci)%Q in
    phiM ← num_attr system_model "phiM";
    rM ← num_attr system_model "rM";
    gTV ← num_attr system_model "gTV";
    dV ← num_attr system_model "dV";
    Graze ← num_attr system_model "Graze";
    omega ← num_attr system_model "omega";
    let dMv := (phiM * T + rM * T * Mii + gTV * T * Mvi - dV * Mvi
                - Pi * Mvi * Graze - omega * Mvi)%Q in
    dI ← num_attr system_model "dI";
    let dMi := (omega * Mvi + gTI * T * Mii + gamma * gTI * Mii * Ci
                - dI * Mii)%Q in
    Ok [dP; dC; dMv; dMi]
  | _ => Raise ValueError
  end.

Definition blackwood (X : list Q) (t : Q) (i : Z) (system_model : obj)
    (P_influx : list Q) : py (list Q) :=
  n ← int_attr system_model "n";
  rows ← reshape 3 n X;
  match rows with
  | [P; C; M] =>
    influx ← getitem P_influx i;
    s ← num_attr system_model "s";
    Pi ← getitem P i;
    beta ← num_attr system_model "beta";
    Ci ← getitem C i;
    ratio ← np_div Pi (beta * BMK Ci)%Q;
    f ← num_attr system_model "f";
    signal ← model_signal t i system_model;
    let dP := (influx + s * Pi * (1 - ratio) - f * Pi * signal)%Q in
    r ← num_attr system_model "r";
    Mi ← getitem M i;
    d ← num_attr system_model "d";
    a ← num_attr system_model "a";
    i_C ← num_attr system_model "i_C";
    let dC := (r * (1 - Mi - Ci) * Ci - d * Ci - a * Mi * Ci
               + 0.0005 * i_C * (1 - Mi - Ci))%Q in
    alpha ← num_attr system_model "alpha";
    grazing ← np_div (alpha * Pi)%Q beta;
    inv ← np_div 1%Q (1 - Ci)%Q;
    gamma ← num_attr system_model "gamma";
    i_M ← num_attr system_model "i_M";
    let dM := (a * Mi * Ci - grazing * Mi * inv + gamma * Mi * (1 - Mi - Ci)
               + 0.0075 * i_M * (1 - Mi - Ci))%Q in
    Ok [dP; dC; dM]
  | _ => Raise ValueError
  end.

Definition leemput (X : list Q) (t : Q) (i : Z) (system_model : obj)
    (P_influx : list Q) : py (list Q) :=
  n ← int_attr system_model "n";
  rows ← reshape 3 n X;
  match rows with
  | [P; C; M] =>
    influx ← getitem P_influx i;
    s ← num_attr system_model "s";
    Pi ← getitem P i;
    sigma ← num_attr system_model "sigma";
    Ci ← getitem C i;
    ratio ← np_div Pi (K sigma Ci);
    f ← num_attr system_model "f";
    signal ← model_signal t i system_model;
    let dP := (influx + s * Pi * (1 - ratio) - f * Pi * signal)%Q in
    i_C ← num_attr system_model "i_C";
    r ← num_attr system_model "r";
    Mi ← getitem M i;
    alpha ← num_attr system_model "alpha";
    d ← num_attr system_model "d";
    let dC := ((i_C + r * Ci) * (1 - Mi - Ci) * (1 - alpha * Mi) - d * Ci)%Q in
    i_M ← num_attr system_model "i_M";
    gamma ← num_attr system_model "gamma";
    g ← num_attr system_model "g";
    eta ← num_attr system_model "eta";
    grazing ← np_div (g * Mi * Pi)%Q (g * eta * Mi + 1)%Q;
    let dM := ((i_M + gamma * Mi) * (1 - Mi - Ci) - grazing)%Q in
    Ok [dP; dC; dM]
  | _ => Raise ValueError
  end.

(** ** The patch system *)

(** The right-hand side runs against the model object it was given and
    the console: both survive an exception. *)
Record state : Type := State { model : obj; stdout : list string }.

Definition cmd (A : Type) : Type := state → py A * state.

#[global] Instance cmd_ret : MRet cmd := λ A a σ, (Ok a, σ).
#[global] Instance cmd_bind : MBind cmd := λ A B f c σ,
  match c σ with
  | (Ok a, σ') => f a σ'
  | (Raise e, σ') => (Raise e, σ')
  end.

(** A computation that only reads the model. *)
Definition reading {A} (f : obj → py A) : cmd A := λ σ, (f (model σ), σ).

Definition print (line : string) : cmd unit :=
  λ σ, (Ok (), State (model σ) (stdout σ ++ [line])).

(** [system_model.<name>[i] = results[k]] *)
Definition store (name : string) (i : Z) (results : list Q) (k : Z) : cmd unit :=
  λ σ,
    match (v ← getitem results k;
           a ← array_attr (model σ) name;
           setitem a i v) with
    | Ok a' => (Ok (), State (<[name := VArray a']> (model σ)) (stdout σ))
    | Raise e => (Raise e, σ)
    end.

(** A [for] loop over [l] that carries a local variable. *)
Fixpoint for_ {A} (l : list Z) (body : Z → A → cmd A) (a : A) : cmd A :=
  match l with
  | [] => mret a
  | i :: l' => a' ← body i a; for_ l' body a'
  end.

(** [P_influx[i] += (system_model.kP[i][j]) * X[j]] *)
Definition add_influx (X : list Q) (i j : Z) (P_influx : list Q)
    : cmd (list Q) :=
  reading (λ system_model,
    old ← getitem P_influx i;
    kP ← getattr system_model "kP" ≫= as_matrix;
    row ← getitem kP i;
    k ← getitem row j;
    x ← getitem X j;
    setitem P_influx i (old + k * x)%Q).

Definition store3 (i : Z) (results : list Q) : cmd unit :=
  store "dPs" i results 0;;
  store "dCs" i results 1;;
  store "dMs" i results 2.

(** The body of the loop over patches. *)
Definition patch_step (X : list Q) (t : Q) (i : Z) (P_influx : list Q)
    : cmd (list Q) :=
  n ← reading (λ system_model, int_attr system_model "n");
  P_influx ← for_ (range n) (add_influx X i) P_influx;
  mt ← reading (λ system_model, getattr system_model "model_type");
  (if str_eq mt "RB" then
     results ← reading (λ system_model, rass_briggs X t i system_model P_influx);
     store "dPs" i results 0;;
     store "dCs" i results 1;;
     store "dMvs" i results 2;;
     store "dMis" i results 3
   else if str_eq mt "BM" then
     results ← reading (λ system_model, blackwood X t i system_model P_influx);
     store3 i results
   else if str_eq mt "vdL_PC" then
     results ← reading (λ system_model, leemput X t i system_model P_influx);
     store3 i results
   else if str_eq mt "vdL_MP" then
     results ← reading (λ system_model, leemput X t i system_model P_influx);
     store3 i results
   else if str_eq mt "vdL_MC" then
     results ← reading (λ system_model, leemput X t i system_model P_influx);
     store3 i results
   else if str_eq mt "vdL" then
     results ← reading (λ system_model, leemput X t i system_model P_influx);
     store3 i results
   else
     print "Bad input, defaulting to Blackwood-Mumby!";;
     results ← reading (λ system_model, blackwood X t i system_model P_influx);
     store3 i results);;
  mret P_influx.

(** [np.concatenate] of the named buffers. *)
Definition concatenate (names : list string) : cmd (list Q) :=
  reading (λ system_model,
    @concat Q <$> mapM (array_attr system_model) names).

(** The loop over patches; its value is the final [P_influx]. *)
Definition patch_loop (X : list Q) (t : Q) : cmd (list Q) :=
  n ← reading (λ system_model, int_attr system_model "n");
  for_ (range n) (patch_step X t) (times 0%Q n).

Definition patch_system (X : list Q) (t : Q) : cmd (list Q) :=
  patch_loop X t;;
  mt ← reading (λ system_model, getattr system_model "model_type");
  if str_eq mt "RB" then concatenate ["dPs"; "dCs"; "dMvs"; "dMis"]
  else concatenate ["dPs"; "dCs"; "dMs"].

(** The dispersal part of the loop on its own: the influx of every patch,
    without the kernels. *)
Definition influx_loop (X : list Q) : cmd (list Q) :=
  n ← reading (λ system_model, int_attr system_model "n");
  for_ (range n)
       (λ i P_influx, for_ (range n) (add_influx X i) P_influx)
       (times 0%Q n).

Definition P_influx_of (X : list Q) (system_model : obj) : py (list Q) :=
  (influx_loop X (State system_model [])).1.

(** ** Trajectory analysis *)

Definition as_floats (l : value) : py (list Q) :=
  match l with
  | VList vs => mapM as_num vs
  | VArray a => Ok a
  | _ => Raise TypeError
  end.

(** [for i, state in enumerate(coralsol): if state > high_coral_eq: ...
    break], started at index [i] with [coral_recovery_time = -1]. *)
Fixpoint scan_recovery (high_coral_eq : Q) (i : Z) (coralsol : list Q) : Z :=
  match coralsol with
  | [] => -1
  | state :: rest =>
    if negb (Qle_bool state high_coral_eq) then i
    else scan_recovery high_coral_eq (i + 1) rest
  end.

Definition high_coral_eq (model_type : value) : Q :=
  if str_eq model_type "RB" then 0.5%Q
  else if str_eq model_type "BM" then 0.54%Q
  else 0.7%Q.

Section Analysis.

(** [odeint(patch_system, y0, t, args = (system_model, ))]: the external
    solver, one row per output time.  Only its trajectory is used. *)
Variable odeint : list Q → list Q → obj → py (list (list Q)).

(** What [np.empty] finds in fresh memory, per attribute. *)
Variable junk : string → Z → Q.

(** [Model.run_model] *)
Definition run_model (self : obj) (IC_set : value) (t : list Q)
    : py (list (list Q)) :=
  y0 ← as_floats IC_set;
  odeint y0 t self.

(** [Model.get_coral_recovery_time] *)
Definition get_coral_recovery_time (self : obj) (t : list Q) : py Z :=
  let P0 := VFloat 0.1 in
  let C0L := VFloat 0.04 in
  let C0H := VFloat 0.4 in
  let M0L := VFloat 0.04 in
  let M0H := VFloat 0.4 in
  let M0iH := VFloat 0.04 in
  let M0iL := VFloat 0.4 in
  model_type ← getattr self "model_type";
  n ← getattr self "n";
  let z := Model model_type n (VInt 1) (VStr "MPA") in
  z ← initialize_patch_model junk z P0 C0L C0H M0L M0H M0iL M0iH;
  z ← load_parameters z (VInt 1);
  let z := set_mgmt_params z (VInt 500) (VInt 0) (VInt 0) (VInt 0) in
  X1 ← getattr z "X1";
  MPAsol ← run_model z X1 t;
  n ← int_attr self "n";
  coralsol ← mapM (λ row, getitem row n) MPAsol;
  model_type ← getattr self "model_type";
  let coral_recovery_time := scan_recovery (high_coral_eq model_type) 0 coralsol in
  Ok (coral_recovery_time + 10).

(** One activation of [find_unstable_equilibrium]: it returns a value
    or calls itself with new arguments. *)
Inductive activation : Type :=
  | Return (midpoint : Q)
  | Recurse (lowC highC : Q) (recursion_depth : Z).

(** The defaults of the signature, which a call that omits a bound
    falls back to. *)
Definition default_lowC : Q := 0.1%Q.
Definition default_highC : Q := 0.7%Q.

Definition midpoint_of (lowC highC : Q) : Q := ((lowC + highC) / 2)%Q.

Definition fue_body (self : obj) (t : list Q) (lowC highC : Q)
    (recursion_depth : Z) : py activation :=
  let midpoint := midpoint_of lowC highC in
  n ← int_attr self "n";
  let IC_mid := times 0.1%Q n ++ times midpoint n ++ times 0.04%Q n in
  mid_sol ← odeint IC_mid t self;
  if 10 <? recursion_depth then Ok (Return midpoint)
  else
    row ← getitem mid_sol (Z.of_nat (length t) - 1);
    final ← getitem row 1;
    if negb (Qle_bool (final - midpoint) 0) then
      Ok (Recurse midpoint default_highC (recursion_depth + 1))
    else if negb (Qle_bool 0 (final - midpoint)) then
      Ok (Recurse default_lowC midpoint (recursion_depth + 1))
    else Ok (Return midpoint).

(** The recursion, bounded by the interpreter's stack. *)
Fixpoint fue_run (stack : nat) (self : obj) (t : list Q) (lowC highC : Q)
    (recursion_depth : Z) : py Q :=
  match stack with
  | O => Raise RecursionError
  | S stack' =>
    a ← fue_body self t lowC highC recursion_depth;
    match a with
    | Return midpoint => Ok midpoint
    | Recurse lowC' highC' depth' => fue_run stack' self t lowC' highC' depth'
    end
  end.

Definition recursion_limit : nat := 1000.

(** [Model.find_unstable_equilibrium] *)
Definition find_unstable_equilibrium (self : obj) (t : list Q)
    (lowC highC : Q) (recursion_depth : Z) : py Q :=
  fue_run recursion_limit self t lowC highC recursion_depth.

(** The brackets [(lowC, highC)] of the successive activations. *)
Fixpoint fue_brackets (stack : nat) (self : obj) (t : list Q)
    (lowC highC : Q) (recursion_depth : Z) : list (Q * Q) :=
  match stack with
  | O => []
  | S stack' =>
    (lowC, highC) ::
    match fue_body self t lowC highC recursion_depth with
    | Ok (Recurse lowC' highC' depth') =>
      fue_brackets stack' self t lowC' highC' depth'
    | _ => []
    end
  end.

End Analysis.

(** ** Auxiliary definitions for the forcing proofs *)

(** The closed test of the periodic branch, for a given slot [start]. *)
Definition closed_periodic (start m n region : Z) : bool :=
  let end_ := if n <=? start + m - 1 then (start + m - 1) mod n
              else start + m - 1 in
  (start <=? region) && (region <=? end_)
  || (n <=? start + m - 1) && ((start <=? region) || (region <=? end_)).

(** The closed test of the static branch. *)
Definition closed_MPA (m region : Z) : bool := region <=? m.

Fixpoint count_true (c : Z → bool) (l : list Z) : Z :=
  match l with
  | [] => 0
  | r :: l' => (if c r then 1 else 0) + count_true c l'
  end.

Definition in_interval (a b r : Z) : bool := (a <=? r) && (r <=? b).

(** The open-patch value, where it is defined. *)
Definition open_value (m n : Z) (poaching : Q) : Q :=
  ((1 - inject_Z m / inject_Z n * poaching) / (1 - inject_Z m / inject_Z n))%Q.

(** ** Auxiliary definitions for the patch system *)

(** The derivative buffers of the model object. *)
Definition buffers : list string := ["dPs"; "dCs"; "dMs"; "dMvs"; "dMis"].

(** [c] leaves every attribute outside the buffers as it found it,
    whatever its outcome. *)
Definition frames {A} (c : cmd A) : Prop :=
  ∀ σ r σ', c σ = (r, σ') →
    ∀ name, name ∉ buffers → model σ' !! name = model σ !! name.

Definition recognized (model_type : value) : bool :=
  str_eq model_type "RB" || str_eq model_type "BM"
  || str_eq model_type "vdL_PC" || str_eq model_type "vdL_MP"
  || str_eq model_type "vdL_MC" || str_eq model_type "vdL".

Definition warning : string := "Bad input, defaulting to Blackwood-Mumby!".

(** The same object, tagged as Blackwood-Mumby. *)
Definition as_BM (system_model : obj) : obj :=
  <["model_type" := VStr "BM"]> system_model.

(** [σ2] is [σ1] retagged as Blackwood-Mumby, and [σ1] has printed some
    more warnings. *)
Definition retagged (model_type : value) (σ1 σ2 : state) : Prop :=
  model σ1 !! "model_type" = Some model_type
  ∧ model σ2 = as_BM (model σ1)
  ∧ ∃ k, stdout σ1 = stdout σ2 ++ replicate k warning.

(** [c1] on an object does what [c2] does on the retagged one. *)
Definition sim (model_type : value) {A} (c1 c2 : cmd A) : Prop :=
  ∀ σ1 σ2, retagged model_type σ1 σ2 →
    (c1 σ1).1 = (c2 σ2).1 ∧ retagged model_type (c1 σ1).2 (c2 σ2).2.

(** ** Auxiliary definitions for dispersal *)

(** Entry [kP[i][j]]. *)
Definition kP_entry (n : Z) (frac_dispersed : Q) (i j : Z) : Q :=
  if i =? j then (- frac_dispersed * inject_Z (n - 1))%Q else frac_dispersed.

(** [X[j]], read as 0 outside [X]. *)
Definition at_ (X : list Q) (j : Z) : Q := nth (Z.to_nat j) X 0%Q.

(** Column [j] of a matrix. *)
Definition column (j : Z) (kP : list (list Q)) : list Q :=
  (λ row, at_ row j) <$> kP.

(** The influx patch [i] ends up with, started from [acc]. *)
Definition influx_from (n : Z) (frac_dispersed : Q) (X : list Q) (i : Z)
    (acc : Q) (js : list Z) : Q :=
  foldl (λ a j, a + kP_entry n frac_dispersed i j * at_ X j)%Q acc js.

Definition influx_step (n : Z) (frac_dispersed : Q) (X : list Q)
    (P_influx : list Q) (i : Z) : list Q :=
  <[Z.to_nat i := influx_from n frac_dispersed X i (at_ P_influx i) (range n)]>
    P_influx.

(** The attributes the dispersal loops read. *)
Definition dispersal_ready (n : Z) (frac_dispersed : Q) (σ : state) : Prop :=
  model σ !! "n" = Some (VInt n)
  ∧ model σ !! "kP" = Some (VMatrix (build_kP n frac_dispersed)).

(** ** Sample objects, set up the way [main] does *)

Definition no_junk : string → Z → Q := λ _ _, 0%Q.

Definition sample_model (model_type : string) (n : Z) (mgmt_strat : string)
    (closure_length f : Q) (m : Z) (poaching : Q) : obj :=
  match
    z ← initialize_patch_model no_junk
           (Model (VStr model_type) (VInt n) (VFloat 0.95) (VStr mgmt_strat))
           (VFloat 0.1) (VFloat 0.04) (VFloat 0.4) (VFloat 0.04) (VFloat 0.4)
           VNone VNone;
    z ← load_parameters z (VInt 1);
    Ok (set_mgmt_params z (VFloat closure_length) (VFloat f) (VInt m)
          (VFloat poaching))
  with
  | Ok z => z
  | Raise _ => ∅
  end.

(** Two patches, Blackwood-Mumby, one patch closed in rotation. *)
Definition sample_BM : obj := sample_model "BM" 2 "periodic" 1 0.3 1 0.1.

(** A state of two patches: fish, coral, algae. *)
Definition sample_X : list Q := [0.1; 0.2; 0.3; 0.3; 0.1; 0.1]%Q.

(** [system_model.model_type = tag] *)
Definition retag (tag : string) (system_model : obj) : obj :=
  <["model_type" := VStr tag]> system_model.

(** One patch, van de Leemput, nothing closed, fishing intensity 1. *)
Definition sample_vdL : obj := sample_model "vdL" 1 "periodic" 0 1 0 0.

(** ** Sample solvers *)

(** A solver whose trajectories stay at the initial condition: the
    horizon is too short for anything to move. *)
Definition frozen : list Q → list Q → obj → py (list (list Q)) :=
  λ y0 t _, Ok ((λ _, y0) <$> t).

(** A solver for one patch whose every trajectory has settled at coral
    cover 0.6 by the last output time. *)
Definition settled : list Q → list Q → obj → py (list (list Q)) :=
  λ y0 t _, Ok ((λ _, [0.1; 0.6; 0.04]%Q) <$> t).

Definition one_patch_BM : obj :=
  Model (VStr "BM") (VInt 1) (VFloat 0.95) (VStr "periodic").

(** ** Auxiliary definitions for the further properties *)

(** The strategy tag is neither of the two the forcing function knows. *)
Definition unknown_strategy (system_model : obj) : Prop :=
  ∃ s, system_model !! "mgmt_strat" = Some s
       ∧ strat_of s ≠ "periodic" ∧ strat_of s ≠ "MPA".

(** A computation that leaves model and console alone. *)
Definition silent {A} (c : cmd A) : Prop := ∀ σ, (c σ).2 = σ.

(** The attributes that [__init__], [initialize_patch_model] and
    [set_mgmt_params] own. *)
Definition structure_names : list string :=
  ["model_type"; "n"; "frac_nomove"; "mgmt_strat"; "f"; "closure_length";
   "m"; "poaching"; "kP"; "P"; "C"; "M"; "Mi"; "Mv"; "dPs"; "dCs"; "dMs";
   "dMis"; "dMvs"; "X1"; "X2"].

(** The kernel the patch system runs for a family tag. *)
Definition kernel_for (model_type : value)
    : list Q → Q → Z → obj → list Q → py (list Q) :=
  if str_eq model_type "RB" then rass_briggs
  else if str_eq model_type "BM" then blackwood
  else if str_eq model_type "vdL_PC" then leemput
  else if str_eq model_type "vdL_MP" then leemput
  else if str_eq model_type "vdL_MC" then leemput
  else if str_eq model_type "vdL" then leemput
  else blackwood.

(** [c] does not fail on a missing attribute. *)
Definition finds_attributes {A} (c : py A) : Prop :=
  ∀ name, c ≠ Raise (AttributeError name).

(** The attributes every kernel reads for the forcing function. *)
Definition signal_names : list string :=
  ["n"; "f"; "closure_length"; "m"; "poaching"; "mgmt_strat"].

Definition rass_briggs_names : list string :=
  ["rH"; "K"; "phiC"; "gTC"; "gamma"; "gTI"; "dC"; "phiM"; "rM"; "gTV"; "dV";
   "Graze"; "omega"; "dI"].

Definition blackwood_names : list string :=
  ["s"; "beta"; "r"; "d"; "a"; "i_C"; "alpha"; "gamma"; "i_M"].

Definition leemput_names : list string :=
  ["s"; "sigma"; "i_C"; "r"; "alpha"; "d"; "i_M"; "gamma"; "g"; "eta"].

Definition has_attrs (names : list string) (system_model : obj) : Prop :=
  ∀ name, name ∈ names → is_Some (system_model !! name).

(** ** Yield of one patch along a trajectory *)

Section Yield.

(** [str(v)], the text [print] shows for [v].  A multiplier is shown as
    the number it is; where it is the [poaching] attribute itself and that
    was given as an int, Python shows it without the fractional point. *)
Variable str : value → string.

(** What [np.empty(len(t))] finds in fresh memory. *)
Variable junk : Z → Q.

(** [square_signal(year, self.closure_length, j, self.m, self.n,
    self.poaching, mgmt_strat = strat)] *)
Definition history_signal (self : obj) (year j : Z) (strat : string)
    : py (option Q) :=
  closure_length ← num_attr self "closure_length";
  m ← int_attr self "m";
  n ← int_attr self "n";
  poaching ← num_attr self "poaching";
  square_signal (inject_Z year) closure_length j m n poaching strat.

(** [P[year]*self.f*square_signal(...)] *)
Definition yield_value (self : obj) (j : Z) (P : list Q) (strat : string)
    (year : Z) : py Q :=
  p ← getitem P year;
  f ← num_attr self "f";
  s ← history_signal self year j strat;
  match s with
  | Some q => Ok (p * f * q)%Q
  | None => Raise TypeError
  end.

(** The body of the loop over years.  [P] is the default [None] or a
    one-dimensional array; [P.all() != None] holds for every array, so
    the [else] branch, which reads [self.P], is never taken. *)
Definition yield_year (j : Z) (P : option (list Q)) (strat : string)
    (year : Z) (fishing_yield : list Q) : cmd (list Q) :=
  match P with
  | None => reading (λ _, Raise (AttributeError "all"))
  | Some P =>
    print "info";;
    p ← reading (λ _, getitem P year);
    print (str (VFloat p));;
    print "_";;
    f ← reading (λ self, getattr self "f");
    print (str f);;
    print "_";;
    s ← reading (λ self, history_signal self year j "periodic");
    print (str (match s with Some q => VFloat q | None => VNone end));;
    print "end";;
    v ← reading (λ self, yield_value self j P strat year);
    reading (λ _, setitem fishing_yield year v)
  end.

(** [Model.fishing_yield_from_history], with [self] the model of the
    state. *)
Definition fishing_yield_from_history (j : Z) (t : list Q)
    (P : option (list Q)) (strat : string) : cmd (list Q) :=
  let len := Z.of_nat (length t) in
  for_ (range len) (yield_year j P strat) (np_empty junk len).

End Yield.


(** ** Rounded arithmetic

    Where a claim depends on how results are rounded, the float
    operations are modelled as the exact operation followed by a rounding
    [rnd].  Binary64 is [round53], round to nearest with ties to even on
    a significand of 53 bits; the exponent is unbounded, so overflow and
    underflow are left out. *)

(** [2^e] *)
Definition pow2 (e : Z) : Q := Qpower 2 e.

(** Round to the nearest integer, ties to even. *)
Definition rne (x : Q) : Z :=
  let f := Qfloor x in
  match (x - inject_Z f ?= 1 # 2)%Q with
  | Lt => f
  | Gt => f + 1
  | Eq => if Z.even f then f else f + 1
  end.

(** [floor (log2 x)] for a positive [x]. *)
Definition ilog2 (x : Q) : Z :=
  let k := Z.log2 (Qnum x) - Z.log2 (Zpos (Qden x)) in
  if Qle_bool (pow2 k) x then k else k - 1.

Definition round53 (x : Q) : Q :=
  if Qeq_bool x 0 then 0%Q
  else
    let s := Qabs x in
    let e := ilog2 s - 52 in
    let q := (inject_Z (rne (s / pow2 e)) * pow2 e)%Q in
    Qred (if Qle_bool 0 x then q else - q)%Q.

(** The unit roundoff of binary64, [2^-53]. *)
Definition u64 : Q := 1 # 9007199254740992.

(** Every result of [rnd] has a relative error of at most [u]. *)
Definition accurate (rnd : Q → Q) (u : Q) : Prop :=
  ∀ x, (Qabs (rnd x - x) <= u * Qabs x)%Q.

(** [(1 + u)^k], the growth of the error over [k] roundings. *)
Fixpoint growth (u : Q) (k : nat) : Q :=
  match k with
  | O => 1%Q
  | S k' => ((1 + u) * growth u k')%Q
  end.

(** A [for] loop over [l] that carries a local variable, without
    effects on the model. *)
Fixpoint loop {A} (l : list Z) (body : Z → A → py A) (a : A) : py A :=
  match l with
  | [] => Ok a
  | i :: l' => a' ← body i a; loop l' body a'
  end.

Module Rounded.
Section Rounding.

Variable rnd : Q → Q.

(** [a / b] on Python ints: the quotient, rounded once. *)
Definition truediv (a b : Z) : py Q :=
  if b =? 0 then Raise ZeroDivisionError
  else Ok (rnd (inject_Z a / inject_Z b)%Q).

(** [x / y] on floats. *)
Definition fdiv (x y : Q) : py Q :=
  if Qeq_bool y 0 then Raise ZeroDivisionError else Ok (rnd (x / y)%Q).

(** [x % y] on floats: C's [fmod], which is exact and has the sign of
    [x], moved by [y] with a rounded addition when the signs differ. *)
Definition fmod (x y : Q) : py Q :=
  if Qeq_bool y 0 then Raise ZeroDivisionError
  else
    let r := (x - inject_Z (py_int (x / y)) * y)%Q in
    if Qeq_bool r 0 then Ok 0%Q
    else if negb (Bool.eqb (Qle_bool 0 y) (Qle_bool 0 r))
    then Ok (rnd (r + y)%Q)
    else Ok r.

(** [(1-(m/n)*poaching)/(1-(m/n))] *)
Definition open_signal (m n : Z) (poaching : Q) : py Q :=
  frac ← truediv m n;
  fdiv (rnd (1 - rnd (frac * poaching))%Q) (rnd (1 - frac)%Q).

(** [int((t % (n*closure_length))/closure_length)], or 0. *)
Definition start_region (t closure_length : Q) (n : Z) : py Z :=
  if negb (Qeq_bool closure_length 0) then
    r ← fmod t (rnd (inject_Z n * closure_length)%Q);
    q ← fdiv r closure_length;
    mret (py_int q)
  else mret 0.

Definition square_signal (t closure_length : Q) (region m n : Z)
    (poaching : Q) (mgmt_strat : string) : py (option Q) :=
  if String.eqb mgmt_strat "periodic" then
    start ← start_region t closure_length n;
    end_ ← end_region start m n;
    if (start <=? region) && (region <=? end_) then mret (Some poaching)
    else if (n <=? start + m - 1) && ((start <=? region) || (region <=? end_))
    then mret (Some poaching)
    else Some <$> open_signal m n poaching
  else if String.eqb mgmt_strat "MPA" then
    if m =? 0 then mret (Some 1%Q)
    else if m =? n then mret (Some poaching)
    else if region <=? m then mret (Some poaching)
    else Some <$> open_signal m n poaching
  else mret None.

(** The multiplier as a number, and the multipliers of the patches
    [0 .. n-1] at one time. *)
Definition multiplier (t closure_length : Q) (region m n : Z)
    (poaching : Q) (mgmt_strat : string) : py Q :=
  v ← square_signal t closure_length region m n poaching mgmt_strat;
  match v with
  | Some q => Ok q
  | None => Raise TypeError
  end.

Definition multipliers (t closure_length : Q) (m n : Z) (poaching : Q)
    (mgmt_strat : string) : py (list Q) :=
  mapM (λ region, multiplier t closure_length region m n poaching mgmt_strat)
       (range n).

(** [frac_dispersed = (1-self.frac_nomove)*(1/(self.n))] *)
Definition frac_dispersed (frac_nomove : Q) (n : Z) : py Q :=
  inv ← truediv 1 n;
  Ok (rnd (rnd (1 - frac_nomove) * inv)%Q).

(** The entries the double loop of the initialisers leaves in [kP]: the
    diagonal is the rounded product [-frac_dispersed*(n - 1)]. *)
Definition build_kP (n : Z) (frac_dispersed : Q) : list (list Q) :=
  (λ i, (λ j, if i =? j then rnd (- frac_dispersed * inject_Z (n - 1))%Q
              else frac_dispersed) <$> range n) <$> range n.

Definition kP (frac_nomove : Q) (n : Z) : py (list (list Q)) :=
  fd ← frac_dispersed frac_nomove n;
  if n <? 0 then Raise ValueError else Ok (build_kP n fd).

(** [P_influx[i] += (system_model.kP[i][j]) * X[j]] *)
Definition add_influx (kP : list (list Q)) (X : list Q) (i j : Z)
    (P_influx : list Q) : py (list Q) :=
  old ← getitem P_influx i;
  row ← getitem kP i;
  k ← getitem row j;
  x ← getitem X j;
  setitem P_influx i (rnd (old + rnd (k * x))%Q).

(** The two dispersal loops of [patch_system]. *)
Definition P_influx (n : Z) (kP : list (list Q)) (X : list Q)
    : py (list Q) :=
  loop (range n)
       (λ i P_influx, loop (range n) (add_influx kP X i) P_influx)
       (times 0%Q n).

End Rounding.
End Rounded.

(** Row [i] of the products [kP[i][j] * X[j]], added up with roundings
    from [acc]. *)
Definition rounded_influx (rnd : Q → Q) (d fd : Q) (X : list Q) (i : Z)
    (acc : Q) (js : list Z) : Q :=
  foldl (λ a j, rnd (a + rnd ((if i =? j then d else fd) * at_ X j))%Q)
        acc js.

(** The bound on the total influx, relative to [(n-1) |frac_dispersed|]
    times the sum of the [|X[j]|]: [u] for the diagonal entry and
    [(1+u)^(n+1) - 1] for each row of sums. *)
Definition influx_error (u : Q) (n : Z) : Q :=
  (u + (2 + u) * (growth u (S (Z.to_nat n)) - 1))%Q.

(** * Properties *)

(** Reduce the monad operations and nothing else. *)
Ltac py_simpl :=
  cbn [mbind py_bind mret py_ret fmap py_fmap].
Ltac py_simpl_in H :=
  cbn [mbind py_bind mret py_ret fmap py_fmap] in H.

(** ** Arithmetic helpers *)

Lemma Qeq_bool_false_iff (x y : Q) : Qeq_bool x y = false ↔ ¬ (x == y)%Q.
Proof.
  split.
  - apply Qeq_bool_neq.
  - intros H. destruct (Qeq_bool x y) eqn:E; [|done].
    apply Qeq_bool_eq in E. contradiction.
Qed.

Lemma inject_Z_nonzero (n : Z) : n ≠ 0 → ¬ (inject_Z n == 0)%Q.
Proof.
  intros Hn H. apply Hn. unfold Qeq, inject_Z in H. simpl in H. lia.
Qed.

Lemma py_int_floor (q : Q) : (0 <= q)%Q → py_int q = Qfloor q.
Proof.
  intros Hq. destruct q as [a b]. unfold py_int, Qfloor. simpl.
  apply Z.quot_div_nonneg; [|lia].
  unfold Qle in Hq. simpl in Hq. lia.
Qed.

Lemma py_int_bounds (q : Q) (n : Z) :
  (0 <= q)%Q → (q < inject_Z n)%Q → 0 ≤ py_int q < n.
Proof.
  intros H0 Hn. rewrite py_int_floor by done. split.
  - change 0 with (Qfloor 0). by apply Qfloor_resp_le.
  - rewrite Zlt_Qlt. eapply Qle_lt_trans; [apply Qfloor_le | done].
Qed.

(** The slot index computed by the periodic branch is a patch index. *)
Lemma start_region_bounds (t closure_length : Q) (n : Z) :
  1 ≤ n →
  ∃ start, start_region t closure_length n = Ok start ∧ 0 ≤ start < n.
Proof.
  intros Hn. unfold start_region.
  destruct (Qeq_bool closure_length 0) eqn:Ecl; cbn [negb].
  { exists 0. split; [done | lia]. }
  apply Qeq_bool_false_iff in Ecl.
  assert (Hn0 : ¬ (inject_Z n == 0)%Q) by (apply inject_Z_nonzero; lia).
  assert (Hd : ¬ (inject_Z n * closure_length == 0)%Q).
  { intros H. apply Qmult_integral in H. tauto. }
  unfold py_fmod. apply Qeq_bool_false_iff in Hd. rewrite Hd. py_simpl.
  unfold py_fdiv. apply Qeq_bool_false_iff in Ecl. rewrite Ecl. py_simpl.
  apply Qeq_bool_false_iff in Ecl. apply Qeq_bool_false_iff in Hd.
  eexists. split; [reflexivity|].
  set (u := (t / (inject_Z n * closure_length))%Q).
  set (F := inject_Z (Qfloor u)).
  assert (HF1 : (F <= u)%Q) by apply Qfloor_le.
  assert (HF2 : (u < F + 1)%Q).
  { unfold F. change 1%Q with (inject_Z 1). rewrite <- inject_Z_plus.
    apply Qlt_floor. }
  assert (Heq : ((t - F * (inject_Z n * closure_length)) / closure_length
                 == inject_Z n * (u - F))%Q).
  { unfold u. field. split; assumption. }
  assert (Hnpos : (0 < inject_Z n)%Q).
  { change 0%Q with (inject_Z 0). rewrite <- Zlt_Qlt. lia. }
  clearbody F. clearbody u.
  assert (Hd0 : (0 <= u - F)%Q) by lra.
  assert (Hd1 : (u - F < 1)%Q) by lra.
  apply py_int_bounds; rewrite Heq.
  - apply Qmult_le_0_compat; lra.
  - apply (Qmult_lt_l _ _ _ Hnpos) in Hd1. lra.
Qed.

(** ** Lists, sums and counting *)

Lemma range_succ (k : nat) :
  range (Z.of_nat (S k)) = range (Z.of_nat k) ++ [Z.of_nat k].
Proof.
  unfold range. rewrite !Nat2Z.id, seq_S, fmap_app. reflexivity.
Qed.

Lemma elem_of_range (n r : Z) : r ∈ range n ↔ 0 ≤ r < n.
Proof.
  unfold range. rewrite list_elem_of_fmap. split.
  - intros (k & -> & Hk). apply elem_of_seq in Hk. lia.
  - intros Hr. exists (Z.to_nat r). split; [lia|]. apply elem_of_seq. lia.
Qed.

Lemma length_range (n : Z) : Z.of_nat (length (range n)) = Z.max 0 n.
Proof. unfold range. rewrite length_fmap, length_seq. lia. Qed.

Lemma count_true_app (c : Z → bool) (l1 l2 : list Z) :
  count_true c (l1 ++ l2) = count_true c l1 + count_true c l2.
Proof. induction l1 as [|r l1 IH]; simpl; [done | rewrite IH; lia]. Qed.

Lemma count_true_ext (c1 c2 : Z → bool) (l : list Z) :
  (∀ r, r ∈ l → c1 r = c2 r) → count_true c1 l = count_true c2 l.
Proof.
  induction l as [|r l IH]; intros H; simpl; [done|].
  rewrite (H r) by apply list_elem_of_here.
  rewrite IH; [done|]. intros r' Hr'. apply H. by apply list_elem_of_further.
Qed.

Lemma count_true_interval (a b : Z) (k : nat) :
  count_true (in_interval a b) (range (Z.of_nat k))
  = Z.max 0 (Z.min b (Z.of_nat k - 1) - Z.max a 0 + 1).
Proof.
  induction k as [|k IH].
  - simpl. lia.
  - rewrite range_succ, count_true_app, IH. simpl. unfold in_interval.
    destruct (a <=? Z.of_nat k) eqn:E1, (Z.of_nat k <=? b) eqn:E2; simpl; lia.
Qed.

Lemma count_true_or (c1 c2 : Z → bool) (l : list Z) :
  (∀ r, r ∈ l → c1 r = true → c2 r = false) →
  count_true (λ r, c1 r || c2 r) l = count_true c1 l + count_true c2 l.
Proof.
  induction l as [|r l IH]; intros H; simpl; [done|].
  rewrite IH by (intros r' Hr'; apply H; by apply list_elem_of_further).
  specialize (H r (list_elem_of_here _ _)).
  destruct (c1 r), (c2 r); simpl; try lia; by specialize (H eq_refl).
Qed.

(** Exactly [m] patches are closed under the periodic schedule. *)
Lemma count_closed_periodic (start m n : Z) :
  0 ≤ start < n → 0 ≤ m ≤ n →
  count_true (closed_periodic start m n) (range n) = m.
Proof.
  intros Hs Hm. replace n with (Z.of_nat (Z.to_nat n)) at 2 by lia.
  destruct (Z.leb_spec n (start + m - 1)) as [Hw|Hw].
  - assert (He : (start + m - 1) mod n = start + m - 1 - n).
    { symmetry. apply (Z.mod_unique_pos _ _ 1); lia. }
    rewrite (count_true_ext _
      (λ r, in_interval start (n - 1) r || in_interval 0 (start + m - 1 - n) r)).
    + rewrite count_true_or.
      * rewrite !count_true_interval. lia.
      * unfold in_interval. intros r _ H. lia.
    + intros r Hr. apply elem_of_range in Hr. unfold closed_periodic, in_interval.
      destruct (Z.leb_spec n (start + m - 1)); [|lia]. rewrite He. lia.
  - rewrite (count_true_ext _ (in_interval start (start + m - 1))).
    + rewrite count_true_interval. lia.
    + intros r Hr. unfold closed_periodic, in_interval.
      destruct (Z.leb_spec n (start + m - 1)); [lia|]. simpl.
      by rewrite orb_false_r.
Qed.


Lemma Qsum_two_valued (c : Z → bool) (p o : Q) (l : list Z) :
  (Qsum ((λ r, if c r then p else o) <$> l)
   == inject_Z (count_true c l) * p
      + inject_Z (Z.of_nat (length l) - count_true c l) * o)%Q.
Proof.
  induction l as [|r l IH].
  - cbn [fmap list_fmap Qsum foldr count_true length].
    change (inject_Z (Z.of_nat 0 - 0)) with 0%Q. change (inject_Z 0) with 0%Q.
    ring.
  - cbn [fmap list_fmap Qsum foldr] in *. fold (Qsum ((λ r, if c r then p else o) <$> l)).
    rewrite IH. cbn [count_true length].
    replace (Z.of_nat (S (length l)) - ((if c r then 1 else 0) + count_true c l))
      with ((if c r then 0 else 1) + (Z.of_nat (length l) - count_true c l))
      by (destruct (c r); lia).
    rewrite !inject_Z_plus. destruct (c r); ring.
Qed.

Lemma mapM_Ok {A B} (f : A → py B) (g : A → B) (l : list A) :
  (∀ x, x ∈ l → f x = Ok (g x)) → mapM f l = Ok (g <$> l).
Proof.
  induction l as [|x l IH]; intros H; [done|].
  cbn [mapM]. rewrite (H x) by apply list_elem_of_here. py_simpl.
  change (mapM f l ≫= (λ k, mret (g x :: k)) = Ok (g <$> x :: l)).
  rewrite IH by (intros y Hy; apply H; by apply list_elem_of_further).
  reflexivity.
Qed.

(** ** The forcing function *)

Lemma square_signal_periodic (t closure_length : Q) (region m n : Z)
    (poaching : Q) (start : Z) :
  n ≠ 0 → start_region t closure_length n = Ok start →
  square_signal t closure_length region m n poaching "periodic"
  = if closed_periodic start m n region then Ok (Some poaching)
    else Some <$> open_signal m n poaching.
Proof.
  intros Hn Hs. unfold square_signal.
  change (String.eqb "periodic" "periodic") with true. cbv iota.
  rewrite Hs. py_simpl. unfold end_region, closed_periodic, py_mod.
  destruct (n =? 0) eqn:E0; [lia|].
  destruct (n <=? start + m - 1); py_simpl;
    destruct (start <=? region), (region <=? _); reflexivity.
Qed.

Lemma multiplier_periodic (t closure_length : Q) (region m n : Z)
    (poaching : Q) (start : Z) :
  n ≠ 0 → start_region t closure_length n = Ok start →
  multiplier t closure_length region m n poaching "periodic"
  = if closed_periodic start m n region then Ok poaching
    else open_signal m n poaching.
Proof.
  intros Hn Hs. unfold multiplier.
  rewrite (square_signal_periodic _ _ _ _ _ _ start) by done.
  destruct (closed_periodic start m n region); [done|].
  by destruct (open_signal m n poaching).
Qed.

Lemma square_signal_MPA (t closure_length : Q) (region m n : Z) (poaching : Q) :
  square_signal t closure_length region m n poaching "MPA"
  = if m =? 0 then Ok (Some 1%Q)
    else if m =? n then Ok (Some poaching)
    else if closed_MPA m region then Ok (Some poaching)
    else Some <$> open_signal m n poaching.
Proof. reflexivity. Qed.


Lemma open_signal_value (m n : Z) (poaching : Q) :
  n ≠ 0 → m ≠ n → open_signal m n poaching = Ok (open_value m n poaching).
Proof.
  intros Hn Hm. unfold open_signal, py_truediv.
  destruct (n =? 0) eqn:E0; [lia|]. py_simpl. unfold py_fdiv.
  assert (H : ¬ (1 - inject_Z m / inject_Z n == 0)%Q).
  { intros H. apply Hm.
    assert (Hn' := inject_Z_nonzero n Hn).
    assert (H' : (inject_Z m == inject_Z n)%Q).
    { assert (H1 : (inject_Z m / inject_Z n == 1)%Q) by lra.
      rewrite <- (Qmult_1_l (inject_Z n)), <- H1. field. exact Hn'. }
    unfold Qeq, inject_Z in H'. simpl in H'. lia. }
  apply Qeq_bool_false_iff in H. rewrite H. reflexivity.
Qed.


Lemma inject_Z_pos (n : Z) : 0 < n → (0 < inject_Z n)%Q.
Proof. intros H. change 0%Q with (inject_Z 0). by rewrite <- Zlt_Qlt. Qed.


(** C7: with every patch closed, [m = n], the multiplier of every patch
    index in [0 .. n-1] is [poaching], at every time, under the periodic
    and the static strategy. *)
Theorem all_closed_signal_is_poaching (t closure_length : Q) (region n : Z)
    (poaching : Q) (mgmt_strat : string) :
  1 ≤ n → 0 ≤ region < n →
  mgmt_strat = "periodic" ∨ mgmt_strat = "MPA" →
  square_signal t closure_length region n n poaching mgmt_strat
  = Ok (Some poaching).
Proof.
  intros Hn Hr [-> | ->].
  - destruct (start_region_bounds t closure_length n Hn) as (start & Hs & Hb).
    rewrite (square_signal_periodic _ _ _ _ _ _ start) by (done || lia).
    replace (closed_periodic start n n region) with true; [done|].
    symmetry. unfold closed_periodic.
    destruct (Z.leb_spec n (start + n - 1)) as [Hw|Hw].
    + replace ((start + n - 1) mod n) with (start - 1)
        by (apply (Z.mod_unique_pos _ _ 1); lia).
      lia.
    + lia.
  - rewrite square_signal_MPA.
    destruct (n =? 0) eqn:E0; [lia|]. by rewrite Z.eqb_refl.
Qed.

Lemma all_closed_signal_is_poaching_witness :
  square_signal 3.5 1 2 4 4 0.1 "periodic" = Ok (Some 0.1%Q)
  ∧ square_signal 3.5 1 2 4 4 0.1 "MPA" = Ok (Some 0.1%Q).
Proof.
  split; apply all_closed_signal_is_poaching; (lia || auto).
Defined.

(** C8: with nothing closed, [m = 0], the periodic multiplier of every
    patch index at every time is a normal return (no division by zero)
    of a value equal to 1. *)
Theorem periodic_nothing_closed_is_one (t closure_length : Q) (region n : Z)
    (poaching : Q) :
  1 ≤ n →
  ∃ q, square_signal t closure_length region 0 n poaching "periodic"
       = Ok (Some q) ∧ (q == 1)%Q.
Proof.
  intros Hn.
  destruct (start_region_bounds t closure_length n Hn) as (start & Hs & Hb).
  rewrite (square_signal_periodic _ _ _ _ _ _ start) by (done || lia).
  replace (closed_periodic start 0 n region) with false.
  2: { unfold closed_periodic.
       destruct (Z.leb_spec n (start + 0 - 1)); [lia|]. cbn [andb orb]. lia. }
  rewrite open_signal_value by lia. eexists. split; [reflexivity|].
  unfold open_value. assert (Hn0 := inject_Z_nonzero n ltac:(lia)).
  assert (Hnpos := inject_Z_pos n ltac:(lia)).
  change (inject_Z 0) with 0%Q. field. repeat split; lra.
Qed.

Lemma periodic_nothing_closed_is_one_witness :
  ∃ q, square_signal 3.5 1 2 0 4 0.1 "periodic" = Ok (Some q) ∧ (q == 1)%Q.
Proof. apply periodic_nothing_closed_is_one. lia. Defined.



(** ** What the patch system writes *)

Lemma frames_ret {A} (a : A) : frames (mret a).
Proof. intros σ r σ' [= <- <-] name _. reflexivity. Qed.

Lemma frames_bind {A B} (c : cmd A) (k : A → cmd B) :
  frames c → (∀ a, frames (k a)) → frames (c ≫= k).
Proof.
  intros Hc Hk σ r σ' H name Hname.
  unfold mbind, cmd_bind in H.
  destruct (c σ) as [[a|e] σ1] eqn:E.
  - rewrite (Hk a _ _ _ H name Hname). by apply (Hc _ _ _ E).
  - injection H as <- <-. by apply (Hc _ _ _ E).
Qed.

Lemma frames_reading {A} (f : obj → py A) : frames (reading f).
Proof. intros σ r σ' [= <- <-] name _. reflexivity. Qed.

Lemma frames_print (line : string) : frames (print line).
Proof. intros σ r σ' [= <- <-] name _. reflexivity. Qed.

Lemma frames_store (name : string) (i : Z) (results : list Q) (k : Z) :
  name ∈ buffers → frames (store name i results k).
Proof.
  intros Hin σ r σ' H name' Hname'. unfold store in H.
  destruct (_ ≫= _) in H; injection H as <- <-; [|done].
  cbn [model]. apply lookup_insert_ne. intros ->. contradiction.
Qed.

Lemma frames_for {A} (l : list Z) (body : Z → A → cmd A) (a : A) :
  (∀ i a, frames (body i a)) → frames (for_ l body a).
Proof.
  intros Hbody. revert a. induction l as [|i l IH]; intros a; cbn [for_].
  - apply frames_ret.
  - apply frames_bind; [apply Hbody | apply IH].
Qed.

Lemma buffers_dPs : "dPs" ∈ buffers.
Proof. unfold buffers. set_solver. Qed.
Lemma buffers_dCs : "dCs" ∈ buffers.
Proof. unfold buffers. set_solver. Qed.
Lemma buffers_dMs : "dMs" ∈ buffers.
Proof. unfold buffers. set_solver. Qed.
Lemma buffers_dMvs : "dMvs" ∈ buffers.
Proof. unfold buffers. set_solver. Qed.
Lemma buffers_dMis : "dMis" ∈ buffers.
Proof. unfold buffers. set_solver. Qed.

Create HintDb frames.
#[local] Hint Resolve frames_ret frames_reading frames_print
  buffers_dPs buffers_dCs buffers_dMs buffers_dMvs buffers_dMis : frames.

Ltac frames_auto :=
  repeat first
    [ solve [auto with frames]
    | apply frames_store; solve [auto with frames]
    | apply frames_for; intros
    | apply frames_bind; [|intros] ].

Lemma frames_store3 (i : Z) (results : list Q) : frames (store3 i results).
Proof. unfold store3. frames_auto. Qed.

Lemma frames_add_influx (X : list Q) (i j : Z) (P_influx : list Q) :
  frames (add_influx X i j P_influx).
Proof. apply frames_reading. Qed.

Lemma frames_patch_step (X : list Q) (t : Q) (i : Z) (P_influx : list Q) :
  frames (patch_step X t i P_influx).
Proof.
  unfold patch_step.
  apply frames_bind; [apply frames_reading | intros n].
  apply frames_bind; [apply frames_for; intros; apply frames_add_influx | intros P].
  apply frames_bind; [apply frames_reading | intros mt].
  apply frames_bind; [|intros; apply frames_ret].
  repeat match goal with
         | |- frames (if ?b then _ else _) => destruct b
         end;
    frames_auto; apply frames_store3.
Qed.

Lemma frames_patch_loop (X : list Q) (t : Q) : frames (patch_loop X t).
Proof.
  unfold patch_loop.
  apply frames_bind; [apply frames_reading | intros n].
  apply frames_for. intros. apply frames_patch_step.
Qed.

Lemma frames_patch_system (X : list Q) (t : Q) : frames (patch_system X t).
Proof.
  unfold patch_system.
  apply frames_bind; [apply frames_patch_loop | intros _].
  apply frames_bind; [apply frames_reading | intros mt].
  destruct (str_eq mt "RB"); apply frames_reading.
Qed.

(** ** The fallback for an unrecognised model family *)

(** No kernel reads the family tag. *)
Lemma getattr_as_BM (system_model : obj) (name : string) :
  name ≠ "model_type" →
  getattr (as_BM system_model) name = getattr system_model name.
Proof. intros H. unfold getattr, as_BM. by rewrite lookup_insert_ne. Qed.

Ltac forget_tag :=
  unfold num_attr, int_attr, array_attr;
  rewrite ?getattr_as_BM by done.

Lemma model_signal_as_BM (t : Q) (i : Z) (system_model : obj) :
  model_signal t i (as_BM system_model) = model_signal t i system_model.
Proof. unfold model_signal. forget_tag. reflexivity. Qed.

Lemma blackwood_as_BM (X : list Q) (t : Q) (i : Z) (system_model : obj)
    (P_influx : list Q) :
  blackwood X t i (as_BM system_model) P_influx
  = blackwood X t i system_model P_influx.
Proof.
  unfold blackwood. rewrite model_signal_as_BM. forget_tag. reflexivity.
Qed.

Lemma add_influx_as_BM (X : list Q) (i j : Z) (P_influx : list Q)
    (system_model : obj) :
  (old ← getitem P_influx i;
   kP ← getattr (as_BM system_model) "kP" ≫= as_matrix;
   row ← getitem kP i;
   k ← getitem row j;
   x ← getitem X j;
   setitem P_influx i (old + k * x)%Q)
  = (old ← getitem P_influx i;
     kP ← getattr system_model "kP" ≫= as_matrix;
     row ← getitem kP i;
     k ← getitem row j;
     x ← getitem X j;
     setitem P_influx i (old + k * x)%Q).
Proof. by rewrite getattr_as_BM. Qed.

Section Fallback.

Variable model_type : value.
Hypothesis unrecognized : recognized model_type = false.

#[local] Abbreviation sim := (sim model_type).
#[local] Abbreviation retagged := (retagged model_type).

Lemma sim_ret {A} (a : A) : sim (mret a) (mret a).
Proof. intros σ1 σ2 H. by split. Qed.

Lemma sim_bind {A B} (c1 c2 : cmd A) (k1 k2 : A → cmd B) :
  sim c1 c2 → (∀ a, sim (k1 a) (k2 a)) → sim (c1 ≫= k1) (c2 ≫= k2).
Proof.
  intros Hc Hk σ1 σ2 H. destruct (Hc σ1 σ2 H) as [Hr Hs].
  unfold mbind, cmd_bind.
  destruct (c1 σ1) as [r1 τ1], (c2 σ2) as [r2 τ2]. simpl in *. subst r2.
  destruct r1 as [a|e]; [by apply Hk | by split].
Qed.

Lemma sim_for {A} (l : list Z) (b1 b2 : Z → A → cmd A) (a : A) :
  (∀ i a, sim (b1 i a) (b2 i a)) → sim (for_ l b1 a) (for_ l b2 a).
Proof.
  intros Hb. revert a. induction l as [|i l IH]; intros a; cbn [for_].
  - apply sim_ret.
  - apply sim_bind; [apply Hb | apply IH].
Qed.

Lemma sim_reading {A} (f : obj → py A) :
  (∀ system_model, f (as_BM system_model) = f system_model) →
  sim (reading f) (reading f).
Proof.
  intros Hf σ1 σ2 H. unfold reading. cbn [fst snd]. split; [|done].
  destruct H as (_ & -> & _). by rewrite Hf.
Qed.

Lemma sim_store (name : string) (i : Z) (results : list Q) (k : Z) :
  name ≠ "model_type" →
  sim (store name i results k) (store name i results k).
Proof.
  intros Hname σ1 σ2 H. pose proof H as (Htype & Hmodel & Hout).
  assert (Harr : array_attr (model σ2) name = array_attr (model σ1) name).
  { rewrite Hmodel. unfold array_attr, getattr, as_BM.
    by rewrite lookup_insert_ne. }
  unfold store. rewrite Harr.
  destruct (_ ≫= _) as [a'|e]; cbn [fst snd]; [|by split].
  split; [done|]. repeat split; cbn [model stdout].
  - by rewrite lookup_insert_ne.
  - rewrite Hmodel. unfold as_BM. by rewrite insert_insert_ne.
  - done.
Qed.

Lemma sim_print_left {A} (c1 c2 : cmd A) :
  sim c1 c2 → sim (print warning ;; c1) c2.
Proof.
  intros Hc σ1 σ2 (Htype & Hmodel & k & Hout).
  unfold mbind, cmd_bind, print. apply Hc. repeat split; cbn [model stdout]; try done.
  exists (S k). rewrite Hout, <- app_assoc. f_equal.
  change [warning] with (replicate 1 warning).
  rewrite <- replicate_add. f_equal. lia.
Qed.

Lemma sim_read_type {A} (k1 k2 : value → cmd A) :
  sim (k1 model_type) (k2 (VStr "BM")) →
  sim (reading (λ system_model, getattr system_model "model_type") ≫= k1)
      (reading (λ system_model, getattr system_model "model_type") ≫= k2).
Proof.
  intros Hk σ1 σ2 H. pose proof H as (Htype & Hmodel & _).
  unfold mbind, cmd_bind, reading, getattr.
  rewrite Hmodel, Htype. unfold as_BM. rewrite lookup_insert_eq. by apply Hk.
Qed.

Lemma sim_store3 (i : Z) (results : list Q) :
  sim (store3 i results) (store3 i results).
Proof.
  unfold store3. repeat (apply sim_bind; [|intros]); by apply sim_store.
Qed.

Lemma sim_patch_step (X : list Q) (t : Q) (i : Z) (P_influx : list Q) :
  sim (patch_step X t i P_influx) (patch_step X t i P_influx).
Proof.
  unfold patch_step.
  apply sim_bind; [apply sim_reading; intros; by forget_tag | intros n].
  apply sim_bind.
  { apply sim_for. intros j P. apply sim_reading. intros.
    apply add_influx_as_BM. }
  intros P. apply sim_read_type.
  apply sim_bind; [|intros; apply sim_ret].
  pose proof unrecognized as Hu. unfold recognized in Hu.
  repeat (apply orb_false_elim in Hu; destruct Hu as [Hu ?]).
  repeat match goal with H : str_eq model_type _ = false |- _ =>
           rewrite H; clear H end.
  change (str_eq (VStr "BM") "RB") with false.
  change (str_eq (VStr "BM") "BM") with true. cbv iota.
  apply sim_print_left.
  apply sim_bind; [apply sim_reading; intros; apply blackwood_as_BM | intros].
  apply sim_store3.
Qed.

Lemma sim_patch_system (X : list Q) (t : Q) :
  sim (patch_system X t) (patch_system X t).
Proof.
  unfold patch_system, patch_loop.
  apply sim_bind.
  { apply sim_bind; [apply sim_reading; intros; by forget_tag | intros n].
    apply sim_for. intros. apply sim_patch_step. }
  intros _. apply sim_read_type.
  pose proof unrecognized as Hu. unfold recognized in Hu.
  repeat (apply orb_false_elim in Hu; destruct Hu as [Hu ?]).
  rewrite Hu. change (str_eq (VStr "BM") "RB") with false. cbv iota.
  apply sim_reading. intros. unfold concatenate. cbn [mapM].
  by forget_tag.
Qed.

End Fallback.

(** C4 (as amended): for every value of [model_type] that is none of the
    six recognised tags, evaluating the patch system is not an error of
    its own: it does exactly what it does for the same object tagged ['BM'],
    with the same outcome and the same writes to the derivative buffers,
    and only adds copies of the warning line to the console. *)
Theorem unrecognized_model_runs_blackwood (X : list Q) (t : Q)
    (system_model : obj) (model_type : value) (out : list string) :
  system_model !! "model_type" = Some model_type →
  recognized model_type = false →
  let run := patch_system X t (State system_model out) in
  let run_BM := patch_system X t (State (as_BM system_model) out) in
  run.1 = run_BM.1
  ∧ model run_BM.2 = as_BM (model run.2)
  ∧ ∃ k, stdout run.2 = stdout run_BM.2 ++ replicate k warning.
Proof.
  intros Htype Hu run run_BM.
  destruct (sim_patch_system model_type Hu X t (State system_model out)
              (State (as_BM system_model) out)) as (Hr & Ht & Hm & Hk).
  { repeat split; cbn [model stdout]; try done.
    exists 0%nat. by rewrite app_nil_r. }
  by repeat split.
Qed.

(** ** Dispersal *)

Lemma lookup_range (n : Z) (k : nat) :
  (k < Z.to_nat n)%nat → range n !! k = Some (Z.of_nat k).
Proof.
  intros Hk. unfold range. rewrite list_lookup_fmap, lookup_seq_lt by done.
  reflexivity.
Qed.

Lemma getitem_lookup {A} (l : list A) (i : Z) (a : A) :
  0 ≤ i → l !! Z.to_nat i = Some a → getitem l i = Ok a.
Proof.
  intros Hi Hl. unfold getitem, norm_index.
  apply lookup_lt_Some in Hl as Hlen. cbv zeta.
  destruct (Z.ltb_spec i 0); [lia|].
  destruct (Z.leb_spec 0 i); [|lia].
  destruct (Z.ltb_spec i (Z.of_nat (length l))); [|lia].
  cbn [andb]. py_simpl. by rewrite Hl.
Qed.

Lemma getitem_at (X : list Q) (j : Z) :
  0 ≤ j < Z.of_nat (length X) → getitem X j = Ok (at_ X j).
Proof.
  intros Hj. destruct (lookup_lt_is_Some_2 X (Z.to_nat j)) as [x Hx]; [lia|].
  rewrite (getitem_lookup _ _ x) by (lia || done).
  unfold at_. by rewrite (nth_lookup_Some _ _ _ _ Hx).
Qed.

Lemma setitem_insert {A} (l : list A) (i : Z) (a : A) :
  0 ≤ i < Z.of_nat (length l) → setitem l i a = Ok (<[Z.to_nat i := a]> l).
Proof.
  intros Hi. unfold setitem, norm_index. cbv zeta.
  destruct (Z.ltb_spec i 0); [lia|].
  destruct (Z.leb_spec 0 i); [|lia].
  destruct (Z.ltb_spec i (Z.of_nat (length l))); [|lia].
  reflexivity.
Qed.

Lemma getitem_range_fmap {A} (f : Z → A) (n i : Z) :
  0 ≤ i < n → getitem (f <$> range n) i = Ok (f i).
Proof.
  intros Hi. apply getitem_lookup; [lia|].
  rewrite list_lookup_fmap, lookup_range by lia. simpl. f_equal. f_equal. lia.
Qed.

Lemma getitem_build_kP (n : Z) (frac_dispersed : Q) (i j : Z) :
  0 ≤ i < n → 0 ≤ j < n →
  (row ← getitem (build_kP n frac_dispersed) i; getitem row j)
  = Ok (kP_entry n frac_dispersed i j).
Proof.
  intros Hi Hj. unfold build_kP. rewrite getitem_range_fmap by done. py_simpl.
  by rewrite getitem_range_fmap.
Qed.

Ltac not_buffer :=
  let H := fresh in
  unfold buffers; intros H;
  repeat (apply elem_of_cons in H as [H|H]; [discriminate|]);
  by apply elem_of_nil in H.



Section Influx.

Variables (n : Z) (frac_dispersed : Q) (X : list Q).
Hypothesis X_long : n ≤ Z.of_nat (length X).

#[local] Abbreviation dispersal_ready := (dispersal_ready n frac_dispersed).

Lemma add_influx_value (σ : state) (i j : Z) (P_influx : list Q) :
  dispersal_ready σ → 0 ≤ i < n → 0 ≤ j < n →
  Z.of_nat (length P_influx) = n →
  add_influx X i j P_influx σ
  = (Ok (<[Z.to_nat i := (at_ P_influx i
                          + kP_entry n frac_dispersed i j * at_ X j)%Q]>
           P_influx), σ).
Proof.
  intros [_ HkP] Hi Hj Hlen. unfold add_influx, reading. f_equal.
  rewrite getitem_at by lia. py_simpl.
  unfold getattr. rewrite HkP. py_simpl. cbn [as_matrix]. py_simpl.
  pose proof (getitem_build_kP n frac_dispersed i j Hi Hj) as Hentry.
  destruct (getitem (build_kP n frac_dispersed) i) as [row|]; [|done].
  py_simpl. py_simpl_in Hentry. rewrite Hentry. py_simpl.
  rewrite getitem_at by lia. py_simpl. apply setitem_insert. lia.
Qed.

Lemma at_insert (P_influx : list Q) (i : Z) (q : Q) :
  0 ≤ i < Z.of_nat (length P_influx) →
  at_ (<[Z.to_nat i := q]> P_influx) i = q.
Proof.
  intros Hi. unfold at_. apply nth_lookup_Some.
  apply list_lookup_insert_eq. lia.
Qed.

Lemma influx_inner (σ : state) (i : Z) (js : list Z) (P_influx : list Q) :
  dispersal_ready σ → 0 ≤ i < n → (∀ j, j ∈ js → 0 ≤ j < n) →
  Z.of_nat (length P_influx) = n →
  for_ js (add_influx X i) P_influx σ
  = (Ok (<[Z.to_nat i :=
            influx_from n frac_dispersed X i (at_ P_influx i) js]> P_influx),
     σ).
Proof.
  intros Hσ Hi. revert P_influx.
  induction js as [|j js IH]; intros P_influx Hjs Hlen; cbn [for_].
  - unfold influx_from. cbn [foldl]. unfold mret, cmd_ret. f_equal. f_equal.
    symmetry. apply list_insert_id. unfold at_.
    destruct (lookup_lt_is_Some_2 P_influx (Z.to_nat i)) as [x Hx]; [lia|].
    by rewrite (nth_lookup_Some _ _ _ _ Hx).
  - unfold mbind, cmd_bind.
    rewrite add_influx_value; [|done|done|apply Hjs, list_elem_of_here|done].
    rewrite IH.
    + rewrite at_insert by lia. rewrite list_insert_insert_eq. reflexivity.
    + intros j' Hj'. apply Hjs. by apply list_elem_of_further.
    + by rewrite length_insert.
Qed.

Lemma length_influx_step (P_influx : list Q) (i : Z) :
  length (influx_step n frac_dispersed X P_influx i) = length P_influx.
Proof. unfold influx_step. apply length_insert. Qed.


(** The dispersal loops on their own. *)
Lemma influx_outer (σ : state) (is_ : list Z) (P_influx : list Q) :
  dispersal_ready σ → (∀ i, i ∈ is_ → 0 ≤ i < n) →
  Z.of_nat (length P_influx) = n →
  for_ is_ (λ i P, for_ (range n) (add_influx X i) P) P_influx σ
  = (Ok (foldl (influx_step n frac_dispersed X) P_influx is_), σ).
Proof.
  intros Hσ. revert P_influx.
  induction is_ as [|i is_ IH]; intros P_influx His Hlen; cbn [for_ foldl].
  - reflexivity.
  - unfold mbind, cmd_bind. rewrite influx_inner; try done.
    + apply IH.
      * intros i' Hi'. apply His. by apply list_elem_of_further.
      * by rewrite length_influx_step.
    + apply His, list_elem_of_here.
    + intros j Hj. by apply elem_of_range.
Qed.




Lemma influx_prefix (k : nat) :
  (Z.of_nat k ≤ n) →
  foldl (influx_step n frac_dispersed X) (times 0%Q n) (range (Z.of_nat k))
  = ((λ i, influx_from n frac_dispersed X i 0%Q (range n))
       <$> range (Z.of_nat k))
    ++ replicate (Z.to_nat n - k) 0%Q.
Proof.
  induction k as [|k IH]; intros Hk.
  - simpl. unfold times. f_equal. lia.
  - rewrite range_succ, foldl_app, IH by lia. cbn [foldl].
    unfold influx_step.
    assert (Hlen : length ((λ i, influx_from n frac_dispersed X i 0%Q (range n))
                             <$> range (Z.of_nat k)) = k).
    { unfold range. by rewrite !length_fmap, length_seq, Nat2Z.id. }
    assert (Hat : at_ (((λ i, influx_from n frac_dispersed X i 0%Q (range n))
                          <$> range (Z.of_nat k))
                       ++ replicate (Z.to_nat n - k) 0%Q) (Z.of_nat k) = 0%Q).
    { unfold at_. rewrite Nat2Z.id. apply nth_lookup_Some.
      rewrite lookup_app_r by lia. rewrite Hlen, Nat.sub_diag.
      apply lookup_replicate_2. lia. }
    rewrite Hat, Nat2Z.id.
    replace k with (length ((λ i, influx_from n frac_dispersed X i 0%Q (range n))
                              <$> range (Z.of_nat k)) + 0)%nat at 1
      by (rewrite Hlen; lia).
    rewrite insert_app_r.
    replace (Z.to_nat n - k)%nat with (S (Z.to_nat n - S k)) by lia.
    cbn [replicate]. cbn [list_insert insert]. rewrite fmap_app, <- app_assoc.
    reflexivity.
Qed.

Lemma influx_all :
  0 ≤ n →
  foldl (influx_step n frac_dispersed X) (times 0%Q n) (range n)
  = (λ i, influx_from n frac_dispersed X i 0%Q (range n)) <$> range n.
Proof.
  intros Hn. replace n with (Z.of_nat (Z.to_nat n)) at 3 4 by lia.
  rewrite influx_prefix by lia. rewrite Nat.sub_diag. apply app_nil_r.
Qed.

End Influx.

(** ** Sums over the patches *)

Lemma Qsum_app (l1 l2 : list Q) : (Qsum (l1 ++ l2) == Qsum l1 + Qsum l2)%Q.
Proof.
  induction l1 as [|x l1 IH]; cbn [app Qsum foldr].
  - unfold Qsum. cbn [foldr]. ring.
  - fold (Qsum (l1 ++ l2)). fold (Qsum l1). rewrite IH. ring.
Qed.

Lemma Qsum_cons (x : Q) (l : list Q) : Qsum (x :: l) = (x + Qsum l)%Q.
Proof. reflexivity. Qed.

Lemma Qsum_fmap_ext (f g : Z → Q) (l : list Z) :
  (∀ r, r ∈ l → (f r == g r)%Q) → (Qsum (f <$> l) == Qsum (g <$> l))%Q.
Proof.
  induction l as [|r l IH]; intros H; [reflexivity|].
  rewrite !fmap_cons, !Qsum_cons.
  rewrite (H r) by apply list_elem_of_here.
  rewrite IH; [reflexivity|]. intros r' Hr'. apply H. by apply list_elem_of_further.
Qed.

Lemma Qsum_affine (a b : Q) (f g : Z → Q) (l : list Z) :
  (Qsum ((λ r, a * f r + b * g r) <$> l)
   == a * Qsum (f <$> l) + b * Qsum (g <$> l))%Q.
Proof.
  induction l as [|r l IH].
  - unfold Qsum. cbn [fmap list_fmap foldr]. ring.
  - rewrite !fmap_cons, !Qsum_cons, IH. ring.
Qed.

Lemma Qsum_ones (l : list Z) :
  (Qsum ((λ _, 1) <$> l) == inject_Z (Z.of_nat (length l)))%Q.
Proof.
  induction l as [|r l IH].
  - reflexivity.
  - rewrite fmap_cons, Qsum_cons, IH. cbn [length].
    rewrite Nat2Z.inj_succ, <- Z.add_1_l, inject_Z_plus. reflexivity.
Qed.

(** A sum that picks out the term of index [i]. *)
Lemma Qsum_pick (w : Z → Q) (i : Z) (k : nat) :
  0 ≤ i →
  (Qsum ((λ j, if i =? j then w j else 0) <$> range (Z.of_nat k))
   == if i <? Z.of_nat k then w i else 0)%Q.
Proof.
  intros Hi. induction k as [|k IH].
  - destruct (Z.ltb_spec i (Z.of_nat 0)); [lia | reflexivity].
  - rewrite range_succ, fmap_app, Qsum_app, IH.
    cbn [fmap list_fmap]. rewrite Qsum_cons. unfold Qsum at 1. cbn [foldr].
    destruct (Z.ltb_spec i (Z.of_nat k)), (Z.ltb_spec i (Z.of_nat (S k))),
      (Z.eqb_spec i (Z.of_nat k)); try lia; subst; ring.
Qed.

Lemma foldl_Qsum (g : Z → Q) (acc : Q) (js : list Z) :
  (foldl (λ a j, a + g j) acc js == acc + Qsum (g <$> js))%Q.
Proof.
  revert acc. induction js as [|j js IH]; intros acc; cbn [foldl].
  - unfold Qsum. cbn [fmap list_fmap foldr]. ring.
  - rewrite IH, fmap_cons, Qsum_cons. ring.
Qed.

Lemma kP_entry_split (n : Z) (fd : Q) (i j : Z) (w : Q) :
  (kP_entry n fd i j * w
   == fd * w + (- (fd * inject_Z n)) * (if i =? j then w else 0))%Q.
Proof.
  unfold kP_entry. destruct (i =? j).
  - unfold Z.sub. rewrite inject_Z_plus, inject_Z_opp.
    change (inject_Z 1) with 1%Q. ring.
  - ring.
Qed.

(** A row of [kP] against weights [w]. *)
Lemma Qsum_kP_row (n : Z) (fd : Q) (w : Z → Q) (i : Z) :
  0 ≤ i < n →
  (Qsum ((λ j, kP_entry n fd i j * w j) <$> range n)
   == fd * Qsum (w <$> range n) - fd * inject_Z n * w i)%Q.
Proof.
  intros Hi.
  rewrite (Qsum_fmap_ext _
    (λ j, fd * w j + (- (fd * inject_Z n)) * (if i =? j then w j else 0))%Q)
    by (intros; apply kP_entry_split).
  rewrite Qsum_affine.
  replace n with (Z.of_nat (Z.to_nat n)) at 3 by lia.
  rewrite Qsum_pick by lia.
  destruct (Z.ltb_spec i (Z.of_nat (Z.to_nat n))); [|lia]. ring.
Qed.

Lemma influx_from_sum (n : Z) (fd : Q) (X : list Q) (i : Z) :
  0 ≤ i < n →
  (influx_from n fd X i 0 (range n)
   == fd * Qsum (at_ X <$> range n) - fd * inject_Z n * at_ X i)%Q.
Proof.
  intros Hi. unfold influx_from.
  rewrite (foldl_Qsum (λ j, kP_entry n fd i j * at_ X j)%Q).
  rewrite Qsum_kP_row by done. ring.
Qed.

(** ** Initialisation sets up the dispersal matrix *)

Ltac lookups :=
  repeat first [rewrite lookup_insert_eq | rewrite lookup_insert_ne by done].

Lemma initialize_patch_model_ready (junk : string → Z → Q)
    (model_type frac_nomove mgmt_strat : value) (n : Z) (q : Q)
    (P0 C0L C0H M0L M0H M0iL M0iH : value) :
  1 ≤ n → as_num frac_nomove = Ok q →
  ∃ system_model,
    initialize_patch_model junk
      (Model model_type (VInt n) frac_nomove mgmt_strat)
      P0 C0L C0H M0L M0H M0iL M0iH = Ok system_model
    ∧ system_model !! "n" = Some (VInt n)
    ∧ system_model !! "kP"
      = Some (VMatrix (build_kP n ((1 - q) * (inject_Z 1 / inject_Z n))%Q)).
Proof.
  intros Hn Hq.
  assert (Hsetup : dispersal_setup (Model model_type (VInt n) frac_nomove mgmt_strat)
                   = Ok (<["kP" := VMatrix (build_kP n
                                   ((1 - q) * (inject_Z 1 / inject_Z n))%Q)]>
                           (Model model_type (VInt n) frac_nomove mgmt_strat))).
  { unfold dispersal_setup, num_attr, int_attr, getattr, Model.
    lookups. py_simpl. rewrite Hq. py_simpl.
    cbn [as_int]. py_simpl. unfold py_truediv.
    destruct (Z.eqb_spec n 0); [lia|]. py_simpl.
    destruct (Z.ltb_spec n 0); [lia|]. reflexivity. }
  unfold initialize_patch_model, RB_initialize_patch_model.
  assert (Htype : getattr (Model model_type (VInt n) frac_nomove mgmt_strat)
                     "model_type" = Ok model_type).
  { unfold getattr, Model. by lookups. }
  rewrite Htype. py_simpl. rewrite !Hsetup. py_simpl.
  assert (Hint : int_attr (<["kP" := VMatrix (build_kP n
                                   ((1 - q) * (inject_Z 1 / inject_Z n))%Q)]>
                           (Model model_type (VInt n) frac_nomove mgmt_strat)) "n"
                 = Ok n).
  { unfold int_attr, getattr, Model. by lookups. }
  rewrite Hint. py_simpl.
  destruct (str_eq model_type "RB"); (eexists; split; [reflexivity|]);
    unfold Model; by lookups.
Qed.

(** C6 (as amended): evaluating the patch system leaves every attribute
    of the model object other than the derivative buffers [dPs], [dCs],
    [dMs], [dMvs] and [dMis] as it was, whatever the outcome. *)
Theorem patch_system_writes_only_buffers (X : list Q) (t : Q) (σ : state)
    (name : string) :
  name ∉ buffers →
  model (patch_system X t σ).2 !! name = model σ !! name.
Proof.
  intros Hname.
  apply (frames_patch_system X t σ (patch_system X t σ).1); [|done].
  by destruct (patch_system X t σ).
Qed.

Lemma patch_system_writes_only_buffers_witness :
  model (patch_system sample_X 0 (State sample_BM [])).2 !! "kP"
  = sample_BM !! "kP".
Proof.
  apply (patch_system_writes_only_buffers sample_X 0 (State sample_BM []) "kP").
  not_buffer.
Defined.

(** C6 as stated fails: one evaluation on the sample model returns the
    derivative vector and leaves new values in [dPs], [dCs] and [dMs]. *)
Lemma patch_system_mutates_model :
  let σ := State sample_BM [] in
  let run := patch_system sample_X 0 σ in
  (∃ dX, run.1 = Ok dX)
  ∧ model σ !! "dPs" = Some (VArray [0; 0]%Q)
  ∧ model run.2 !! "dPs" ≠ model σ !! "dPs"
  ∧ model run.2 !! "dCs" ≠ model σ !! "dCs"
  ∧ model run.2 !! "dMs" ≠ model σ !! "dMs".
Proof.
  cbv zeta. split; [|split; [|split; [|split]]].
  - eexists. vm_compute. reflexivity.
  - vm_compute. reflexivity.
  - vm_compute. discriminate.
  - vm_compute. discriminate.
  - vm_compute. discriminate.
Qed.

(** C4 as stated fails: the sample model retagged with either of two
    unrecognised names evaluates normally, to the very derivative vector of
    the Blackwood-Mumby model, so neither evaluation is an error and more
    than one unrecognised input yields Blackwood-Mumby dynamics. *)
Lemma unrecognized_model_is_not_an_error :
  let run tag := (patch_system sample_X 0 (State (retag tag sample_BM) [])).1 in
  recognized (VStr "xyz") = false
  ∧ recognized (VStr "Blackwood") = false
  ∧ (∃ dX, run "BM" = Ok dX)
  ∧ run "xyz" = run "BM"
  ∧ run "Blackwood" = run "BM"
  ∧ stdout (patch_system sample_X 0 (State (retag "xyz" sample_BM) [])).2
    = [warning; warning].
Proof.
  cbv zeta. split; [|split; [|split; [|split; [|split]]]].
  - reflexivity.
  - reflexivity.
  - eexists. vm_compute. reflexivity.
  - vm_compute. reflexivity.
  - vm_compute. reflexivity.
  - vm_compute. reflexivity.
Qed.

Lemma unrecognized_model_runs_blackwood_witness :
  let run := patch_system sample_X 0 (State (retag "xyz" sample_BM) []) in
  let run_BM :=
    patch_system sample_X 0 (State (as_BM (retag "xyz" sample_BM)) []) in
  run.1 = run_BM.1
  ∧ model run_BM.2 = as_BM (model run.2)
  ∧ ∃ k, stdout run.2 = stdout run_BM.2 ++ replicate k warning.
Proof.
  apply (unrecognized_model_runs_blackwood sample_X 0 (retag "xyz" sample_BM)
           (VStr "xyz") []).
  - apply lookup_insert_eq.
  - reflexivity.
Defined.

(** ** The fishing term of the Leemput kernel *)

Lemma getattr_insert_ne (system_model : obj) (key name : string) (v : value) :
  key ≠ name → getattr (<[key := v]> system_model) name = getattr system_model name.
Proof. intros H. unfold getattr. by rewrite lookup_insert_ne. Qed.

Lemma num_attr_insert_ne (system_model : obj) (key name : string) (v : value) :
  key ≠ name →
  num_attr (<[key := v]> system_model) name = num_attr system_model name.
Proof. intros H. unfold num_attr. by rewrite getattr_insert_ne. Qed.

Lemma model_signal_insert_f (t : Q) (i : Z) (system_model : obj) (v : value) :
  model_signal t i (<["f" := v]> system_model) = model_signal t i system_model.
Proof.
  unfold model_signal, num_attr, int_attr.
  by rewrite !getattr_insert_ne by done.
Qed.

(** The saturation level [fishing] stays below. *)
Lemma fishing_saturates (parrotfish f : R) :
  (0 < f)%R → (0 < fishing parrotfish f < f)%R.
Proof.
  intros Hf. unfold fishing. cbv zeta.
  set (e := exp _).
  assert (He : (0 < e)%R) by apply exp_pos. clearbody e.
  split.
  - apply Rdiv_lt_0_compat; Lra.lra.
  - apply (Rmult_lt_reg_r (1 + e)); [Lra.lra|].
    unfold Rdiv. rewrite Rmult_assoc, Rinv_l by Lra.lra.
    Lra.nra.
Qed.

(** C5 (as amended): in the Leemput kernel the fishing term is
    [f * P[i] * multiplier], linear in the local fish density: removing
    fishing ([f = 0]) raises [dP] by exactly that product and changes
    neither [dC] nor [dM]; [fishing] is not applied. *)
Theorem leemput_fishing_is_linear (X : list Q) (t : Q) (i n : Z)
    (system_model : obj) (P_influx : list Q) (f Pi signal : Q)
    (dP dC dM dP0 dC0 dM0 : Q) :
  int_attr system_model "n" = Ok n →
  getitem (take (Z.to_nat n) X) i = Ok Pi →
  num_attr system_model "f" = Ok f →
  model_signal t i system_model = Ok signal →
  leemput X t i system_model P_influx = Ok [dP; dC; dM] →
  leemput X t i (<["f" := VInt 0]> system_model) P_influx
  = Ok [dP0; dC0; dM0] →
  (dP0 - dP == f * Pi * signal)%Q ∧ dC0 = dC ∧ dM0 = dM.
Proof.
  intros Hn HPi Hf Hsig H1 H0. unfold leemput in H1, H0.
  rewrite model_signal_insert_f in H0.
  unfold int_attr in Hn, H0.
  rewrite getattr_insert_ne in H0 by done. fold (int_attr system_model "n") in *.
  rewrite Hn in H1, H0. py_simpl_in H1. py_simpl_in H0.
  unfold reshape in H1, H0.
  destruct (_ && _); [|discriminate].
  cbn [fmap list_fmap seq] in H1, H0. py_simpl_in H1. py_simpl_in H0.
  rewrite Nat.mul_0_l, drop_0 in H1, H0.
  rewrite HPi, Hsig in H1, H0.
  assert (Hf0 : num_attr (<["f" := VInt 0]> system_model) "f" = Ok 0%Q).
  { unfold num_attr, getattr. by rewrite lookup_insert_eq. }
  rewrite Hf0 in H0. rewrite Hf in H1.
  rewrite !num_attr_insert_ne in H0 by done.
  repeat match type of H1 with
         | context [mbind _ ?c] =>
           lazymatch c with
           | Ok _ => fail
           | Raise _ => fail
           | _ => destruct c; py_simpl_in H1; py_simpl_in H0;
                  try discriminate
           end
         end.
  injection H1 as <- <- <-. injection H0 as <- <- <-.
  repeat split. ring.
Qed.

Lemma leemput_fishing_is_linear_witness :
  ((-2500 # 750) - (-4000 # 750) == 1 * 2 * 1)%Q
  ∧ 0.0260000000%Q = 0.0260000000%Q
  ∧ (-13760000 # 120000000)%Q = (-13760000 # 120000000)%Q.
Proof.
  apply (leemput_fishing_is_linear [2; 0.5; 0.1]%Q 0 0 1 sample_vdL [0%Q]
           1 2 1 (-4000 # 750) 0.0260000000 (-13760000 # 120000000)
           (-2500 # 750) 0.0260000000 (-13760000 # 120000000));
    vm_compute; reflexivity.
Defined.

(** C5 as stated fails: on the sample model, with [f = 1], multiplier 1
    and fish density 2, removing fishing raises [dP] by 2, twice what it
    does at density 1; a logistic term would stay below its saturation
    level [f * multiplier = 1], with or without a further factor [P[i]]. *)
Lemma leemput_fishing_not_logistic :
  let run f X := leemput X 0 0 (<["f" := f]> sample_vdL) [0%Q] in
  run (VInt 1) [2; 0.5; 0.1]%Q
  = Ok [-4000 # 750; 0.0260000000; -13760000 # 120000000]%Q
  ∧ run (VInt 0) [2; 0.5; 0.1]%Q
    = Ok [-2500 # 750; 0.0260000000; -13760000 # 120000000]%Q
  ∧ run (VInt 1) [1; 0.5; 0.1]%Q
    = Ok [-1000 # 750; 0.0260000000; -3760000 # 120000000]%Q
  ∧ run (VInt 0) [1; 0.5; 0.1]%Q
    = Ok [-250 # 750; 0.0260000000; -3760000 # 120000000]%Q
  ∧ model_signal 0 0 sample_vdL = Ok 1%Q
  ∧ ((-2500 # 750) - (-4000 # 750) == 2 * ((-250 # 750) - (-1000 # 750)))%Q
  ∧ (fishing 2 1 * 1 < Q2R ((-2500 # 750) - (-4000 # 750)))%R
  ∧ (fishing 2 1 * 2 * 1 < Q2R ((-2500 # 750) - (-4000 # 750)))%R.
Proof.
  cbv zeta.
  assert (Hsat := fishing_saturates 2 1 ltac:(Lra.lra)).
  assert (Hval : Q2R ((-2500 # 750) - (-4000 # 750)) = 2%R).
  { unfold Q2R.
    change (Qnum ((-2500 # 750) - (-4000 # 750))) with 1125000.
    change (Z.pos (Qden ((-2500 # 750) - (-4000 # 750)))) with 562500.
    Lra.lra. }
  rewrite Hval.
  repeat split; try (vm_compute; reflexivity); Lra.lra.
Qed.

(** ** Coral recovery time *)

Lemma scan_recovery_range (high : Q) (i : Z) (coralsol : list Q) :
  scan_recovery high i coralsol = -1 ∨ i ≤ scan_recovery high i coralsol.
Proof.
  revert i. induction coralsol as [|x l IH]; intros i; cbn [scan_recovery].
  - by left.
  - destruct (negb (Qle_bool x high)); [right; lia|].
    destruct (IH (i + 1)); [by left | right; lia].
Qed.

(** Up to the first crossing the scan returns its index. *)
Lemma scan_recovery_first (high : Q) (i : Z) (before after : list Q) (x : Q) :
  (∀ y, y ∈ before → (y <= high)%Q) → (high < x)%Q →
  scan_recovery high i (before ++ x :: after) = i + Z.of_nat (length before).
Proof.
  revert i. induction before as [|y l IH]; intros i Hle Hx; cbn [scan_recovery app].
  - destruct (Qle_bool x high) eqn:E; cbn [negb length]; [|lia].
    apply Qle_bool_iff in E. lra.
  - destruct (Qle_bool y high) eqn:E; cbn [negb].
    + rewrite IH; [cbn [length]; lia | | done].
      intros y' Hy'. apply Hle. by apply list_elem_of_further.
    + assert (Hy : (y <= high)%Q) by apply Hle, list_elem_of_here.
      apply Qle_bool_iff in Hy. congruence.
Qed.

(** Without a crossing the scan keeps its initial [-1]. *)
Lemma scan_recovery_none (high : Q) (i : Z) (coralsol : list Q) :
  (∀ y, y ∈ coralsol → (y <= high)%Q) → scan_recovery high i coralsol = -1.
Proof.
  revert i. induction coralsol as [|y l IH]; intros i Hle; cbn [scan_recovery].
  - reflexivity.
  - assert (Hy : (y <= high)%Q) by apply Hle, list_elem_of_here.
    apply Qle_bool_iff in Hy. rewrite Hy. cbn [negb]. apply IH.
    intros y' Hy'. apply Hle. by apply list_elem_of_further.
Qed.

(** Whatever the solver returns, the result is never the [-1] that the
    callers compare it with. *)
Lemma get_coral_recovery_time_at_least_9
    (odeint : list Q → list Q → obj → py (list (list Q)))
    (junk : string → Z → Q)
    (self : obj) (t : list Q) (v : Z) :
  get_coral_recovery_time odeint junk self t = Ok v → 9 ≤ v.
Proof.
  unfold get_coral_recovery_time. cbv zeta. intros H.
  repeat match type of H with
         | context [mbind _ ?c] =>
           lazymatch c with
           | Ok _ => fail
           | Raise _ => fail
           | _ => destruct c; py_simpl_in H; try discriminate
           end
         end.
  injection H as <-.
  match goal with
  | |- 9 ≤ scan_recovery ?h ?i ?l + 10 =>
    destruct (scan_recovery_range h i l) as [-> | ?]; lia
  end.
Qed.

(** C3: with a trajectory that never exceeds the threshold,
    [get_coral_recovery_time] returns 9, not the [-1] its callers test;
    with a crossing at index 2 it returns 12. *)
Theorem recovery_time_sentinel_is_9 :
  get_coral_recovery_time frozen no_junk one_patch_BM [0; 1; 2]%Q = Ok 9
  ∧ get_coral_recovery_time
      (λ y0 t _, Ok ((λ x, [0.1; x; 0.1]%Q) <$> t)) no_junk one_patch_BM
      [0; 0.3; 0.6; 0.7]%Q = Ok 12.
Proof. split; vm_compute; reflexivity. Qed.

(** ** Bisection for the unstable equilibrium *)

Section Bisection.

Variable odeint : list Q → list Q → obj → py (list (list Q)).
Variables (self : obj) (t : list Q).

(** A recursive call moves one bound to the midpoint and resets the
    other one to the default of the signature. *)
Lemma fue_body_recurse (lowC highC : Q) (depth : Z) (lowC' highC' : Q)
    (depth' : Z) :
  fue_body odeint self t lowC highC depth = Ok (Recurse lowC' highC' depth') →
  depth ≤ 10 ∧ depth' = depth + 1
  ∧ (lowC' = midpoint_of lowC highC ∧ highC' = default_highC
     ∨ lowC' = default_lowC ∧ highC' = midpoint_of lowC highC).
Proof.
  unfold fue_body. cbv zeta. intros H.
  destruct (int_attr self "n"); py_simpl_in H; [|discriminate].
  destruct (odeint _ t self); py_simpl_in H; [|discriminate].
  destruct (Z.ltb_spec 10 depth); [discriminate|].
  destruct (getitem _ _); py_simpl_in H; [|discriminate].
  destruct (getitem _ _); py_simpl_in H; [|discriminate].
  destruct (negb _); [injection H as <- <- <-; auto|].
  destruct (negb _); [injection H as <- <- <-; auto | discriminate].
Qed.

(** Past the depth cutoff the midpoint is returned. *)
Lemma fue_body_cutoff (lowC highC : Q) (depth : Z) (a : activation) :
  10 < depth →
  fue_body odeint self t lowC highC depth = Ok a →
  a = Return (midpoint_of lowC highC).
Proof.
  unfold fue_body. cbv zeta. intros Hd H.
  destruct (int_attr self "n"); py_simpl_in H; [|discriminate].
  destruct (odeint _ t self); py_simpl_in H; [|discriminate].
  destruct (Z.ltb_spec 10 depth); [|lia]. by injection H as <-.
Qed.

(** The recursion ends within [12 - recursion_depth] activations: a
    deeper stack changes nothing. *)
Lemma fue_run_stack_irrelevant (stack stack' : nat) (lowC highC : Q)
    (depth : Z) :
  0 < Z.of_nat stack → 11 - depth < Z.of_nat stack →
  0 < Z.of_nat stack' → 11 - depth < Z.of_nat stack' →
  fue_run odeint stack self t lowC highC depth
  = fue_run odeint stack' self t lowC highC depth.
Proof.
  revert stack' lowC highC depth.
  induction stack as [|stack IH]; intros stack' lowC highC depth H0 Hs H0' Hs';
    [lia|].
  destruct stack' as [|stack']; [lia|]. cbn [fue_run].
  destruct (fue_body odeint self t lowC highC depth) as [a|e] eqn:E; [|done].
  py_simpl. destruct a as [v | lo hi d]; [done|].
  apply fue_body_recurse in E as (Hd & -> & _).
  apply IH; lia.
Qed.

End Bisection.

(** C2: started from [[0.1, 0.7]] on a model whose coral settles at 0.6,
    the search goes up twice to [[0.55, 0.7]] and then, going down, calls
    itself with the bracket [[0.1, 0.625]]: the width grows from 0.15 to
    0.525 instead of halving, and after 10 recursive calls the bracket is
    still wider than 0.6/1024.  The midpoint of the twelfth bracket is
    what the call returns. *)
Theorem bisection_bracket_not_halved :
  let brackets :=
    fue_brackets settled recursion_limit one_patch_BM [0; 1]%Q 0.1 0.7 0 in
  let width b := (b.2 - b.1)%Q in
  length brackets = 12%nat
  ∧ (∃ b, brackets !! 2%nat = Some b ∧ (b.1 == 0.55)%Q ∧ (b.2 == 0.7)%Q)
  ∧ (∃ b, brackets !! 3%nat = Some b ∧ (b.1 == 0.1)%Q ∧ (b.2 == 0.625)%Q)
  ∧ (∃ b, brackets !! 10%nat = Some b ∧ ¬ (width b <= 0.6 / 1024)%Q)
  ∧ (∃ b v, brackets !! 11%nat = Some b
            ∧ find_unstable_equilibrium settled one_patch_BM [0; 1]%Q 0.1 0.7 0
              = Ok v
            ∧ (v == midpoint_of b.1 b.2)%Q).
Proof.
  cbv zeta. split; [vm_compute; reflexivity|].
  split; [eexists; split; [vm_compute; reflexivity | by vm_compute]|].
  split; [eexists; split; [vm_compute; reflexivity | by vm_compute]|].
  split.
  - eexists; split; [vm_compute; reflexivity|]. vm_compute. intros H. by apply H.
  - eexists _, _. split; [vm_compute; reflexivity|].
    split; [vm_compute; reflexivity|]. by vm_compute.
Qed.

(** * Further properties *)

(** ** The rotation schedule *)

(** X3: with [closure_length = 0] nothing rotates: at every time the
    closed patches are the indices [0 .. m-1]. *)
Theorem periodic_zero_length_is_static (t closure_length : Q) (region m n : Z)
    (poaching : Q) :
  (closure_length == 0)%Q → m ≤ n →
  square_signal t closure_length region m n poaching "periodic"
  = if (0 <=? region) && (region <? m) then Ok (Some poaching)
    else Some <$> open_signal m n poaching.
Proof.
  intros Hcl Hm. unfold square_signal.
  change (String.eqb "periodic" "periodic") with true. cbv iota.
  unfold start_region. apply Qeq_bool_iff in Hcl. rewrite Hcl. cbn [negb].
  py_simpl. unfold end_region.
  destruct (Z.leb_spec n (0 + m - 1)); [lia|]. py_simpl.
  destruct (Z.leb_spec 0 region), (Z.leb_spec region (0 + m - 1)),
    (Z.ltb_spec region m); cbn [andb orb]; try lia; reflexivity.
Qed.

Lemma periodic_zero_length_is_static_witness :
  square_signal 7 0 1 2 4 0.1 "periodic"
  = if (0 <=? 1) && (1 <? 2) then Ok (Some 0.1%Q)
    else Some <$> open_signal 2 4 0.1.
Proof. apply periodic_zero_length_is_static; [reflexivity | lia]. Defined.

(** ** Range and failures of the forcing function *)

(** X5: with no patches at all, [n = 0], the periodic signal raises
    [ZeroDivisionError] for every other argument. *)
Theorem periodic_no_patches_raises (t closure_length : Q) (region m : Z)
    (poaching : Q) :
  square_signal t closure_length region m 0 poaching "periodic"
  = Raise ZeroDivisionError.
Proof.
  unfold square_signal.
  change (String.eqb "periodic" "periodic") with true. cbv iota.
  unfold start_region.
  destruct (Qeq_bool closure_length 0) eqn:Ecl; cbn [negb].
  - py_simpl. unfold end_region, py_mod.
    destruct (Z.leb_spec 0 (0 + m - 1)); [reflexivity|]. py_simpl.
    destruct (Z.leb_spec 0 region), (Z.leb_spec region (0 + m - 1));
      cbn [andb orb]; try lia; reflexivity.
  - unfold py_fmod.
    assert (H0 : Qeq_bool (inject_Z 0 * closure_length) 0 = true).
    { apply Qeq_bool_iff. change (inject_Z 0) with 0%Q. ring. }
    by rewrite H0.
Qed.

(** ** A mistyped strategy *)

Lemma square_signal_unknown (t closure_length : Q) (region m n : Z)
    (poaching : Q) (mgmt_strat : string) :
  mgmt_strat ≠ "periodic" → mgmt_strat ≠ "MPA" →
  square_signal t closure_length region m n poaching mgmt_strat = Ok None.
Proof.
  intros H1 H2. unfold square_signal.
  apply String.eqb_neq in H1, H2. by rewrite H1, H2.
Qed.

Lemma model_signal_unknown (t : Q) (i : Z) (system_model : obj) (v : Q) :
  unknown_strategy system_model → model_signal t i system_model ≠ Ok v.
Proof.
  intros (s & Hs & H1 & H2) H. unfold model_signal in H.
  assert (Hg : getattr system_model "mgmt_strat" = Ok s)
    by (unfold getattr; by rewrite Hs).
  rewrite Hg in H.
  repeat match type of H with
         | context [mbind _ ?c] =>
           lazymatch c with
           | Ok _ => fail
           | Raise _ => fail
           | _ => destruct c; py_simpl_in H; try discriminate
           end
         end.
  unfold multiplier in H. by rewrite square_signal_unknown in H.
Qed.

Ltac stop_at_signal H :=
  repeat match type of H with
         | context [mbind _ ?c] =>
           lazymatch c with
           | Ok _ => fail
           | Raise _ => fail
           | model_signal _ _ _ =>
             let E := fresh "E" in
             destruct c eqn:E; [by eapply model_signal_unknown in E|];
             py_simpl_in H; try discriminate
           | _ => destruct c; py_simpl_in H; try discriminate
           end
         | match ?rows with [] => _ | _ :: _ => _ end = _ =>
           destruct rows; try discriminate
         end.

Lemma leemput_unknown (X : list Q) (t : Q) (i : Z) (system_model : obj)
    (P_influx results : list Q) :
  unknown_strategy system_model →
  leemput X t i system_model P_influx ≠ Ok results.
Proof. intros Hu H. unfold leemput in H. stop_at_signal H. Qed.

Lemma blackwood_unknown (X : list Q) (t : Q) (i : Z) (system_model : obj)
    (P_influx results : list Q) :
  unknown_strategy system_model →
  blackwood X t i system_model P_influx ≠ Ok results.
Proof. intros Hu H. unfold blackwood in H. stop_at_signal H. Qed.

Lemma rass_briggs_unknown (X : list Q) (t : Q) (i : Z) (system_model : obj)
    (P_influx results : list Q) :
  unknown_strategy system_model →
  rass_briggs X t i system_model P_influx ≠ Ok results.
Proof. intros Hu H. unfold rass_briggs in H. stop_at_signal H. Qed.

Lemma silent_reading {A} (f : obj → py A) : silent (reading f).
Proof. by intros σ. Qed.

Lemma silent_for {A} (l : list Z) (body : Z → A → cmd A) (a : A) :
  (∀ i a, silent (body i a)) → silent (for_ l body a).
Proof.
  intros Hb. revert a. induction l as [|i l IH]; intros a σ; cbn [for_]; [done|].
  unfold mbind, cmd_bind. pose proof (Hb i a σ) as Hi.
  destruct (body i a σ) as [[a'|e] σ1]; cbn [snd] in Hi; subst σ1; [apply IH | done].
Qed.

Lemma cmd_bind_run {A B} (c : cmd A) (k : A → cmd B) (σ : state) :
  (c ≫= k) σ = match c σ with
               | (Ok a, σ') => k a σ'
               | (Raise e, σ') => (Raise e, σ')
               end.
Proof. reflexivity. Qed.

Lemma range_first (n : Z) : 1 ≤ n → ∃ rest, range n = 0 :: rest.
Proof.
  intros Hn. unfold range.
  destruct (Z.to_nat n) as [|k] eqn:E; [lia|]. cbn [seq fmap list_fmap].
  eauto.
Qed.

Lemma patch_step_unknown (X : list Q) (t : Q) (i : Z) (P_influx : list Q)
    (σ : state) (P_influx' : list Q) :
  unknown_strategy (model σ) →
  (patch_step X t i P_influx σ).1 ≠ Ok P_influx'.
Proof.
  intros Hu H. unfold patch_step in H.
  unfold mbind at 1, cmd_bind at 1, reading at 1 in H.
  destruct (int_attr (model σ) "n") as [n|]; [|done].
  unfold mbind at 1, cmd_bind at 1 in H.
  pose proof (silent_for (range n) (add_influx X i) P_influx
                (λ j P, silent_reading _) σ) as Hs.
  destruct (for_ (range n) (add_influx X i) P_influx σ) as [[P|e] σ1];
    cbn [snd] in Hs; subst σ1; [|done].
  unfold mbind at 1, cmd_bind at 1, reading at 1 in H.
  destruct (getattr (model σ) "model_type") as [mt|]; [|done].
  unfold mbind at 1, cmd_bind at 1 in H.
  repeat match type of H with
         | context [if ?b then _ else _] => destruct b
         end;
    unfold mbind, cmd_bind, reading, print in H; cbn [model] in H;
    match type of H with
    | context [rass_briggs ?a ?b ?c ?d ?e] =>
      pose proof (rass_briggs_unknown a b c d e) as Hk;
      destruct (rass_briggs a b c d e); [by eapply Hk | done]
    | context [blackwood ?a ?b ?c ?d ?e] =>
      pose proof (blackwood_unknown a b c d e) as Hk;
      destruct (blackwood a b c d e); [by eapply Hk | done]
    | context [leemput ?a ?b ?c ?d ?e] =>
      pose proof (leemput_unknown a b c d e) as Hk;
      destruct (leemput a b c d e); [by eapply Hk | done]
    end.
Qed.

Lemma patch_system_unknown_not_Ok (X : list Q) (t : Q) (σ : state)
    (n : Z) (dX : list Q) :
  model σ !! "n" = Some (VInt n) → 1 ≤ n →
  unknown_strategy (model σ) →
  (patch_system X t σ).1 ≠ Ok dX.
Proof.
  intros Hn H1 Hu H.
  assert (Hint : int_attr (model σ) "n" = Ok n).
  { unfold int_attr, getattr. by rewrite Hn. }
  destruct (range_first n H1) as [rest Hr].
  unfold patch_system, patch_loop in H.
  rewrite !cmd_bind_run in H. unfold reading at 1 in H.
  rewrite Hint, Hr in H. cbn [for_] in H. rewrite cmd_bind_run in H.
  pose proof (patch_step_unknown X t 0 (times 0%Q n) σ) as Hstep.
  destruct (patch_step X t 0 (times 0%Q n) σ) as [[P|e] σ1]; [|done].
  by eapply Hstep.
Qed.

(** X6: with a strategy tag other than ['periodic'] and ['MPA'] the
    forcing function returns [None], so on a model of at least one patch
    the patch system never returns a derivative: every evaluation ends in
    an exception. *)
Theorem patch_system_unknown_strategy (X : list Q) (t : Q) (σ : state)
    (n : Z) :
  model σ !! "n" = Some (VInt n) → 1 ≤ n →
  unknown_strategy (model σ) →
  ∃ e, (patch_system X t σ).1 = Raise e.
Proof.
  intros Hn H1 Hu.
  destruct (patch_system X t σ).1 as [dX|e] eqn:E; [|eauto].
  by apply (patch_system_unknown_not_Ok X t σ n dX) in E.
Qed.

Lemma patch_system_unknown_strategy_witness :
  ∃ e, (patch_system sample_X 0
          (State (<["mgmt_strat" := VStr "rotational"]> sample_BM) [])).1
       = Raise e.
Proof.
  apply (patch_system_unknown_strategy sample_X 0 _ 2).
  - by vm_compute.
  - lia.
  - exists (VStr "rotational"). split; [apply lookup_insert_eq|].
    split; discriminate.
Defined.

(** ** Initialisation: failures, dispersal and presets *)

Lemma Model_getattr (model_type n frac_nomove mgmt_strat : value) :
  getattr (Model model_type n frac_nomove mgmt_strat) "model_type" = Ok model_type
  ∧ getattr (Model model_type n frac_nomove mgmt_strat) "n" = Ok n
  ∧ getattr (Model model_type n frac_nomove mgmt_strat) "frac_nomove"
    = Ok frac_nomove
  ∧ getattr (Model model_type n frac_nomove mgmt_strat) "mgmt_strat"
    = Ok mgmt_strat.
Proof. unfold getattr, Model. repeat split; by lookups. Qed.

(** X7: a model without patches cannot be initialised: [n = 0] raises
    [ZeroDivisionError] (from [1/n]) and a negative [n] raises
    [ValueError] (from [np.empty]), for every model family. *)
Theorem initialize_patch_model_needs_patches (junk : string → Z → Q)
    (model_type frac_nomove mgmt_strat : value) (n : Z) (q : Q)
    (P0 C0L C0H M0L M0H M0iL M0iH : value) :
  n ≤ 0 → as_num frac_nomove = Ok q →
  initialize_patch_model junk
    (Model model_type (VInt n) frac_nomove mgmt_strat)
    P0 C0L C0H M0L M0H M0iL M0iH
  = Raise (if n =? 0 then ZeroDivisionError else ValueError).
Proof.
  intros Hn Hq.
  destruct (Model_getattr model_type (VInt n) frac_nomove mgmt_strat)
    as (Ht & Hgn & Hf & _).
  assert (Hsetup : dispersal_setup (Model model_type (VInt n) frac_nomove mgmt_strat)
                   = Raise (if n =? 0 then ZeroDivisionError else ValueError)).
  { unfold dispersal_setup, num_attr, int_attr. rewrite Hf, Hgn. py_simpl.
    rewrite Hq. py_simpl. cbn [as_int]. py_simpl. unfold py_truediv.
    destruct (Z.eqb_spec n 0); [done|]. py_simpl.
    destruct (Z.ltb_spec n 0); [done | lia]. }
  unfold initialize_patch_model, RB_initialize_patch_model.
  rewrite Ht. py_simpl. rewrite !Hsetup. by destruct (str_eq model_type "RB").
Qed.

Lemma initialize_patch_model_needs_patches_witness :
  initialize_patch_model no_junk
    (Model (VStr "BM") (VInt 0) (VFloat 0.95) (VStr "periodic"))
    (VFloat 0.1) (VFloat 0.04) (VFloat 0.4) (VFloat 0.04) (VFloat 0.4)
    VNone VNone
  = Raise (if 0 =? 0 then ZeroDivisionError else ValueError).
Proof.
  apply (initialize_patch_model_needs_patches _ _ _ _ 0 0.95); [lia | reflexivity].
Defined.

(** The influx list of an initialised model, in closed form. *)
Lemma P_influx_of_ready (n : Z) (frac_dispersed : Q) (X : list Q)
    (system_model : obj) :
  0 ≤ n → n ≤ Z.of_nat (length X) →
  dispersal_ready n frac_dispersed (State system_model []) →
  P_influx_of X system_model
  = Ok ((λ i, influx_from n frac_dispersed X i 0%Q (range n)) <$> range n).
Proof.
  intros Hn HX Hready. pose proof Hready as [Hsn _]. cbn [model] in Hsn.
  unfold P_influx_of, influx_loop. rewrite cmd_bind_run. unfold reading at 1.
  cbn [model]. unfold int_attr, getattr. rewrite Hsn. py_simpl. cbn [as_int].
  rewrite (influx_outer n frac_dispersed X HX); try done.
  - cbn [fst]. f_equal. by apply influx_all.
  - intros i Hi. by apply elem_of_range.
  - unfold times. rewrite length_replicate. lia.
Qed.

Lemma Qsum_const (c : Q) (l : list Z) :
  (Qsum ((λ _, c) <$> l) == c * inject_Z (Z.of_nat (length l)))%Q.
Proof.
  rewrite (Qsum_fmap_ext _ (λ r, c * (λ _, 1) r + 0 * (λ _, 0) r)%Q)
    by (intros; ring).
  rewrite Qsum_affine, Qsum_ones. ring.
Qed.

(** X9: without movement, [frac_nomove = 1], the dispersal matrix is
    zero and every [P_influx[i]] is zero, whatever the state. *)
Theorem no_movement_has_no_influx (junk : string → Z → Q)
    (model_type frac_nomove mgmt_strat : value) (n : Z) (q : Q)
    (P0 C0L C0H M0L M0H M0iL M0iH : value) (X : list Q) :
  1 ≤ n → as_num frac_nomove = Ok q → (q == 1)%Q →
  n ≤ Z.of_nat (length X) →
  ∃ system_model kP P_influx,
    initialize_patch_model junk
      (Model model_type (VInt n) frac_nomove mgmt_strat)
      P0 C0L C0H M0L M0H M0iL M0iH = Ok system_model
    ∧ system_model !! "kP" = Some (VMatrix kP)
    ∧ (∀ row v, row ∈ kP → v ∈ row → (v == 0)%Q)
    ∧ P_influx_of X system_model = Ok P_influx
    ∧ Z.of_nat (length P_influx) = n
    ∧ ∀ v, v ∈ P_influx → (v == 0)%Q.
Proof.
  intros Hn Hq Hq1 HX.
  destruct (initialize_patch_model_ready junk model_type frac_nomove mgmt_strat
              n q P0 C0L C0H M0L M0H M0iL M0iH Hn Hq) as (sm & Hinit & Hsn & HkP).
  set (fd := ((1 - q) * (inject_Z 1 / inject_Z n))%Q) in *.
  assert (Hfd : (fd == 0)%Q) by (unfold fd; rewrite Hq1; ring).
  exists sm, (build_kP n fd),
    ((λ i, influx_from n fd X i 0%Q (range n)) <$> range n).
  split; [done|]. split; [done|]. split; [|split; [|split]].
  - intros row v Hrow Hv. unfold build_kP in Hrow.
    apply list_elem_of_fmap in Hrow as (i & -> & Hi).
    apply list_elem_of_fmap in Hv as (j & -> & Hj).
    destruct (i =? j); rewrite Hfd; ring.
  - apply P_influx_of_ready; [lia | done | by split].
  - rewrite length_fmap, length_range. lia.
  - intros v Hv. apply list_elem_of_fmap in Hv as (i & -> & Hi).
    apply elem_of_range in Hi. rewrite influx_from_sum by done.
    rewrite Hfd. ring.
Qed.

Lemma no_movement_has_no_influx_witness :
  ∃ system_model kP P_influx,
    initialize_patch_model no_junk
      (Model (VStr "BM") (VInt 2) (VInt 1) (VStr "MPA"))
      (VFloat 0.1) (VFloat 0.04) (VFloat 0.4) (VFloat 0.04) (VFloat 0.4)
      VNone VNone = Ok system_model
    ∧ system_model !! "kP" = Some (VMatrix kP)
    ∧ (∀ row v, row ∈ kP → v ∈ row → (v == 0)%Q)
    ∧ P_influx_of [0.3; 0.7; 0.5; 0.6; 0.1; 0.2]%Q system_model = Ok P_influx
    ∧ Z.of_nat (length P_influx) = 2
    ∧ ∀ v, v ∈ P_influx → (v == 0)%Q.
Proof.
  apply (no_movement_has_no_influx _ _ _ _ 2 1);
    [lia | reflexivity | reflexivity | cbn; lia].
Defined.

(** ** The presets and the layout of the state vector *)

Lemma mapM_app_Ok {A B} (f : A → py B) (l1 l2 : list A) (r1 r2 : list B) :
  mapM f l1 = Ok r1 → mapM f l2 = Ok r2 → mapM f (l1 ++ l2) = Ok (r1 ++ r2).
Proof.
  revert r1. induction l1 as [|x l1 IH]; intros r1 H1 H2.
  - injection H1 as <-. exact H2.
  - cbn [mapM app] in *. destruct (f x) as [y|]; [|done]. py_simpl_in H1. py_simpl.
    change (mapM f l1 ≫= (λ k, mret (y :: k)) = Ok r1) in H1.
    change (mapM f (l1 ++ l2) ≫= (λ k, mret (y :: k)) = Ok (r1 ++ r2)).
    destruct (mapM f l1) as [k|]; [|done]. injection H1 as <-.
    by rewrite (IH k).
Qed.

Lemma mapM_times (v : value) (q : Q) (n : Z) :
  as_num v = Ok q → mapM as_num (times v n) = Ok (times q n).
Proof.
  intros Hv. unfold times. induction (Z.to_nat n) as [|k IH]; [done|].
  cbn [replicate mapM]. rewrite Hv. py_simpl.
  change (mapM as_num (replicate k v) ≫= (λ l, mret (q :: l))
          = Ok (q :: replicate k q)).
  by rewrite IH.
Qed.

Lemma length_times {A} (x : A) (n : Z) : 0 ≤ n → Z.of_nat (length (times x n)) = n.
Proof. intros Hn. unfold times. rewrite length_replicate. lia. Qed.

(** Rows of equal length, laid end to end, come back from [reshape]. *)
Lemma reshape_3_app (n : Z) (P C M : list Q) :
  0 ≤ n → Z.of_nat (length P) = n → Z.of_nat (length C) = n →
  Z.of_nat (length M) = n →
  reshape 3 n (P ++ C ++ M) = Ok [P; C; M].
Proof.
  intros Hn HP HC HM. unfold reshape. rewrite !length_app.
  destruct (Z.leb_spec 0 n); [|lia].
  destruct (Z.eqb_spec (Z.of_nat (length P + (length C + length M)))
              (Z.of_nat 3 * n)); [|lia].
  cbn [andb fmap list_fmap seq]. do 2 f_equal; [|f_equal; [|f_equal]].
  - rewrite Nat.mul_0_l, drop_0. apply take_app_length'. lia.
  - rewrite Nat.mul_1_l, drop_app_length' by lia. apply take_app_length'. lia.
  - rewrite app_assoc, drop_app_length' by (rewrite length_app; lia).
    apply firstn_all2. lia.
Qed.

Lemma reshape_4_app (n : Z) (P C M1 M2 : list Q) :
  0 ≤ n → Z.of_nat (length P) = n → Z.of_nat (length C) = n →
  Z.of_nat (length M1) = n → Z.of_nat (length M2) = n →
  reshape 4 n (P ++ C ++ M1 ++ M2) = Ok [P; C; M1; M2].
Proof.
  intros Hn HP HC HM1 HM2. unfold reshape. rewrite !length_app.
  destruct (Z.leb_spec 0 n); [|lia].
  destruct (Z.eqb_spec
              (Z.of_nat (length P + (length C + (length M1 + length M2))))
              (Z.of_nat 4 * n)); [|lia].
  cbn [andb fmap list_fmap seq]. do 2 f_equal; [|f_equal; [|f_equal; [|f_equal]]].
  - rewrite Nat.mul_0_l, drop_0. apply take_app_length'. lia.
  - rewrite Nat.mul_1_l, drop_app_length' by lia. apply take_app_length'. lia.
  - rewrite app_assoc, drop_app_length' by (rewrite length_app; lia).
    apply take_app_length'. lia.
  - rewrite (app_assoc C), app_assoc, drop_app_length'
      by (rewrite !length_app; lia).
    apply firstn_all2. lia.
Qed.

Lemma dispersal_setup_Model (model_type frac_nomove mgmt_strat : value)
    (n : Z) (q : Q) :
  1 ≤ n → as_num frac_nomove = Ok q →
  let self := Model model_type (VInt n) frac_nomove mgmt_strat in
  let kP := VMatrix (build_kP n ((1 - q) * (inject_Z 1 / inject_Z n))%Q) in
  dispersal_setup self = Ok (<["kP" := kP]> self)
  ∧ int_attr (<["kP" := kP]> self) "n" = Ok n.
Proof.
  intros Hn Hq. cbv zeta.
  destruct (Model_getattr model_type (VInt n) frac_nomove mgmt_strat)
    as (_ & Hgn & Hf & _).
  split.
  - unfold dispersal_setup, num_attr, int_attr. rewrite Hf, Hgn.
    py_simpl. rewrite Hq. py_simpl. cbn [as_int]. py_simpl. unfold py_truediv.
    destruct (Z.eqb_spec n 0); [lia|]. py_simpl.
    destruct (Z.ltb_spec n 0); [lia|]. reflexivity.
  - unfold int_attr, getattr. rewrite lookup_insert_ne by done.
    unfold getattr in Hgn.
    by destruct (Model model_type (VInt n) frac_nomove mgmt_strat !! "n")
      as [vn|]; [injection Hgn as ->|].
Qed.

(** X10: the presets have the layout the kernels read back: for a
    family other than ['RB'], [X1] is [n] copies of [P0], then of [C0L],
    then of [M0H], and [reshape] splits it into exactly these three rows;
    [X2] likewise with [C0H] and [M0L]. *)
Theorem presets_split_into_rows (junk : string → Z → Q)
    (model_type frac_nomove mgmt_strat : value) (n : Z) (q : Q)
    (P0 C0L C0H M0L M0H M0iL M0iH : value) (p0 c0l c0h m0l m0h : Q) :
  1 ≤ n → as_num frac_nomove = Ok q → str_eq model_type "RB" = false →
  as_num P0 = Ok p0 → as_num C0L = Ok c0l → as_num C0H = Ok c0h →
  as_num M0L = Ok m0l → as_num M0H = Ok m0h →
  ∃ system_model X1 X2,
    initialize_patch_model junk
      (Model model_type (VInt n) frac_nomove mgmt_strat)
      P0 C0L C0H M0L M0H M0iL M0iH = Ok system_model
    ∧ getattr system_model "X1" ≫= as_floats = Ok X1
    ∧ getattr system_model "X2" ≫= as_floats = Ok X2
    ∧ reshape 3 n X1 = Ok [times p0 n; times c0l n; times m0h n]
    ∧ reshape 3 n X2 = Ok [times p0 n; times c0h n; times m0l n].
Proof.
  intros Hn Hq HRB HP0 HC0L HC0H HM0L HM0H.
  destruct (Model_getattr model_type (VInt n) frac_nomove mgmt_strat)
    as (Ht & _).
  destruct (dispersal_setup_Model model_type frac_nomove mgmt_strat n q Hn Hq)
    as [Hsetup Hint].
  unfold initialize_patch_model. rewrite Ht. py_simpl. rewrite HRB, Hsetup.
  py_simpl. rewrite Hint. py_simpl.
  eexists _, (times p0 n ++ times c0l n ++ times m0h n),
    (times p0 n ++ times c0h n ++ times m0l n).
  split; [reflexivity|].
  unfold getattr. lookups. py_simpl. cbn [as_floats].
  repeat split.
  - repeat apply mapM_app_Ok; by apply mapM_times.
  - repeat apply mapM_app_Ok; by apply mapM_times.
  - apply reshape_3_app; try apply length_times; lia.
  - apply reshape_3_app; try apply length_times; lia.
Qed.

Lemma presets_split_into_rows_witness :
  ∃ system_model X1 X2,
    initialize_patch_model no_junk
      (Model (VStr "vdL") (VInt 2) (VFloat 0.95) (VStr "periodic"))
      (VFloat 0.1) (VFloat 0.04) (VFloat 0.4) (VFloat 0.04) (VFloat 0.4)
      VNone VNone = Ok system_model
    ∧ getattr system_model "X1" ≫= as_floats = Ok X1
    ∧ getattr system_model "X2" ≫= as_floats = Ok X2
    ∧ reshape 3 2 X1 = Ok [times 0.1 2; times 0.04 2; times 0.4 2]%Q
    ∧ reshape 3 2 X2 = Ok [times 0.1 2; times 0.4 2; times 0.04 2]%Q.
Proof.
  apply (presets_split_into_rows _ _ _ _ 2 0.95); (lia || reflexivity).
Defined.

(** ** Parameters *)

Lemma setattrs_cons (self : obj) (k : string) (v : value)
    (params : list (string * value)) :
  setattrs self ((k, v) :: params) = setattrs (<[k := v]> self) params.
Proof. reflexivity. Qed.

Lemma setattrs_other (self : obj) (params : list (string * value))
    (name : string) :
  name ∉ params.*1 → setattrs self params !! name = self !! name.
Proof.
  revert self. induction params as [|[k v] params IH]; intros self Hname; [done|].
  rewrite setattrs_cons, IH.
  - apply lookup_insert_ne. intros ->. apply Hname. cbn. apply list_elem_of_here.
  - intros H. apply Hname. cbn. by apply list_elem_of_further.
Qed.

Lemma setattrs_lookup (self : obj) (params : list (string * value))
    (k : string) (v : value) :
  NoDup params.*1 → (k, v) ∈ params → setattrs self params !! k = Some v.
Proof.
  revert self. induction params as [|[k' v'] params IH]; intros self Hnd Hin.
  - by apply elem_of_nil in Hin.
  - cbn in Hnd. apply NoDup_cons in Hnd as [Hk' Hnd].
    rewrite setattrs_cons. apply elem_of_cons in Hin as [[= -> ->] | Hin].
    + rewrite setattrs_other by done. apply lookup_insert_eq.
    + by apply IH.
Qed.

Lemma parameter_table_keys (model_type fish_growth_rate : value)
    (params : list (string * value)) :
  parameter_table model_type fish_growth_rate = Ok params →
  NoDup params.*1 ∧ ∀ name, name ∈ structure_names → name ∉ params.*1.
Proof.
  unfold parameter_table. intros H.
  repeat match type of H with
         | (if ?b then _ else _) = _ => destruct b
         end;
    try discriminate; injection H as <-;
    (split; [by apply (bool_decide_unpack _); vm_compute |]);
    apply Forall_forall; by apply (bool_decide_unpack _); vm_compute.
Qed.

Lemma load_parameters_Ok (self z : obj) (fish_growth_rate : value) :
  load_parameters self fish_growth_rate = Ok z →
  ∃ model_type params,
    self !! "model_type" = Some model_type
    ∧ parameter_table model_type fish_growth_rate = Ok params
    ∧ z = setattrs self params.
Proof.
  unfold load_parameters, getattr. intros H.
  destruct (self !! "model_type") as [mt|] eqn:Hmt; [|done]. py_simpl_in H.
  destruct (parameter_table mt fish_growth_rate) as [params|] eqn:Ht; [|done].
  injection H as <-. by exists mt, params.
Qed.

Lemma load_parameters_keeps (self z : obj) (fish_growth_rate : value)
    (name : string) :
  load_parameters self fish_growth_rate = Ok z →
  name ∈ structure_names → z !! name = self !! name.
Proof.
  intros H Hname.
  apply load_parameters_Ok in H as (mt & params & _ & Ht & ->).
  apply setattrs_other. by apply (parameter_table_keys _ _ _ Ht).
Qed.

(** X11: [load_parameters] gives every name of the family's table its
    table value and leaves alone every attribute owned by the constructor,
    the initialiser and the management setter ([n], [kP], [f], [m],
    [closure_length], [poaching], the buffers, the presets, ...): no
    parameter name collides with them, so the set-up calls commute. *)
Theorem load_parameters_sets_table (self z : obj) (fish_growth_rate : value) :
  load_parameters self fish_growth_rate = Ok z →
  ∃ model_type params,
    self !! "model_type" = Some model_type
    ∧ parameter_table model_type fish_growth_rate = Ok params
    ∧ (∀ k v, (k, v) ∈ params → z !! k = Some v)
    ∧ (∀ name, name ∈ structure_names → z !! name = self !! name).
Proof.
  intros H. apply load_parameters_Ok in H as (mt & params & Hmt & Ht & ->).
  exists mt, params.
  destruct (parameter_table_keys _ _ _ Ht) as [Hnd Hdisj].
  repeat split; try done.
  - intros k v Hin. by apply setattrs_lookup.
  - intros name Hname. apply setattrs_other. by apply Hdisj.
Qed.

Lemma load_parameters_sets_table_witness :
  ∃ model_type params,
    Model (VStr "BM") (VInt 2) (VFloat 0.95) (VStr "periodic") !! "model_type"
    = Some model_type
    ∧ parameter_table model_type (VInt 1) = Ok params
    ∧ (∀ k v, (k, v) ∈ params → setattrs
         (Model (VStr "BM") (VInt 2) (VFloat 0.95) (VStr "periodic"))
         [("gamma", VFloat 0.8); ("beta", VInt 1); ("alpha", VInt 1);
          ("s", VInt 1); ("r", VInt 1); ("d", VFloat 0.44);
          ("a", VFloat 0.1); ("i_C", VFloat 0.05); ("i_M", VFloat 0.05)]
         !! k = Some v)
    ∧ (∀ name, name ∈ structure_names →
         setattrs
           (Model (VStr "BM") (VInt 2) (VFloat 0.95) (VStr "periodic"))
           [("gamma", VFloat 0.8); ("beta", VInt 1); ("alpha", VInt 1);
            ("s", VInt 1); ("r", VInt 1); ("d", VFloat 0.44);
            ("a", VFloat 0.1); ("i_C", VFloat 0.05); ("i_M", VFloat 0.05)]
           !! name
         = Model (VStr "BM") (VInt 2) (VFloat 0.95) (VStr "periodic") !! name).
Proof.
  apply (load_parameters_sets_table _ _ (VInt 1)). reflexivity.
Defined.

Lemma dispersal_setup_keeps (self z : obj) (name : string) :
  dispersal_setup self = Ok z → name ≠ "kP" → z !! name = self !! name.
Proof.
  unfold dispersal_setup. intros H Hname.
  repeat match type of H with
         | context [mbind _ ?c] =>
           lazymatch c with
           | Ok _ => fail
           | Raise _ => fail
           | _ => destruct c; py_simpl_in H; try discriminate
           end
         | context [if ?b then _ else _] => destruct b; try discriminate
         end.
  injection H as <-. by apply lookup_insert_ne.
Qed.

(** What the initialiser leaves as the constructor set it. *)
Lemma initialize_patch_model_keeps (junk : string → Z → Q) (self z : obj)
    (P0 C0L C0H M0L M0H M0iL M0iH : value) (name : string) :
  initialize_patch_model junk self P0 C0L C0H M0L M0H M0iL M0iH = Ok z →
  name ∈ ["model_type"; "n"; "frac_nomove"; "mgmt_strat"; "f";
          "closure_length"; "m"; "poaching"] →
  z !! name = self !! name.
Proof.
  intros H Hname.
  unfold initialize_patch_model, RB_initialize_patch_model in H.
  destruct (getattr self "model_type") as [mt|]; [|done]. py_simpl_in H.
  assert (Hfin : ∃ z0 n,
             dispersal_setup self = Ok z0
             ∧ (z = <["X2" := VList (times P0 n ++ times C0H n ++ times M0L n
                                     ++ times M0iL n)]> (
                    <["X1" := VList (times P0 n ++ times C0L n ++ times M0H n
                                     ++ times M0iH n)]> (
                    <["dMvs" := VArray (np_empty (junk "dMvs") n)]> (
                    <["dMis" := VArray (np_empty (junk "dMis") n)]> (
                    <["dCs" := VArray (np_empty (junk "dCs") n)]> (
                    <["dPs" := VArray (np_empty (junk "dPs") n)]> (
                    <["Mv" := VArray (np_empty (junk "Mv") n)]> (
                    <["Mi" := VArray (np_empty (junk "Mi") n)]> (
                    <["C" := VArray (np_empty (junk "C") n)]> (
                    <["P" := VArray (np_empty (junk "P") n)]> z0)))))))))
                ∨ z = <["X2" := VList (times P0 n ++ times C0H n ++ times M0L n)]> (
                      <["X1" := VList (times P0 n ++ times C0L n ++ times M0H n)]> (
                      <["dMs" := VArray (np_empty (junk "dMs") n)]> (
                      <["dCs" := VArray (np_empty (junk "dCs") n)]> (
                      <["dPs" := VArray (np_empty (junk "dPs") n)]> (
                      <["M" := VArray (np_empty (junk "M") n)]> (
                      <["C" := VArray (np_empty (junk "C") n)]> (
                      <["P" := VArray (np_zeros n)]> z0))))))))).
  { destruct (dispersal_setup self) as [z0|]; py_simpl_in H;
      [|by destruct (str_eq mt "RB")].
    destruct (int_attr z0 "n") as [n|]; py_simpl_in H;
      [|by destruct (str_eq mt "RB")].
    exists z0, n. split; [done|].
    destruct (str_eq mt "RB"); injection H as <-; auto. }
  destruct Hfin as (z0 & n & Hsetup & Hz).
  assert (Hz0 : z0 !! name = self !! name).
  { apply (dispersal_setup_keeps _ _ _ Hsetup). intros ->.
    repeat (apply elem_of_cons in Hname as [Hname|Hname]; [discriminate|]).
    by apply elem_of_nil in Hname. }
  rewrite <- Hz0.
  repeat (apply elem_of_cons in Hname as [-> | Hname];
          [destruct Hz as [-> | ->]; by lookups|]).
  by apply elem_of_nil in Hname.
Qed.

(** X12: the usual set-up cannot produce a model of an unrecognised
    family: after [__init__] and [initialize_patch_model],
    [load_parameters] raises [UnboundLocalError] for every tag outside the
    six, so the Blackwood-Mumby fallback of the patch system is out of its
    reach. *)
Theorem load_parameters_rejects_unknown (junk : string → Z → Q)
    (model_type frac_nomove mgmt_strat fish_growth_rate : value)
    (n : Z) (q : Q) (P0 C0L C0H M0L M0H M0iL M0iH : value) :
  1 ≤ n → as_num frac_nomove = Ok q → recognized model_type = false →
  (z ← initialize_patch_model junk
         (Model model_type (VInt n) frac_nomove mgmt_strat)
         P0 C0L C0H M0L M0H M0iL M0iH;
   load_parameters z fish_growth_rate)
  = Raise UnboundLocalError.
Proof.
  intros Hn Hq Hu.
  destruct (initialize_patch_model_ready junk model_type frac_nomove mgmt_strat
              n q P0 C0L C0H M0L M0H M0iL M0iH Hn Hq) as (z & Hinit & _).
  rewrite Hinit. py_simpl.
  assert (Ht : z !! "model_type" = Some model_type).
  { rewrite (initialize_patch_model_keeps _ _ _ _ _ _ _ _ _ _ "model_type" Hinit).
    - unfold Model. by lookups.
    - apply list_elem_of_here. }
  unfold load_parameters, getattr. rewrite Ht. py_simpl.
  unfold recognized in Hu.
  repeat (apply orb_false_elim in Hu; destruct Hu as [Hu ?]).
  unfold parameter_table.
  repeat match goal with H : str_eq model_type _ = false |- _ =>
           rewrite H; clear H end.
  reflexivity.
Qed.

Lemma load_parameters_rejects_unknown_witness :
  (z ← initialize_patch_model no_junk
         (Model (VStr "xyz") (VInt 2) (VFloat 0.95) (VStr "periodic"))
         (VFloat 0.1) (VFloat 0.04) (VFloat 0.4) (VFloat 0.04) (VFloat 0.4)
         VNone VNone;
   load_parameters z (VInt 1))
  = Raise UnboundLocalError.
Proof.
  apply (load_parameters_rejects_unknown _ _ _ _ _ 2 0.95);
    [lia | reflexivity | reflexivity].
Defined.

(** ** Kernels find their parameters *)

Lemma finds_bind {A B} (c : py A) (k : A → py B) :
  finds_attributes c → (∀ a, finds_attributes (k a)) →
  finds_attributes (c ≫= k).
Proof.
  intros Hc Hk name. destruct c as [a|e]; py_simpl; [apply Hk|].
  intros [= ->]. by apply (Hc name).
Qed.

Lemma finds_Ok {A} (a : A) : finds_attributes (Ok a).
Proof. by intros name. Qed.

Lemma finds_fmap {A B} (f : A → B) (c : py A) :
  finds_attributes c → finds_attributes (f <$> c).
Proof.
  intros Hc name. destruct c as [a|e]; [done|].
  intros [= ->]. by apply (Hc name).
Qed.

Lemma finds_norm_index (len i : Z) : finds_attributes (norm_index len i).
Proof. intros name. unfold norm_index. cbv zeta. by destruct (_ && _). Qed.

Lemma finds_getitem {A} (l : list A) (i : Z) : finds_attributes (getitem l i).
Proof.
  unfold getitem. apply finds_bind; [apply finds_norm_index|].
  intros k name. by destruct (l !! k).
Qed.

Lemma finds_np_div (x y : Q) : finds_attributes (np_div x y).
Proof. intros name. unfold np_div. by destruct (Qeq_bool y 0). Qed.

Lemma finds_py_fdiv (x y : Q) : finds_attributes (py_fdiv x y).
Proof. intros name. unfold py_fdiv. by destruct (Qeq_bool y 0). Qed.

Lemma finds_py_fmod (x y : Q) : finds_attributes (py_fmod x y).
Proof. intros name. unfold py_fmod. by destruct (Qeq_bool y 0). Qed.

Lemma finds_py_truediv (a b : Z) : finds_attributes (py_truediv a b).
Proof. intros name. unfold py_truediv. by destruct (b =? 0). Qed.

Lemma finds_py_mod (a b : Z) : finds_attributes (py_mod a b).
Proof. intros name. unfold py_mod. by destruct (b =? 0). Qed.

Lemma finds_reshape (k : nat) (n : Z) (X : list Q) :
  finds_attributes (reshape k n X).
Proof. intros name. unfold reshape. by destruct (_ && _). Qed.

Lemma finds_open_signal (m n : Z) (poaching : Q) :
  finds_attributes (open_signal m n poaching).
Proof.
  unfold open_signal. apply finds_bind; [apply finds_py_truediv|].
  intros. apply finds_py_fdiv.
Qed.

Lemma finds_square_signal (t closure_length : Q) (region m n : Z)
    (poaching : Q) (mgmt_strat : string) :
  finds_attributes
    (square_signal t closure_length region m n poaching mgmt_strat).
Proof.
  unfold square_signal, start_region, end_region.
  repeat first
    [ apply finds_Ok | apply finds_py_fmod | apply finds_py_fdiv
    | apply finds_py_mod | apply finds_open_signal
    | apply finds_fmap
    | apply finds_bind; [|intros]
    | match goal with
      | |- finds_attributes (if ?b then _ else _) => destruct b
      end ].
Qed.

Lemma finds_multiplier (t closure_length : Q) (region m n : Z)
    (poaching : Q) (mgmt_strat : string) :
  finds_attributes (multiplier t closure_length region m n poaching mgmt_strat).
Proof.
  unfold multiplier. apply finds_bind; [apply finds_square_signal|].
  intros [v|]; by intros name.
Qed.

Lemma finds_getattr (system_model : obj) (name : string) :
  is_Some (system_model !! name) → finds_attributes (getattr system_model name).
Proof. intros [v Hv] name'. unfold getattr. by rewrite Hv. Qed.

Lemma finds_num_attr (system_model : obj) (name : string) :
  is_Some (system_model !! name) → finds_attributes (num_attr system_model name).
Proof.
  intros H. unfold num_attr. apply finds_bind; [by apply finds_getattr|].
  intros v name'. by destruct v.
Qed.

Lemma finds_int_attr (system_model : obj) (name : string) :
  is_Some (system_model !! name) → finds_attributes (int_attr system_model name).
Proof.
  intros H. unfold int_attr. apply finds_bind; [by apply finds_getattr|].
  intros v name'. by destruct v.
Qed.

Ltac has_attr H :=
  apply H;
  solve [repeat first [apply list_elem_of_here | apply list_elem_of_further]].

Lemma finds_model_signal (t : Q) (i : Z) (system_model : obj) :
  has_attrs signal_names system_model →
  finds_attributes (model_signal t i system_model).
Proof.
  intros H. unfold model_signal.
  repeat first
    [ apply finds_multiplier
    | apply finds_num_attr; has_attr H
    | apply finds_int_attr; has_attr H
    | apply finds_getattr; has_attr H
    | apply finds_bind; [|intros] ].
Qed.

Ltac finds_kernel H Hs :=
  repeat first
    [ apply finds_Ok | apply finds_getitem | apply finds_np_div
    | apply finds_reshape
    | apply finds_model_signal; exact Hs
    | apply finds_num_attr; first [has_attr H | has_attr Hs]
    | apply finds_int_attr; first [has_attr H | has_attr Hs]
    | apply finds_bind; [|intros]
    | match goal with
      | |- finds_attributes (match ?rows with [] => _ | _ :: _ => _ end) =>
        destruct rows
      end
    | by intros ? ].

Lemma finds_leemput (X : list Q) (t : Q) (i : Z) (system_model : obj)
    (P_influx : list Q) :
  has_attrs signal_names system_model →
  has_attrs leemput_names system_model →
  finds_attributes (leemput X t i system_model P_influx).
Proof. intros Hs H. unfold leemput. finds_kernel H Hs. Qed.

Lemma finds_blackwood (X : list Q) (t : Q) (i : Z) (system_model : obj)
    (P_influx : list Q) :
  has_attrs signal_names system_model →
  has_attrs blackwood_names system_model →
  finds_attributes (blackwood X t i system_model P_influx).
Proof. intros Hs H. unfold blackwood. finds_kernel H Hs. Qed.

Lemma finds_rass_briggs (X : list Q) (t : Q) (i : Z) (system_model : obj)
    (P_influx : list Q) :
  has_attrs signal_names system_model →
  has_attrs rass_briggs_names system_model →
  finds_attributes (rass_briggs X t i system_model P_influx).
Proof. intros Hs H. unfold rass_briggs. finds_kernel H Hs. Qed.

Lemma recognized_cases (model_type : value) :
  recognized model_type = true →
  model_type = VStr "RB" ∨ model_type = VStr "BM"
  ∨ model_type = VStr "vdL_PC" ∨ model_type = VStr "vdL_MP"
  ∨ model_type = VStr "vdL_MC" ∨ model_type = VStr "vdL".
Proof.
  unfold recognized. intros H.
  destruct model_type as [| | |s| | |]; try discriminate.
  unfold str_eq in H.
  repeat (apply orb_true_iff in H as [H|H]);
    apply String.eqb_eq in H; subst; tauto.
Qed.

Ltac in_table Hz :=
  let k := fresh "k" in
  let Hk := fresh "Hk" in
  intros k Hk;
  repeat (apply elem_of_cons in Hk as [-> | Hk];
          [eexists; apply Hz;
           solve [repeat first [apply list_elem_of_here
                               | apply list_elem_of_further]]|]);
  by apply elem_of_nil in Hk.

(** X13: once [load_parameters] has run for a recognised family, the
    kernel the patch system runs for that family reads no attribute that
    is missing: whatever else goes wrong in an evaluation, it is not an
    [AttributeError]. *)
Theorem loaded_kernel_finds_parameters (self z : obj)
    (model_type fish_growth_rate : value) (X : list Q) (t : Q) (i : Z)
    (P_influx : list Q) (name : string) :
  self !! "model_type" = Some model_type → recognized model_type = true →
  has_attrs signal_names self →
  load_parameters self fish_growth_rate = Ok z →
  kernel_for model_type X t i z P_influx ≠ Raise (AttributeError name).
Proof.
  intros Htype Hrec Hself Hload.
  pose proof (λ k, load_parameters_keeps _ _ _ k Hload) as Hkeep.
  destruct (load_parameters_Ok _ _ _ Hload)
    as (mt & params & Hmt & Htable & Hzeq).
  destruct (parameter_table_keys _ _ _ Htable) as [Hnd _].
  assert (Hz : ∀ k v, (k, v) ∈ params → z !! k = Some v)
    by (intros; rewrite Hzeq; by apply setattrs_lookup).
  clear Hzeq Hnd.
  rewrite Htype in Hmt. injection Hmt as <-.
  assert (Hs : has_attrs signal_names z).
  { intros k Hk. rewrite Hkeep; [by apply Hself|].
    revert k Hk. apply Forall_forall.
    by apply (bool_decide_unpack _); vm_compute. }
  apply recognized_cases in Hrec.
  destruct Hrec as [-> | [-> | [-> | [-> | [-> | ->]]]]];
    injection Htable as <-.
  - change (kernel_for (VStr "RB")) with rass_briggs.
    apply finds_rass_briggs; [exact Hs|]. in_table Hz.
  - change (kernel_for (VStr "BM")) with blackwood.
    apply finds_blackwood; [exact Hs|]. in_table Hz.
  - change (kernel_for (VStr "vdL_PC")) with leemput.
    apply finds_leemput; [exact Hs|]. in_table Hz.
  - change (kernel_for (VStr "vdL_MP")) with leemput.
    apply finds_leemput; [exact Hs|]. in_table Hz.
  - change (kernel_for (VStr "vdL_MC")) with leemput.
    apply finds_leemput; [exact Hs|]. in_table Hz.
  - change (kernel_for (VStr "vdL")) with leemput.
    apply finds_leemput; [exact Hs|]. in_table Hz.
Qed.

Lemma loaded_kernel_finds_parameters_witness :
  kernel_for (VStr "vdL") [0.1; 0.3; 0.1]%Q 0 0
    (setattrs (Model (VStr "vdL") (VInt 1) (VFloat 0.95) (VStr "periodic"))
       (vdL_common (VInt 1) ++
        [("sigma", VFloat 0.5); ("eta", VInt 2); ("alpha", VFloat 0.5);
         ("P0", VFloat 0.1); ("C_HI", VFloat 0.4); ("M_LO", VFloat 0.04);
         ("C_LO", VFloat 0.04); ("M_HI", VFloat 0.4)]))
    [0%Q]
  ≠ Raise (AttributeError "sigma").
Proof.
  apply (loaded_kernel_finds_parameters
           (Model (VStr "vdL") (VInt 1) (VFloat 0.95) (VStr "periodic")) _
           (VStr "vdL") (VInt 1) [0.1; 0.3; 0.1]%Q 0 0 [0%Q] "sigma").
  - reflexivity.
  - reflexivity.
  - intros k Hk.
    repeat (apply elem_of_cons in Hk as [-> | Hk]; [by eexists|]).
    by apply elem_of_nil in Hk.
  - reflexivity.
Defined.

(** ** The recovery scan *)

Lemma scan_recovery_spec (high : Q) (i : Z) (coralsol : list Q) :
  let r := scan_recovery high i coralsol in
  (r = -1 ∧ ∀ y, y ∈ coralsol → (y <= high)%Q)
  ∨ (∃ k x, r = i + Z.of_nat k ∧ coralsol !! k = Some x ∧ (high < x)%Q
            ∧ ∀ j y, (j < k)%nat → coralsol !! j = Some y → (y <= high)%Q).
Proof.
  cbv zeta. revert i.
  induction coralsol as [|y l IH]; intros i; cbn [scan_recovery].
  - left. split; [done|]. intros y Hy. by apply elem_of_nil in Hy.
  - destruct (Qle_bool y high) eqn:E; cbn [negb].
    + apply Qle_bool_iff in E.
      destruct (IH (i + 1)) as [[-> Hall] | (k & x & -> & Hk & Hx & Hbefore)].
      * left. split; [done|]. intros y' Hy'.
        apply elem_of_cons in Hy' as [-> | Hy']; [done | by apply Hall].
      * right. exists (S k), x.
        split; [lia|]. split; [done|]. split; [done|].
        intros [|j] y' Hj Hy'; cbn in Hy'.
        -- by injection Hy' as <-.
        -- apply (Hbefore j); [lia | done].
    + right. exists 0%nat, y.
      split; [lia|]. split; [done|]. split; [|intros; lia].
      apply Qnot_le_lt. intros Hle. apply Qle_bool_iff in Hle. congruence.
Qed.

(** X14: the scan of [get_coral_recovery_time] returns [-1] exactly
    when no entry of the coral series exceeds the threshold, and otherwise
    the index of the first entry that does. *)
Theorem scan_recovery_first_crossing (high : Q) (coralsol : list Q) (r : Z) :
  scan_recovery high 0 coralsol = r →
  (r = -1 ∧ ∀ y, y ∈ coralsol → (y <= high)%Q)
  ∨ (0 ≤ r < Z.of_nat (length coralsol)
     ∧ ∃ x, coralsol !! Z.to_nat r = Some x ∧ (high < x)%Q
            ∧ ∀ j y, (j < Z.to_nat r)%nat → coralsol !! j = Some y →
                     (y <= high)%Q).
Proof.
  intros <-.
  destruct (scan_recovery_spec high 0 coralsol)
    as [H | (k & x & Hr & Hk & Hx & Hbefore)]; [by left|].
  right. rewrite Hr. apply lookup_lt_Some in Hk as Hlen.
  split; [lia|]. exists x. rewrite Z.add_0_l, Nat2Z.id.
  split; [done|]. split; [done|]. exact Hbefore.
Qed.

Lemma scan_recovery_first_crossing_witness :
  (2 = -1 ∧ ∀ y, y ∈ [0.04; 0.3; 0.6; 0.7]%Q → (y <= 0.54)%Q)
  ∨ (0 ≤ 2 < Z.of_nat (length [0.04; 0.3; 0.6; 0.7]%Q)
     ∧ ∃ x, [0.04; 0.3; 0.6; 0.7]%Q !! Z.to_nat 2 = Some x ∧ (0.54 < x)%Q
            ∧ ∀ j y, (j < Z.to_nat 2)%nat →
                     [0.04; 0.3; 0.6; 0.7]%Q !! j = Some y → (y <= 0.54)%Q).
Proof. apply scan_recovery_first_crossing. reflexivity. Defined.

Lemma scan_recovery_lower (low high : Q) (i : Z) (coralsol : list Q) :
  (low <= high)%Q → scan_recovery high i coralsol ≠ -1 →
  i ≤ scan_recovery low i coralsol ≤ scan_recovery high i coralsol.
Proof.
  intros Hle. revert i.
  induction coralsol as [|y l IH]; intros i; cbn [scan_recovery]; [done|].
  destruct (Qle_bool y high) eqn:Eh; cbn [negb].
  - intros Hhigh. specialize (IH (i + 1) Hhigh).
    destruct (Qle_bool y low); cbn [negb]; lia.
  - intros _. destruct (Qle_bool y low) eqn:El; cbn [negb]; [|lia].
    apply Qle_bool_iff in El.
    assert (Qle_bool y high = true) by (apply Qle_bool_iff; lra).
    congruence.
Qed.

(** X15: on one coral series a lower threshold is never crossed later:
    when the scan finds a crossing of the higher threshold, it finds one
    of the lower threshold too, at the same index or before. *)
Theorem scan_recovery_monotone (low high : Q) (coralsol : list Q) :
  (low <= high)%Q → scan_recovery high 0 coralsol ≠ -1 →
  0 ≤ scan_recovery low 0 coralsol ≤ scan_recovery high 0 coralsol.
Proof. apply scan_recovery_lower. Qed.

Lemma scan_recovery_monotone_witness :
  0 ≤ scan_recovery 0.5 0 [0.04; 0.3; 0.52; 0.6]%Q
    ≤ scan_recovery 0.54 0 [0.04; 0.3; 0.52; 0.6]%Q.
Proof. apply scan_recovery_monotone; [by vm_compute | by vm_compute]. Defined.

(** ** More on the bisection *)

Section Search.

Variable odeint : list Q → list Q → obj → py (list (list Q)).
Variables (self : obj) (t : list Q).

(** An activation that returns has reached the cutoff, or its solver run
    ended with component 1 of the final row equal to the midpoint. *)
Lemma fue_body_return (lowC highC : Q) (depth : Z) (v : Q) :
  fue_body odeint self t lowC highC depth = Ok (Return v) →
  v = midpoint_of lowC highC
  ∧ ∃ n mid_sol,
      int_attr self "n" = Ok n
      ∧ odeint (times 0.1%Q n ++ times v n ++ times 0.04%Q n) t self
        = Ok mid_sol
      ∧ (10 < depth
         ∨ ∃ row final,
             getitem mid_sol (Z.of_nat (length t) - 1) = Ok row
             ∧ getitem row 1 = Ok final ∧ (final == v)%Q).
Proof.
  unfold fue_body. cbv zeta. intros H.
  destruct (int_attr self "n") as [n|]; py_simpl_in H; [|discriminate].
  destruct (odeint _ t self) as [mid_sol|] eqn:Esol; py_simpl_in H;
    [|discriminate].
  destruct (Z.ltb_spec 10 depth) as [Hd|Hd].
  { injection H as <-. split; [done|]. exists n, mid_sol. auto. }
  destruct (getitem mid_sol _) as [row|] eqn:Erow; py_simpl_in H;
    [|discriminate].
  destruct (getitem row 1) as [final|] eqn:Efinal; py_simpl_in H;
    [|discriminate].
  destruct (Qle_bool (final - _) 0) eqn:E1; cbn [negb] in H; [|discriminate].
  destruct (Qle_bool 0 (final - _)) eqn:E2; cbn [negb] in H; [|discriminate].
  injection H as <-. split; [done|]. exists n, mid_sol.
  split; [done|]. split; [done|]. right. exists row, final.
  split; [done|]. split; [done|].
  apply Qle_bool_iff in E1, E2. lra.
Qed.

Lemma midpoint_in_range (lowC highC : Q) :
  (0.1 <= lowC <= 0.7)%Q → (0.1 <= highC <= 0.7)%Q →
  (0.1 <= midpoint_of lowC highC <= 0.7)%Q.
Proof.
  unfold midpoint_of. intros Hl Hh.
  assert ((lowC + highC) / 2 == (lowC + highC) * (1 # 2))%Q as -> by field.
  lra.
Qed.

Lemma fue_run_in_range (stack : nat) (lowC highC : Q) (depth : Z) (v : Q) :
  (0.1 <= lowC <= 0.7)%Q → (0.1 <= highC <= 0.7)%Q →
  fue_run odeint stack self t lowC highC depth = Ok v →
  (0.1 <= v <= 0.7)%Q.
Proof.
  revert lowC highC depth.
  induction stack as [|stack IH]; intros lowC highC depth Hl Hh;
    cbn [fue_run]; [discriminate|].
  destruct (fue_body odeint self t lowC highC depth) as [a|e] eqn:E;
    py_simpl; [|discriminate].
  pose proof (midpoint_in_range lowC highC Hl Hh) as Hmid.
  destruct a as [w | lo hi d].
  - apply fue_body_return in E as [-> _]. by intros [= <-].
  - apply fue_body_recurse in E as (_ & _ & [[-> ->] | [-> ->]]);
      apply IH; unfold default_lowC, default_highC; (done || lra).
Qed.

Lemma fue_run_converged (stack : nat) (lowC highC : Q) (depth : Z) (v : Q) :
  fue_run odeint stack self t lowC highC depth = Ok v →
  ∃ n mid_sol,
    int_attr self "n" = Ok n
    ∧ odeint (times 0.1%Q n ++ times v n ++ times 0.04%Q n) t self
      = Ok mid_sol
    ∧ (11 < depth
            + Z.of_nat
                (length (fue_brackets odeint stack self t lowC highC depth))
       ∨ ∃ row final,
           getitem mid_sol (Z.of_nat (length t) - 1) = Ok row
           ∧ getitem row 1 = Ok final ∧ (final == v)%Q).
Proof.
  revert lowC highC depth.
  induction stack as [|stack IH]; intros lowC highC depth;
    cbn [fue_run fue_brackets]; [discriminate|].
  destruct (fue_body odeint self t lowC highC depth) as [a|e] eqn:E;
    py_simpl; [|discriminate].
  destruct a as [w | lo hi d].
  - intros [= <-].
    apply fue_body_return in E as (_ & n & mid_sol & Hn & Hsol & Hend).
    exists n, mid_sol. split; [done|]. split; [done|].
    destruct Hend as [Hd | Hfix]; [left; cbn [length]; lia | by right].
  - apply fue_body_recurse in E as (_ & -> & _). intros H.
    apply IH in H as (n & mid_sol & Hn & Hsol & Hend).
    exists n, mid_sol. split; [done|]. split; [done|].
    destruct Hend as [Hd | Hfix]; [left; cbn [length]; lia | by right].
Qed.

(** The solver runs once per activation, and a call made at depth [d]
    has at most [12 - d] of them. *)
Lemma length_fue_brackets (stack : nat) (lowC highC : Q) (depth : Z) :
  Z.of_nat (length (fue_brackets odeint stack self t lowC highC depth))
  ≤ Z.max 1 (12 - depth).
Proof.
  revert lowC highC depth.
  induction stack as [|stack IH]; intros lowC highC depth;
    cbn [fue_brackets length]; [lia|].
  destruct (fue_body odeint self t lowC highC depth) as [[w | lo hi d]|e]
    eqn:E; cbn [length]; [lia | | lia].
  apply fue_body_recurse in E as (Hd & -> & _).
  specialize (IH lo hi (depth + 1)). lia.
Qed.

(** Within the stack the recursion never runs out on its own. *)
Lemma fue_run_no_overflow (stack : nat) (lowC highC : Q) (depth : Z) :
  (∀ y0 t' o, odeint y0 t' o ≠ Raise RecursionError) →
  11 - depth < Z.of_nat stack → 0 < Z.of_nat stack →
  fue_run odeint stack self t lowC highC depth ≠ Raise RecursionError.
Proof.
  intros Hsolver. revert lowC highC depth.
  induction stack as [|stack IH]; intros lowC highC depth Hs H0;
    cbn [fue_run]; [lia|].
  destruct (fue_body odeint self t lowC highC depth) as [a|e] eqn:E; py_simpl.
  - destruct a as [w | lo hi d]; [done|].
    apply fue_body_recurse in E as (Hd & -> & _). apply IH; lia.
  - intros [= ->]. revert E. unfold fue_body. cbv zeta.
    unfold int_attr, getattr, as_int.
    destruct (self !! "n") as [[]|]; py_simpl; try discriminate.
    destruct (odeint _ t self) as [mid_sol|e] eqn:Esol; py_simpl.
    + destruct (10 <? depth); [discriminate|].
      unfold getitem at 1, norm_index.
      repeat (case_match; py_simpl; try discriminate).
      unfold getitem, norm_index.
      repeat (case_match; py_simpl; try discriminate).
    + intros [= ->]. by apply Hsolver in Esol.
Qed.

End Search.

(** X16: a search started with both bounds in [[0.1, 0.7]] returns a
    value in [[0.1, 0.7]], whatever the solver does. *)
Theorem find_unstable_equilibrium_in_range
    (odeint : list Q → list Q → obj → py (list (list Q)))
    (self : obj) (t : list Q) (lowC highC : Q) (recursion_depth : Z) (v : Q) :
  (0.1 <= lowC <= 0.7)%Q → (0.1 <= highC <= 0.7)%Q →
  find_unstable_equilibrium odeint self t lowC highC recursion_depth = Ok v →
  (0.1 <= v <= 0.7)%Q.
Proof. apply fue_run_in_range. Qed.

Lemma find_unstable_equilibrium_in_range_witness :
  (0.1 <= 25162000000000000 # 40960000000000000 <= 0.7)%Q.
Proof.
  apply (find_unstable_equilibrium_in_range settled one_patch_BM [0; 1]%Q
           0.1 0.7 0).
  - by vm_compute.
  - by vm_compute.
  - vm_compute. reflexivity.
Defined.

(** X17: a search called at a depth of 0 or more ends within 12
    activations, one solver run each, so the interpreter's stack is never
    the reason it stops: it raises [RecursionError] only if the solver
    does. *)
Theorem find_unstable_equilibrium_terminates
    (odeint : list Q → list Q → obj → py (list (list Q)))
    (self : obj) (t : list Q) (lowC highC : Q) (recursion_depth : Z) :
  0 ≤ recursion_depth →
  (∀ y0 t' o, odeint y0 t' o ≠ Raise RecursionError) →
  (length (fue_brackets odeint recursion_limit self t lowC highC
             recursion_depth) ≤ 12)%nat
  ∧ find_unstable_equilibrium odeint self t lowC highC recursion_depth
    ≠ Raise RecursionError.
Proof.
  intros Hd Hsolver. split.
  - pose proof (length_fue_brackets odeint self t recursion_limit lowC highC
                  recursion_depth). lia.
  - apply fue_run_no_overflow; [done | |]; unfold recursion_limit; lia.
Qed.

Lemma find_unstable_equilibrium_terminates_witness :
  (length (fue_brackets settled recursion_limit one_patch_BM [0; 1]%Q
             0.1 0.7 0) ≤ 12)%nat
  ∧ find_unstable_equilibrium settled one_patch_BM [0; 1]%Q 0.1 0.7 0
    ≠ Raise RecursionError.
Proof.
  apply find_unstable_equilibrium_terminates; [lia|]. intros y0 t' o. done.
Defined.

(** X18: the value [v] a search called at depth 0 returns is one the
    solver was run from, with coral cover [v] in every patch.  Either
    that was the twelfth activation, or component 1 of the final row of
    that run equals [v]: with more than one patch component 1 is the
    fish density of patch 1, not a coral cover. *)
Theorem find_unstable_equilibrium_result
    (odeint : list Q → list Q → obj → py (list (list Q)))
    (self : obj) (t : list Q) (lowC highC : Q) (v : Q) :
  find_unstable_equilibrium odeint self t lowC highC 0 = Ok v →
  ∃ n mid_sol,
    int_attr self "n" = Ok n
    ∧ odeint (times 0.1%Q n ++ times v n ++ times 0.04%Q n) t self
      = Ok mid_sol
    ∧ (length (fue_brackets odeint recursion_limit self t lowC highC 0)
       = 12%nat
       ∨ ∃ row final,
           getitem mid_sol (Z.of_nat (length t) - 1) = Ok row
           ∧ getitem row 1 = Ok final ∧ (final == v)%Q).
Proof.
  intros H. apply fue_run_converged in H as (n & mid_sol & Hn & Hsol & Hend).
  exists n, mid_sol. split; [done|]. split; [done|].
  destruct Hend as [Hd | Hfix]; [left | by right].
  pose proof (length_fue_brackets odeint self t recursion_limit lowC highC 0).
  lia.
Qed.

Lemma find_unstable_equilibrium_result_witness :
  ∃ n mid_sol,
    int_attr one_patch_BM "n" = Ok n
    ∧ frozen (times 0.1%Q n ++ times (80 # 200)%Q n ++ times 0.04%Q n) [0; 1]%Q
        one_patch_BM
      = Ok mid_sol
    ∧ (length (fue_brackets frozen recursion_limit one_patch_BM [0; 1]%Q
                 0.1 0.7 0)
       = 12%nat
       ∨ ∃ row final,
           getitem mid_sol (Z.of_nat (length [0; 1]%Q) - 1) = Ok row
           ∧ getitem row 1 = Ok final ∧ (final == 80 # 200)%Q).
Proof.
  apply (find_unstable_equilibrium_result frozen one_patch_BM [0; 1]%Q
           0.1 0.7 (80 # 200)%Q).
  vm_compute. reflexivity.
Defined.

(** ** Yield of one patch along a trajectory *)

Ltac step_cmd := rewrite cmd_bind_run; cbn [print reading fst snd model].

Section YieldProofs.

Variable str : value → string.
Variable junk : Z → Q.

Lemma yield_year_Ok (j : Z) (P : list Q) (strat : string) (year : Z)
    (a a' : list Q) (σ σ' : state) :
  yield_year str j (Some P) strat year a σ = (Ok a', σ') →
  model σ' = model σ
  ∧ length (stdout σ') = (length (stdout σ) + 7)%nat
  ∧ ∃ v, yield_value (model σ) j P strat year = Ok v
         ∧ setitem a year v = Ok a'.
Proof.
  unfold yield_year. step_cmd. step_cmd.
  destruct (getitem P year) as [p|]; [|discriminate].
  step_cmd. step_cmd. step_cmd.
  destruct (getattr (model σ) "f") as [f|]; [|discriminate].
  step_cmd. step_cmd. step_cmd.
  destruct (history_signal (model σ) year j "periodic") as [s|];
    [|discriminate].
  step_cmd. step_cmd. step_cmd.
  destruct (yield_value (model σ) j P strat year) as [v|]; [|discriminate].
  cbn [reading model]. intros [= Ha <-]. split; [done|].
  split; [cbn [stdout]; rewrite !length_app; cbn [length]; lia|].
  by exists v.
Qed.

Lemma yield_loop (j : Z) (P : list Q) (strat : string) (l : list Z)
    (a a' : list Q) (σ σ' : state) :
  (∀ year, year ∈ l → 0 ≤ year < Z.of_nat (length a)) →
  for_ l (yield_year str j (Some P) strat) a σ = (Ok a', σ') →
  model σ' = model σ ∧ length a' = length a
  ∧ length (stdout σ') = (length (stdout σ) + 7 * length l)%nat
  ∧ (∀ year, year ∈ l →
       ∃ v, yield_value (model σ) j P strat year = Ok v
            ∧ a' !! Z.to_nat year = Some v)
  ∧ (∀ k, (∀ year, year ∈ l → Z.to_nat year ≠ k) → a' !! k = a !! k).
Proof.
  revert a σ. induction l as [|y l IH]; intros a σ Hl; cbn [for_].
  { intros [= <- <-]. split; [done|]. split; [done|].
    split; [cbn [length]; lia|]. split; [|done].
    intros year Hyear. by apply elem_of_nil in Hyear. }
  rewrite cmd_bind_run.
  destruct (yield_year str j (Some P) strat y a σ) as [[a1|e] σ1] eqn:E;
    [|discriminate].
  apply yield_year_Ok in E as (Hm & Hout & v & Hv & Hset).
  assert (Hy : 0 ≤ y < Z.of_nat (length a)) by (apply Hl; left).
  rewrite setitem_insert in Hset by done. injection Hset as <-.
  intros H. apply IH in H as (Hm' & Hlen & Hout' & Hset' & Hkeep).
  2:{ intros year Hyear. rewrite length_insert. apply Hl. by right. }
  rewrite length_insert in Hlen. rewrite Hm in Hm'.
  split; [done|]. split; [done|].
  split; [cbn [length]; lia|]. split.
  - intros year Hyear. apply elem_of_cons in Hyear as [-> | Hyear].
    + destruct (decide (y ∈ l)) as [Hin | Hout1].
      * rewrite <- Hm. by apply Hset'.
      * exists v. split; [done|]. rewrite Hkeep.
        -- apply list_lookup_insert_eq. lia.
        -- intros year Hyear Heq.
           assert (0 ≤ year) by (apply Hl; by right).
           assert (year = y) as -> by lia. done.
    + rewrite <- Hm. by apply Hset'.
  - intros k Hk. rewrite Hkeep.
    + apply list_lookup_insert_ne. apply Hk. left.
    + intros year Hyear. apply Hk. by right.
Qed.

End YieldProofs.

(** X19: called without a history, as the default [P = None] allows,
    [fishing_yield_from_history] fails in the first year: [None] has no
    [all].  Nothing is printed before that. *)
Theorem yield_without_history_raises (str : value → string) (junk : Z → Q)
    (j : Z) (t : list Q) (strat : string) (σ : state) :
  t ≠ [] →
  fishing_yield_from_history str junk j t None strat σ
  = (Raise (AttributeError "all"), σ).
Proof.
  intros Ht. unfold fishing_yield_from_history. cbv zeta.
  destruct (range_first (Z.of_nat (length t))) as [rest ->].
  { destruct t; [done | cbn [length]; lia]. }
  reflexivity.
Qed.

Lemma yield_without_history_raises_witness :
  fishing_yield_from_history (λ _, "x") (λ _, 0%Q) 0 [0; 1]%Q None
    "periodic" (State sample_BM [])
  = (Raise (AttributeError "all"), State sample_BM []).
Proof. apply yield_without_history_raises. done. Defined.

(** X20: when [fishing_yield_from_history] returns, the yield has one
    entry per output time, and entry [year] is
    [P[year] * f * square_signal(year, ...)] under the strategy passed
    in: the multiplier is taken at the index [year], not at the time
    [t[year]], and nothing of the uninitialised array is left.  The
    model is unchanged and seven lines were printed per year. *)
Theorem yield_from_history_entries (str : value → string) (junk : Z → Q)
    (j : Z) (t P : list Q) (strat : string) (σ σ' : state) (y : list Q) :
  fishing_yield_from_history str junk j t (Some P) strat σ = (Ok y, σ') →
  model σ' = model σ
  ∧ length (stdout σ') = (length (stdout σ) + 7 * length t)%nat
  ∧ length y = length t
  ∧ ∀ year, (year < length t)%nat →
      ∃ p f s,
        P !! year = Some p
        ∧ num_attr (model σ) "f" = Ok f
        ∧ history_signal (model σ) (Z.of_nat year) j strat = Ok (Some s)
        ∧ y !! year = Some (p * f * s)%Q.
Proof.
  unfold fishing_yield_from_history. cbv zeta. intros H.
  assert (Hlen0 : length (np_empty junk (Z.of_nat (length t))) = length t).
  { unfold np_empty. rewrite length_fmap.
    pose proof (length_range (Z.of_nat (length t))). lia. }
  apply yield_loop in H as (Hm & Hlen & Hout & Hset & _).
  2:{ intros year Hyear. apply elem_of_range in Hyear. lia. }
  split; [done|]. split.
  { rewrite Hout. pose proof (length_range (Z.of_nat (length t))). lia. }
  split; [congruence|].
  intros year Hyear.
  destruct (Hset (Z.of_nat year)) as (v & Hv & Hy).
  { apply elem_of_range. lia. }
  rewrite Nat2Z.id in Hy. revert Hv. unfold yield_value.
  destruct (getitem P (Z.of_nat year)) as [p|] eqn:Ep; py_simpl;
    [|discriminate].
  destruct (num_attr (model σ) "f") as [f|]; py_simpl; [|discriminate].
  destruct (history_signal (model σ) (Z.of_nat year) j strat) as [[s|]|];
    py_simpl; [|discriminate|discriminate].
  intros [= <-]. exists p, f, s. repeat split; try done.
  revert Ep. unfold getitem, norm_index. cbv zeta.
  destruct (Z.ltb_spec (Z.of_nat year) 0); [lia|].
  destruct (_ && _); py_simpl; [|discriminate].
  rewrite Nat2Z.id. destruct (P !! year); [|discriminate]. by intros [= <-].
Qed.

Lemma yield_from_history_entries_witness :
  let σ := State sample_BM [] in
  let σ' := State sample_BM
    ["info"; "x"; "_"; "x"; "_"; "x"; "end";
     "info"; "x"; "_"; "x"; "_"; "x"; "end"] in
  let y := [0.1 * 0.3 * 0.1; 0.2 * 0.3 * ((1 - 1 / 2 * 0.1) / (1 - 1 / 2))]%Q in
  model σ' = model σ
  ∧ length (stdout σ') = (length (stdout σ) + 7 * length [0; 1]%Q)%nat
  ∧ length y = length [0; 1]%Q
  ∧ ∀ year, (year < length [0; 1]%Q)%nat →
      ∃ p f s,
        [0.1; 0.2]%Q !! year = Some p
        ∧ num_attr (model σ) "f" = Ok f
        ∧ history_signal (model σ) (Z.of_nat year) 0 "periodic" = Ok (Some s)
        ∧ y !! year = Some (p * f * s)%Q.
Proof.
  cbv zeta.
  apply (yield_from_history_entries (λ _, "x") (λ _, 0%Q) 0 [0; 1]%Q
           [0.1; 0.2]%Q "periodic").
  vm_compute. reflexivity.
Defined.

(** ** What the patch system returns *)


Section KernelFrame.

Variables system_model system_model' : obj.
Hypothesis same_parameters :
  ∀ name, name ∉ buffers → system_model !! name = system_model' !! name.










End KernelFrame.





Section Assemble.

Variables (n : Z) (frac_dispersed : Q) (X : list Q) (t : Q).
Variable model_type : value.
Hypothesis X_long : n ≤ Z.of_nat (length X).
Hypothesis not_RB : str_eq model_type "RB" = false.






End Assemble.









(** ** What the recovery time is measured on *)

Lemma getattr_Ok (o : obj) (name : string) (v : value) :
  getattr o name = Ok v → o !! name = Some v.
Proof. unfold getattr. destruct (o !! name); [by intros [= ->] | done]. Qed.

(** The low-coral preset [X1] the initialiser stores. *)
Lemma initialize_patch_model_X1 (junk : string → Z → Q) (self z : obj)
    (P0 C0L C0H M0L M0H M0iL M0iH : value) :
  initialize_patch_model junk self P0 C0L C0H M0L M0H M0iL M0iH = Ok z →
  ∃ mt n,
    self !! "model_type" = Some mt ∧ self !! "n" = Some (VInt n)
    ∧ z !! "X1"
      = Some (VList (times P0 n ++ times C0L n ++ times M0H n
                     ++ if str_eq mt "RB" then times M0iH n else [])).
Proof.
  intros H.
  unfold initialize_patch_model, RB_initialize_patch_model, getattr in H.
  destruct (self !! "model_type") as [mt|] eqn:Hmt; [|done]. py_simpl_in H.
  assert (Hfin : ∃ z0 n,
             dispersal_setup self = Ok z0 ∧ int_attr z0 "n" = Ok n
             ∧ z !! "X1"
               = Some (VList (times P0 n ++ times C0L n ++ times M0H n
                              ++ if str_eq mt "RB" then times M0iH n else []))).
  { destruct (dispersal_setup self) as [z0|] eqn:Hsetup; py_simpl_in H;
      [|by destruct (str_eq mt "RB")].
    destruct (int_attr z0 "n") as [n|] eqn:Hn; py_simpl_in H;
      [|by destruct (str_eq mt "RB")].
    exists z0, n. split; [done|]. split; [done|].
    destruct (str_eq mt "RB"); injection H as <-; lookups;
      [done | by rewrite app_nil_r]. }
  destruct Hfin as (z0 & n & Hsetup & Hn & HX1).
  exists mt, n. split; [done|]. split; [|done].
  rewrite <- (dispersal_setup_keeps _ _ "n" Hsetup) by done.
  revert Hn. unfold int_attr, getattr.
  destruct (z0 !! "n") as [[]|]; py_simpl; cbn [as_int]; try discriminate.
  by intros [= ->].
Qed.

(** X22: the recovery time is not measured on the model it is asked
    of.  The solver runs a fresh model that has the family and the
    number of patches of [self], but no movement ([frac_nomove = 1]),
    the static strategy, nothing closed and no fishing ([f = 0]), from
    the low-coral preset; the series scanned is component [n] of its
    trajectory, the coral cover of patch 0; and the result is the scan's
    index plus 10. *)
Theorem recovery_time_is_measured_unfished
    (odeint : list Q → list Q → obj → py (list (list Q)))
    (junk : string → Z → Q) (self : obj) (t : list Q) (r : Z) :
  get_coral_recovery_time odeint junk self t = Ok r →
  ∃ model_type n z MPAsol coralsol,
    self !! "model_type" = Some model_type ∧ self !! "n" = Some (VInt n)
    ∧ z !! "model_type" = Some model_type ∧ z !! "n" = Some (VInt n)
    ∧ z !! "frac_nomove" = Some (VInt 1)
    ∧ z !! "mgmt_strat" = Some (VStr "MPA")
    ∧ z !! "closure_length" = Some (VInt 500)
    ∧ z !! "f" = Some (VInt 0) ∧ z !! "m" = Some (VInt 0)
    ∧ z !! "poaching" = Some (VInt 0)
    ∧ odeint (times 0.1%Q n ++ times 0.04%Q n ++ times 0.4%Q n
              ++ if str_eq model_type "RB" then times 0.04%Q n else [])
             t z = Ok MPAsol
    ∧ mapM (λ row, getitem row n) MPAsol = Ok coralsol
    ∧ r = scan_recovery (high_coral_eq model_type) 0 coralsol + 10.
Proof.
  unfold get_coral_recovery_time. cbv zeta.
  destruct (getattr self "model_type") as [mt|] eqn:Hmt; py_simpl;
    [|discriminate].
  destruct (getattr self "n") as [vn|] eqn:Hvn; py_simpl; [|discriminate].
  apply getattr_Ok in Hmt, Hvn.
  destruct (initialize_patch_model _ _ _ _ _ _ _ _ _) as [z1|] eqn:Hinit;
    py_simpl; [|discriminate].
  destruct (load_parameters z1 (VInt 1)) as [z2|] eqn:Hload; py_simpl;
    [|discriminate].
  set (z := set_mgmt_params z2 (VInt 500) (VInt 0) (VInt 0) (VInt 0)).
  pose proof (initialize_patch_model_X1 _ _ _ _ _ _ _ _ _ _ Hinit)
    as (mt' & n & Hmt' & Hn' & HX1).
  destruct (Model_getattr mt vn (VInt 1) (VStr "MPA"))
    as (Hg1 & Hg2 & Hg3 & Hg4).
  unfold getattr in Hg1, Hg2, Hg3, Hg4.
  destruct (Model mt vn (VInt 1) (VStr "MPA") !! "model_type") eqn:E1;
    [|done]. injection Hg1 as ->.
  destruct (Model mt vn (VInt 1) (VStr "MPA") !! "n") eqn:E2;
    [|done]. injection Hg2 as ->.
  destruct (Model mt vn (VInt 1) (VStr "MPA") !! "frac_nomove") eqn:E3;
    [|done]. injection Hg3 as ->.
  destruct (Model mt vn (VInt 1) (VStr "MPA") !! "mgmt_strat") eqn:E4;
    [|done]. injection Hg4 as ->.
  injection Hmt' as <-. injection Hn' as ->.
  assert (Hkeep : ∀ name,
            name ∈ ["model_type"; "n"; "frac_nomove"; "mgmt_strat"] →
            z !! name = Model mt (VInt n) (VInt 1) (VStr "MPA") !! name).
  { intros name Hname. unfold z, set_mgmt_params.
    rewrite !lookup_insert_ne
      by (intros <-;
          repeat (apply elem_of_cons in Hname as [Hname|Hname];
                  [discriminate|]);
          by apply elem_of_nil in Hname).
    rewrite (load_parameters_keeps _ _ _ name Hload).
    - apply (initialize_patch_model_keeps _ _ _ _ _ _ _ _ _ _ name Hinit).
      repeat (apply elem_of_cons in Hname as [-> | Hname];
              [repeat first [apply list_elem_of_here
                            | apply list_elem_of_further]|]).
      by apply elem_of_nil in Hname.
    - repeat (apply elem_of_cons in Hname as [-> | Hname];
              [unfold structure_names;
               repeat first [apply list_elem_of_here
                            | apply list_elem_of_further]|]).
      by apply elem_of_nil in Hname. }
  assert (HzX1 : getattr z "X1"
                 = Ok (VList (times (VFloat 0.1) n ++ times (VFloat 0.04) n
                              ++ times (VFloat 0.4) n
                              ++ if str_eq mt "RB"
                                 then times (VFloat 0.04) n else []))).
  { unfold getattr, z, set_mgmt_params. rewrite !lookup_insert_ne by done.
    rewrite (load_parameters_keeps _ _ _ "X1" Hload), HX1; [done|].
    unfold structure_names.
    repeat first [apply list_elem_of_here | apply list_elem_of_further]. }
  rewrite HzX1. py_simpl. unfold run_model.
  assert (Hy0 : as_floats
                  (VList (times (VFloat 0.1) n ++ times (VFloat 0.04) n
                          ++ times (VFloat 0.4) n
                          ++ if str_eq mt "RB"
                             then times (VFloat 0.04) n else []))
                = Ok (times 0.1%Q n ++ times 0.04%Q n ++ times 0.4%Q n
                      ++ if str_eq mt "RB" then times 0.04%Q n else [])).
  { cbn [as_floats].
    repeat (apply mapM_app_Ok; [by apply mapM_times|]).
    destruct (str_eq mt "RB"); [by apply mapM_times | done]. }
  rewrite Hy0. py_simpl.
  destruct (odeint _ t z) as [MPAsol|] eqn:Hsol; py_simpl; [|discriminate].
  unfold int_attr, getattr. rewrite Hvn. py_simpl. cbn [as_int]. py_simpl.
  destruct (mapM _ MPAsol) as [coralsol|] eqn:Hcoral; py_simpl;
    [|discriminate].
  intros [= <-].
  exists mt, n, z, MPAsol, coralsol.
  split; [done|]. split; [done|].
  split; [rewrite Hkeep, E1; [done|]|].
  { repeat first [apply list_elem_of_here | apply list_elem_of_further]. }
  split; [rewrite Hkeep, E2; [done|]|].
  { repeat first [apply list_elem_of_here | apply list_elem_of_further]. }
  split; [rewrite Hkeep, E3; [done|]|].
  { repeat first [apply list_elem_of_here | apply list_elem_of_further]. }
  split; [rewrite Hkeep, E4; [done|]|].
  { repeat first [apply list_elem_of_here | apply list_elem_of_further]. }
  unfold z, set_mgmt_params. by lookups.
Qed.

Lemma recovery_time_is_measured_unfished_witness :
  ∃ model_type n z MPAsol coralsol,
    one_patch_BM !! "model_type" = Some model_type
    ∧ one_patch_BM !! "n" = Some (VInt n)
    ∧ z !! "model_type" = Some model_type ∧ z !! "n" = Some (VInt n)
    ∧ z !! "frac_nomove" = Some (VInt 1)
    ∧ z !! "mgmt_strat" = Some (VStr "MPA")
    ∧ z !! "closure_length" = Some (VInt 500)
    ∧ z !! "f" = Some (VInt 0) ∧ z !! "m" = Some (VInt 0)
    ∧ z !! "poaching" = Some (VInt 0)
    ∧ frozen (times 0.1%Q n ++ times 0.04%Q n ++ times 0.4%Q n
              ++ if str_eq model_type "RB" then times 0.04%Q n else [])
             [0; 1; 2]%Q z = Ok MPAsol
    ∧ mapM (λ row, getitem row n) MPAsol = Ok coralsol
    ∧ 9 = scan_recovery (high_coral_eq model_type) 0 coralsol + 10.
Proof.
  apply (recovery_time_is_measured_unfished frozen no_junk one_patch_BM
           [0; 1; 2]%Q 9).
  vm_compute. reflexivity.
Defined.

(** * Properties in rounded arithmetic *)

(** ** The rounding of binary64 *)

Lemma pow2_pos (e : Z) : (0 < pow2 e)%Q.
Proof. apply Qpower_0_lt. reflexivity. Qed.

Lemma pow2_plus (a b : Z) : (pow2 (a + b) == pow2 a * pow2 b)%Q.
Proof. apply Qpower_plus. discriminate. Qed.

Lemma pow2_inject (e : Z) : 0 ≤ e → (pow2 e == inject_Z (2 ^ e))%Q.
Proof. intros He. unfold pow2. by rewrite Zpower_Qpower. Qed.

(** The nearest integer is within a half. *)
Lemma rne_close (y : Q) :
  (- (1 # 2) <= inject_Z (rne y) - y <= 1 # 2)%Q.
Proof.
  unfold rne. cbv zeta.
  pose proof (Qfloor_le y) as Hle. pose proof (Qlt_floor y) as Hlt.
  rewrite inject_Z_plus in Hlt. change (inject_Z 1) with 1%Q in Hlt.
  destruct (Qcompare_spec (y - inject_Z (Qfloor y)) (1 # 2)) as [E|E|E].
  - destruct (Z.even _); [lra|].
    rewrite inject_Z_plus. change (inject_Z 1) with 1%Q. lra.
  - lra.
  - rewrite inject_Z_plus. change (inject_Z 1) with 1%Q. lra.
Qed.

Lemma ilog2_le (s : Q) : (0 < s)%Q → (pow2 (ilog2 s) <= s)%Q.
Proof.
  intros Hs. unfold ilog2. cbv zeta.
  destruct (Qle_bool _ s) eqn:E; [by apply Qle_bool_iff|]. clear E.
  destruct s as [a b]. cbn [Qnum Qden].
  assert (Ha : 0 < a) by (unfold Qlt in Hs; simpl in Hs; lia).
  pose proof (Z.log2_spec a Ha) as [Hla _].
  pose proof (Z.log2_spec (Z.pos b) ltac:(lia)) as [_ Hlb].
  pose proof (Z.log2_nonneg a) as Hla0.
  pose proof (Z.log2_nonneg (Z.pos b)) as Hlb0.
  set (la := Z.log2 a) in *. set (lb := Z.log2 (Z.pos b)) in *.
  replace (la - lb - 1) with (la - Z.succ lb) by lia.
  unfold pow2. rewrite Qpower_minus by discriminate.
  fold (pow2 la). fold (pow2 (Z.succ lb)).
  rewrite !pow2_inject by lia.
  rewrite (Qmake_Qdiv a b).
  assert (H1 : (inject_Z (2 ^ la) <= inject_Z a)%Q) by (by rewrite <- Zle_Qle).
  assert (H2 : (inject_Z (Z.pos b) < inject_Z (2 ^ Z.succ lb))%Q)
    by (by rewrite <- Zlt_Qlt).
  assert (H3 : (0 < inject_Z (Z.pos b))%Q) by (by rewrite <- (Zlt_Qlt 0)).
  assert (H4 : (0 < inject_Z (2 ^ la))%Q).
  { rewrite <- (Zlt_Qlt 0). apply Z.pow_pos_nonneg; lia. }
  set (A := inject_Z (2 ^ la)) in *. set (B := inject_Z (2 ^ Z.succ lb)) in *.
  set (a' := inject_Z a) in *. set (b' := inject_Z (Z.pos b)) in *.
  clearbody A B a' b'.
  apply Qle_shift_div_l; [done|].
  apply Qle_trans with (A / B * B)%Q.
  - apply Qmult_le_l with (z := B); [lra|].
    assert (A / B * B == A)%Q as -> by (field; lra).
    assert (B * (A / B * b') == A * b')%Q as -> by (field; lra).
    nra.
  - assert (A / B * B == A)%Q as -> by (field; lra). done.
Qed.

(** Binary64 rounding has a relative error of at most [2^-53]. *)
Lemma round53_accurate : accurate round53 u64.
Proof.
  intros x. unfold round53.
  destruct (Qeq_bool x 0) eqn:E0.
  { apply Qeq_bool_iff in E0. rewrite E0. unfold u64. by vm_compute. }
  apply Qeq_bool_neq in E0. cbv zeta. rewrite Qred_correct.
  set (s := Qabs x). set (e := ilog2 s - 52).
  assert (Hs : (0 < s)%Q).
  { unfold s. apply Qabs_case; intros Hx.
    - destruct (Qlt_le_dec 0 x) as [|H]; [done|]. exfalso. apply E0. lra.
    - destruct (Qlt_le_dec x 0) as [|H]; [lra|]. exfalso. apply E0. lra. }
  pose proof (rne_close (s / pow2 e)) as Hclose.
  pose proof (pow2_pos e) as HP.
  pose proof (ilog2_le s Hs) as Hlog.
  replace (ilog2 s) with (e + 52) in Hlog by (unfold e; lia).
  rewrite pow2_plus in Hlog.
  assert (H52 : (pow2 52 == 4503599627370496)%Q) by reflexivity.
  rewrite H52 in Hlog. clear H52.
  set (M := inject_Z (rne (s / pow2 e))) in *.
  set (P := pow2 e) in *.
  assert (Hy : (s / P * P == s)%Q) by (field; lra).
  set (y := (s / P)%Q) in *.
  assert (Hq : (- (s * u64) <= M * P - s <= s * u64)%Q).
  { unfold u64. clearbody M P y s. nra. }
  clearbody M P y. unfold s in *. clear e Hclose Hlog Hy HP.
  destruct (Qle_bool 0 x) eqn:Ex.
  - apply Qle_bool_iff in Ex. rewrite (Qabs_pos x) in * by done.
    apply Qabs_Qle_condition. lra.
  - assert (Hx : (x < 0)%Q).
    { destruct (Qlt_le_dec x 0) as [|H]; [done|].
      apply Qle_bool_iff in H. congruence. }
    rewrite (Qabs_neg x) in * by lra.
    apply Qabs_Qle_condition. lra.
Qed.

(** ** The forcing function in rounded arithmetic *)

(** [int] truncates: it moves a number by less than 1, toward zero. *)
Lemma py_int_opp (q : Q) : py_int (- q) = - py_int q.
Proof. destruct q as [a b]. unfold py_int. cbn. apply Z.quot_opp_l. lia. Qed.

Lemma py_int_trunc (q : Q) :
  (q - 1 < inject_Z (py_int q) < q + 1)%Q.
Proof.
  destruct (Qlt_le_dec q 0) as [Hq|Hq].
  - assert (H : py_int q = - Qfloor (- q)).
    { rewrite <- (py_int_floor (- q)) by lra. rewrite py_int_opp. lia. }
    rewrite H, inject_Z_opp.
    pose proof (Qfloor_le (- q)). pose proof (Qlt_floor (- q)) as Hlt.
    rewrite inject_Z_plus in Hlt. change (inject_Z 1) with 1%Q in Hlt. lra.
  - rewrite py_int_floor by done.
    pose proof (Qfloor_le q). pose proof (Qlt_floor q) as Hlt.
    rewrite inject_Z_plus in Hlt. change (inject_Z 1) with 1%Q in Hlt. lra.
Qed.

(** Two bounds on a quotient, stated without division. *)
Lemma ratio_upper (T w c A B k : Q) :
  (0 <= w → 0 < c → 0 <= k → T * c <= w * A → A * k <= B * c →
   T * k <= w * B)%Q.
Proof.
  intros Hw Hc Hk H1 H2.
  apply Qmult_le_r with (z := c); [assumption|].
  apply Qle_trans with (w * A * k)%Q.
  - assert (T * k * c == T * c * k)%Q as -> by ring.
    apply Qmult_le_compat_r; assumption.
  - assert (w * A * k == A * k * w)%Q as -> by ring.
    assert (w * B * c == B * c * w)%Q as -> by ring.
    apply Qmult_le_compat_r; assumption.
Qed.

Lemma ratio_lower (T w c A B k : Q) :
  (0 <= w → 0 < c → 0 <= k → w * A <= T * c → B * c <= A * k →
   w * B <= T * k)%Q.
Proof.
  intros Hw Hc Hk H1 H2.
  apply Qmult_le_r with (z := c); [assumption|].
  apply Qle_trans with (w * A * k)%Q.
  - assert (w * A * k == A * k * w)%Q as -> by ring.
    assert (w * B * c == B * c * w)%Q as -> by ring.
    apply Qmult_le_compat_r; assumption.
  - assert (T * k * c == T * c * k)%Q as -> by ring.
    apply Qmult_le_compat_r; assumption.
Qed.

Lemma roundoff_up (u k : Q) :
  (0 <= u → u <= k → k <= 1 # 100 →
   (1 + 3 * k) * (1 + u) * (1 + u) <= (1 + 8 * k) * ((1 - k) * (1 - u)))%Q.
Proof. intros. nra. Qed.

Lemma roundoff_low (u k : Q) :
  (0 <= u → u <= k → k <= 1 # 100 →
   (1 - 8 * k) * ((1 + k) * (1 + u)) <= (1 - 3 * k) * (1 - u) * (1 - u))%Q.
Proof. intros. nra. Qed.

Section Accuracy.

Variable rnd : Q → Q.
Variable u : Q.
Hypothesis rnd_accurate : accurate rnd u.
Hypothesis u_nonneg : (0 <= u)%Q.

Lemma rnd_nonneg (x : Q) :
  (0 <= x)%Q → (x * (1 - u) <= rnd x <= x * (1 + u))%Q.
Proof.
  intros Hx. pose proof (rnd_accurate x) as H.
  apply Qabs_Qle_condition in H. rewrite (Qabs_pos x) in H by done. lra.
Qed.

Lemma fmod_range (x y : Q) :
  (u <= 1)%Q → (0 < y)%Q →
  ∃ r, Rounded.fmod rnd x y = Ok r ∧ (0 <= r <= y * (1 + u))%Q.
Proof.
  intros Hu Hy. unfold Rounded.fmod.
  assert (E : Qeq_bool y 0 = false) by (apply Qeq_bool_false_iff; lra).
  rewrite E. cbv zeta.
  pose proof (py_int_trunc (x / y)) as Ht.
  set (k := inject_Z (py_int (x / y))) in *.
  assert (Hq : (x / y * y == x)%Q) by (field; lra).
  set (q := (x / y)%Q) in *.
  assert (Hr : (- y < x - k * y < y)%Q) by (clearbody k q; nra).
  set (r := (x - k * y)%Q) in *. clearbody r. clear Ht Hq k q.
  assert (Hyu : (0 <= y * u)%Q) by (apply Qmult_le_0_compat; lra).
  destruct (Qeq_bool r 0); [exists 0%Q; split; [done | lra]|].
  assert (Ey : Qle_bool 0 y = true) by (apply Qle_bool_iff; lra).
  rewrite Ey. destruct (Qle_bool 0 r) eqn:Er; cbn [Bool.eqb negb].
  - apply Qle_bool_iff in Er. exists r. split; [done | lra].
  - assert (Hneg : (r < 0)%Q).
    { destruct (Qlt_le_dec r 0) as [|H]; [done|].
      apply Qle_bool_iff in H. congruence. }
    exists (rnd (r + y)). split; [done|].
    pose proof (rnd_nonneg (r + y) ltac:(lra)) as Hrn.
    assert (0 <= (r + y) * (1 - u))%Q; [|nra].
    assert (0 <= (r + y) * u)%Q by (apply Qmult_le_0_compat; lra).
    nra.
Qed.

(** The slot is one of [0 .. n]: the last patch index plus one is
    reached when the remainder rounds up to the period. *)
Lemma start_region_range (t closure_length : Q) (n : Z) :
  1 ≤ n → (0 <= closure_length)%Q → (inject_Z n * u <= 1 # 100)%Q →
  ∃ start, Rounded.start_region rnd t closure_length n = Ok start
           ∧ 0 ≤ start ≤ n.
Proof.
  intros Hn Hcl Hk. unfold Rounded.start_region.
  destruct (Qeq_bool closure_length 0) eqn:E; cbn [negb].
  { exists 0. split; [done | lia]. }
  apply Qeq_bool_false_iff in E.
  assert (Hpos : (0 < closure_length)%Q) by lra.
  assert (HN : (1 <= inject_Z n)%Q) by (by rewrite <- (Zle_Qle 1)).
  set (N := inject_Z n) in *.
  assert (Hu : (u <= 1 # 100)%Q) by (clearbody N; nra).
  pose proof (rnd_nonneg (N * closure_length) ltac:(clearbody N; nra)) as Hy.
  set (y := rnd (N * closure_length)) in *.
  assert (Hy0 : (0 < y)%Q) by (clearbody y N; nra).
  destruct (fmod_range t y ltac:(lra) Hy0) as (r & -> & Hr). py_simpl.
  unfold Rounded.fdiv.
  assert (E' : Qeq_bool closure_length 0 = false)
    by (apply Qeq_bool_false_iff; lra).
  rewrite E'. py_simpl.
  assert (Hq : (r / closure_length * closure_length == r)%Q) by (field; lra).
  set (q := (r / closure_length)%Q) in *.
  assert (Hq0 : (0 <= q)%Q).
  { clearbody q y N. destruct (Qlt_le_dec q 0) as [Hlt|]; [|done]. nra. }
  pose proof (rnd_nonneg q Hq0) as Hrq.
  assert (Hqn : (q <= N * (1 + u) * (1 + u))%Q).
  { clearbody q y N.
    assert (q * closure_length
            <= N * (1 + u) * (1 + u) * closure_length)%Q by nra.
    destruct (Qlt_le_dec (N * (1 + u) * (1 + u)) q) as [Hlt|]; [|done]. nra. }
  exists (py_int (rnd q)). split; [done|].
  assert (Hb : (rnd q < inject_Z (n + 1))%Q).
  { rewrite inject_Z_plus. change (inject_Z 1) with 1%Q. fold N.
    clearbody q y N.
    assert (rnd q <= N * (1 + u) * (1 + u) * (1 + u))%Q by nra.
    assert (N * (1 + u) * (1 + u) * (1 + u) < N + 1)%Q; [|lra].
    assert (H3 : ((1 + u) * (1 + u) * (1 + u) <= 1 + 4 * u)%Q) by nra.
    nra. }
  assert (0 ≤ py_int (rnd q) < n + 1); [|lia].
  apply py_int_bounds; [|done]. clearbody q. nra.
Qed.

(** The open-patch value is the exact one up to a relative error of
    [8 n u]; scaled by [n], to have no division in the statement. *)
Lemma open_signal_accurate (m n : Z) (poaching : Q) :
  1 ≤ n → 0 ≤ m < n → (0 <= poaching <= 1)%Q →
  (inject_Z n * u <= 1 # 100)%Q →
  ∃ v, Rounded.open_signal rnd m n poaching = Ok v
       ∧ (Qabs ((inject_Z n - inject_Z m) * v
                - (inject_Z n - inject_Z m * poaching))
          <= 8 * (inject_Z n * u) * (inject_Z n - inject_Z m * poaching))%Q.
Proof.
  intros Hn Hm Hp Hk. unfold Rounded.open_signal, Rounded.truediv.
  destruct (Z.eqb_spec n 0) as [|_]; [lia|]. py_simpl.
  assert (HN : (1 <= inject_Z n)%Q) by (by rewrite <- (Zle_Qle 1)).
  assert (HM0 : (0 <= inject_Z m)%Q) by (rewrite <- (Zle_Qle 0); lia).
  assert (HMN : (inject_Z m + 1 <= inject_Z n)%Q).
  { assert (H : (inject_Z (m + 1) <= inject_Z n)%Q)
      by (rewrite <- Zle_Qle; lia).
    rewrite inject_Z_plus in H. exact H. }
  set (N := inject_Z n) in *. set (M := inject_Z m) in *.
  set (p := poaching) in *. clearbody N M p.
  assert (Hκ : (N * u == N * u)%Q) by reflexivity.
  set (κ := (N * u)%Q) in Hk, Hκ at 1 |- * . clearbody κ.
  assert (Hu : (u <= κ)%Q) by nra.
  assert (Hκ0 : (0 <= κ)%Q) by lra.
  (* the exact fraction and its complement *)
  assert (Hf : (M / N * N == M)%Q) by (field; lra).
  set (f := (M / N)%Q) in *. clearbody f.
  assert (Hf0 : (0 <= f)%Q).
  { destruct (Qlt_le_dec f 0); [nra | done]. }
  assert (Hgf : (1 - f == 1 - f)%Q) by reflexivity.
  set (g := (1 - f)%Q) in Hgf at 1 |- *. clearbody g.
  assert (Hg1 : (1 <= N * g)%Q) by nra.
  assert (Hg0 : (0 < g)%Q).
  { destruct (Qlt_le_dec 0 g); [done | nra]. }
  assert (Hfg : (f * u <= κ * g)%Q).
  { assert (0 <= u * (N * g - 1))%Q by (apply Qmult_le_0_compat; lra).
    assert (0 <= u * g)%Q by (apply Qmult_le_0_compat; lra).
    nra. }
  assert (Hwf : (1 - f * p == 1 - f * p)%Q) by reflexivity.
  set (w := (1 - f * p)%Q) in Hwf at 1 |- *. clearbody w.
  assert (Hw : (g <= w)%Q) by nra.
  assert (Hw0 : (0 < w)%Q) by lra.
  (* the five roundings *)
  assert (Hu1 : (u <= 1 # 100)%Q) by lra.
  pose proof (rnd_nonneg f Hf0) as H1. set (f' := rnd f) in *. clearbody f'.
  assert (Hf'0 : (0 <= f')%Q).
  { assert (0 <= f * (1 - u))%Q by (apply Qmult_le_0_compat; lra). lra. }
  assert (Hfp0 : (0 <= f' * p)%Q) by (apply Qmult_le_0_compat; lra).
  pose proof (rnd_nonneg (f' * p) Hfp0) as H2.
  set (a := rnd (f' * p)) in *. clearbody a.
  assert (Hfp : (f * p <= f)%Q) by nra.
  assert (Hfpu : (f * p * u <= κ * w)%Q) by nra.
  assert (Ha : (w * (1 - 3 * κ) <= 1 - a ∧ 1 - a <= w * (1 + 3 * κ))%Q).
  { assert (f' * p <= f * p * (1 + u))%Q by nra.
    assert (f * p * (1 - u) <= f' * p)%Q by nra.
    assert (0 <= f * p)%Q by nra.
    assert (0 <= f * p * u)%Q by (apply Qmult_le_0_compat; lra).
    assert (f * p * u * u <= f * p * u)%Q by nra.
    split; nra. }
  assert (Ha0 : (0 <= 1 - a)%Q) by nra.
  pose proof (rnd_nonneg (1 - a) Ha0) as H3.
  set (nn := rnd (1 - a)) in *. clearbody nn.
  assert (Hd : (g * (1 - κ) <= 1 - f' ∧ 1 - f' <= g * (1 + κ))%Q).
  { split; nra. }
  assert (Hd0 : (0 < 1 - f')%Q) by nra.
  pose proof (rnd_nonneg (1 - f') ltac:(lra)) as H4.
  set (dd := rnd (1 - f')) in *. clearbody dd.
  assert (Hdd0 : (0 < dd)%Q) by nra.
  unfold Rounded.fdiv.
  assert (E : Qeq_bool dd 0 = false) by (apply Qeq_bool_false_iff; lra).
  rewrite E. eexists. split; [reflexivity|].
  assert (Hnn0 : (0 <= nn)%Q).
  { assert (0 <= (1 - a) * (1 - u))%Q by (apply Qmult_le_0_compat; lra).
    lra. }
  assert (Hz : (nn / dd * dd == nn)%Q) by (field; lra).
  assert (Hz0 : (0 <= nn / dd)%Q)
    by (apply Qle_shift_div_l; [exact Hdd0 | lra]).
  set (z := (nn / dd)%Q) in *. clearbody z.
  pose proof (rnd_nonneg z Hz0) as H5. set (v := rnd z) in *. clearbody v.
  assert (Hgw : (N - M == N * g ∧ N - M * p == N * w)%Q).
  { split; [rewrite Hgf | rewrite Hwf]; rewrite <- Hf; ring. }
  destruct Hgw as [-> ->].
  (* bounds on the quotient, without division *)
  assert (Hc1 : (0 < (1 - κ) * (1 - u))%Q)
    by (apply Qmult_lt_0_compat; lra).
  assert (Hc2 : (0 < (1 + κ) * (1 + u))%Q)
    by (apply Qmult_lt_0_compat; lra).
  assert (Hzu : (z * g * ((1 - κ) * (1 - u))
                 <= w * ((1 + 3 * κ) * (1 + u)))%Q).
  { apply Qle_trans with (z * dd)%Q.
    - assert (z * g * ((1 - κ) * (1 - u)) == z * (g * (1 - κ) * (1 - u)))%Q
        as -> by ring.
      rewrite !(Qmult_comm z). apply Qmult_le_compat_r; [|done].
      apply Qle_trans with ((1 - f') * (1 - u))%Q; [|lra].
      apply Qmult_le_compat_r; lra.
    - rewrite Hz. apply Qle_trans with ((1 - a) * (1 + u))%Q; [lra|].
      assert (w * ((1 + 3 * κ) * (1 + u)) == w * (1 + 3 * κ) * (1 + u))%Q
        as -> by ring.
      apply Qmult_le_compat_r; lra. }
  assert (Hzl : (w * ((1 - 3 * κ) * (1 - u))
                 <= z * g * ((1 + κ) * (1 + u)))%Q).
  { apply Qle_trans with (z * dd)%Q.
    - rewrite Hz. apply Qle_trans with ((1 - a) * (1 - u))%Q; [|lra].
      assert (w * ((1 - 3 * κ) * (1 - u)) == w * (1 - 3 * κ) * (1 - u))%Q
        as -> by ring.
      apply Qmult_le_compat_r; lra.
    - assert (z * g * ((1 + κ) * (1 + u)) == z * (g * (1 + κ) * (1 + u)))%Q
        as -> by ring.
      rewrite !(Qmult_comm z). apply Qmult_le_compat_r; [|done].
      apply Qle_trans with ((1 - f') * (1 + u))%Q; [lra|].
      apply Qmult_le_compat_r; lra. }
  assert (Hup : (z * g * (1 + u) <= w * (1 + 8 * κ))%Q).
  { apply (ratio_upper (z * g) w ((1 - κ) * (1 - u)) ((1 + 3 * κ) * (1 + u))
             (1 + 8 * κ) (1 + u))%Q; [lra | done | lra | done |].
    pose proof (roundoff_up u κ u_nonneg Hu Hk). lra. }
  assert (Hlow : (w * (1 - 8 * κ) <= z * g * (1 - u))%Q).
  { apply (ratio_lower (z * g) w ((1 + κ) * (1 + u)) ((1 - 3 * κ) * (1 - u))
             (1 - 8 * κ) (1 - u))%Q; [lra | done | lra | done |].
    pose proof (roundoff_low u κ u_nonneg Hu Hk). lra. }
  assert (Hgv : (w * (1 - 8 * κ) <= g * v ∧ g * v <= w * (1 + 8 * κ))%Q).
  { assert (g * (z * (1 - u)) <= g * v)%Q
      by (rewrite !(Qmult_comm g); apply Qmult_le_compat_r; lra).
    assert (g * v <= g * (z * (1 + u)))%Q
      by (rewrite !(Qmult_comm g); apply Qmult_le_compat_r; lra).
    lra. }
  apply Qabs_Qle_condition.
  assert (HNw : (0 <= N * (g * v - w * (1 - 8 * κ)))%Q)
    by (apply Qmult_le_0_compat; lra).
  assert (HNw' : (0 <= N * (w * (1 + 8 * κ) - g * v))%Q)
    by (apply Qmult_le_0_compat; lra).
  lra.
Qed.

End Accuracy.

Lemma inject_Z_minus (a b : Z) :
  (inject_Z (a - b) == inject_Z a - inject_Z b)%Q.
Proof. unfold Z.sub. rewrite inject_Z_plus, inject_Z_opp. ring. Qed.

(** The closed window: [m] consecutive patches from the slot, wrapping;
    the slot [n] closes the same patches as the slot 0. *)
Lemma closed_periodic_window (start m n region : Z) :
  0 ≤ start ≤ n → 0 ≤ m ≤ n → 0 ≤ region < n →
  closed_periodic start m n region = ((region - start) mod n <? m).
Proof.
  intros Hs Hm Hr.
  assert (Hw : (region - start) mod n
               = if start <=? region then region - start
                 else region - start + n).
  { destruct (Z.leb_spec start region).
    - apply Z.mod_small. lia.
    - symmetry. apply (Z.mod_unique_pos _ _ (-1)); lia. }
  rewrite Hw. unfold closed_periodic.
  destruct (Z.leb_spec n (start + m - 1)) as [Hwrap|Hwrap].
  - replace ((start + m - 1) mod n) with (start + m - 1 - n)
      by (apply (Z.mod_unique_pos _ _ 1); lia).
    destruct (Z.leb_spec start region); lia.
  - destruct (Z.leb_spec start region); lia.
Qed.

Lemma count_window (start m n : Z) :
  1 ≤ n → 0 ≤ start ≤ n → 0 ≤ m ≤ n →
  count_true (λ region, (region - start) mod n <? m) (range n) = m.
Proof.
  intros Hn Hs Hm.
  destruct (Z.eq_dec start n) as [-> | Hne].
  - etrans; [|apply (count_closed_periodic 0 m n); lia].
    apply count_true_ext. intros r Hr. apply elem_of_range in Hr.
    rewrite closed_periodic_window by lia.
    replace (r - n) with (r - 0 + (-1) * n) by lia.
    by rewrite Z.mod_add by lia.
  - etrans; [|apply (count_closed_periodic start m n); lia].
    apply count_true_ext. intros r Hr. apply elem_of_range in Hr.
    by rewrite closed_periodic_window by lia.
Qed.

Lemma rounded_square_signal_periodic (rnd : Q → Q) (t closure_length : Q)
    (region m n : Z) (poaching : Q) (start : Z) :
  n ≠ 0 → Rounded.start_region rnd t closure_length n = Ok start →
  Rounded.square_signal rnd t closure_length region m n poaching "periodic"
  = if closed_periodic start m n region then Ok (Some poaching)
    else Some <$> Rounded.open_signal rnd m n poaching.
Proof.
  intros Hn Hs. unfold Rounded.square_signal.
  change (String.eqb "periodic" "periodic") with true. cbv iota.
  rewrite Hs. py_simpl. unfold end_region, closed_periodic, py_mod.
  destruct (n =? 0) eqn:E0; [lia|].
  destruct (n <=? start + m - 1); py_simpl;
    destruct (start <=? region), (region <=? _); reflexivity.
Qed.

Section Forcing.

Variable rnd : Q → Q.
Variable u : Q.
Hypothesis rnd_accurate : accurate rnd u.
Hypothesis u_nonneg : (0 <= u)%Q.

Lemma rounded_window (t closure_length : Q) (m n : Z) (poaching : Q) :
  1 ≤ n → 0 ≤ m ≤ n → (0 <= closure_length)%Q →
  (inject_Z n * u <= 1 # 100)%Q →
  ∃ start,
    Rounded.start_region rnd t closure_length n = Ok start
    ∧ 0 ≤ start ≤ n
    ∧ ∀ region, 0 ≤ region < n →
        Rounded.square_signal rnd t closure_length region m n poaching
          "periodic"
        = if (region - start) mod n <? m then Ok (Some poaching)
          else Some <$> Rounded.open_signal rnd m n poaching.
Proof.
  intros Hn Hm Hcl Hk.
  destruct (start_region_range rnd u rnd_accurate u_nonneg t closure_length n
              Hn Hcl Hk) as (start & Hstart & Hs).
  exists start. split; [done|]. split; [done|]. intros region Hr.
  rewrite (rounded_square_signal_periodic _ _ _ _ _ _ _ start) by (lia || done).
  by rewrite closed_periodic_window by lia.
Qed.

Lemma rounded_multipliers (t closure_length : Q) (m n : Z) (poaching : Q) :
  1 ≤ n → 0 ≤ m < n → (0 <= closure_length)%Q → (0 <= poaching <= 1)%Q →
  (inject_Z n * u <= 1 # 100)%Q →
  ∃ start v,
    Rounded.start_region rnd t closure_length n = Ok start
    ∧ 0 ≤ start ≤ n
    ∧ Rounded.open_signal rnd m n poaching = Ok v
    ∧ (Qabs ((inject_Z n - inject_Z m) * v
             - (inject_Z n - inject_Z m * poaching))
       <= 8 * (inject_Z n * u) * (inject_Z n - inject_Z m * poaching))%Q
    ∧ Rounded.multipliers rnd t closure_length m n poaching "periodic"
      = Ok ((λ region, if (region - start) mod n <? m then poaching else v)
              <$> range n).
Proof.
  intros Hn Hm Hcl Hp Hk.
  destruct (rounded_window t closure_length m n poaching Hn ltac:(lia) Hcl Hk)
    as (start & Hstart & Hs & Hsig).
  destruct (open_signal_accurate rnd u rnd_accurate u_nonneg m n poaching
              Hn Hm Hp Hk) as (v & Hv & Hacc).
  exists start, v. repeat split; try done; try lia.
  unfold Rounded.multipliers. apply mapM_Ok. intros region Hr.
  apply elem_of_range in Hr. unfold Rounded.multiplier.
  rewrite Hsig by done. destruct (_ <? m); [done|]. by rewrite Hv.
Qed.

End Forcing.

(** C1 (as amended): under the periodic strategy with at least one
    patch open, [0 <= m < n], poaching in [[0,1]] and a closure length
    that is not negative, in float arithmetic of unit roundoff [u]
    exactly [m] of the [n] patches are closed at every time, the [m]
    consecutive ones from the computed slot, the wraparound included;
    they return [poaching] and the others one and the same open value.
    The mean of the [n] multipliers is 1 up to rounding: it differs from
    1 by at most [8 n u]. *)
Theorem periodic_mean_within_rounding (rnd : Q → Q)
    (u t closure_length : Q) (m n : Z) (poaching : Q) :
  accurate rnd u → (0 <= u)%Q → (inject_Z n * u <= 1 # 100)%Q →
  1 ≤ n → 0 ≤ m < n → (0 <= closure_length)%Q → (0 <= poaching <= 1)%Q →
  ∃ start v l,
    Rounded.start_region rnd t closure_length n = Ok start
    ∧ 0 ≤ start ≤ n
    ∧ Rounded.open_signal rnd m n poaching = Ok v
    ∧ Rounded.multipliers rnd t closure_length m n poaching "periodic" = Ok l
    ∧ l = (λ region, if (region - start) mod n <? m then poaching else v)
            <$> range n
    ∧ count_true (λ region, (region - start) mod n <? m) (range n) = m
    ∧ (Qabs (Qsum l / inject_Z n - 1) <= 8 * (inject_Z n * u))%Q.
Proof.
  intros Hacc Hu Hk Hn Hm Hcl Hp.
  destruct (rounded_multipliers rnd u Hacc Hu t closure_length m n poaching
              Hn Hm Hcl Hp Hk) as (start & v & Hstart & Hs & Hv & Hav & Hl).
  exists start, v. eexists. split; [done|]. split; [done|]. split; [done|].
  split; [exact Hl|]. split; [done|].
  split; [apply count_window; lia|].
  rewrite (Qsum_two_valued (λ region, (region - start) mod n <? m) poaching v).
  rewrite count_window by lia. rewrite length_range.
  replace (Z.max 0 n) with n by lia.
  rewrite inject_Z_minus.
  assert (HN : (1 <= inject_Z n)%Q) by (by rewrite <- (Zle_Qle 1)).
  assert (HM0 : (0 <= inject_Z m)%Q) by (rewrite <- (Zle_Qle 0); lia).
  assert (HMN : (inject_Z m <= inject_Z n)%Q) by (rewrite <- Zle_Qle; lia).
  set (N := inject_Z n) in *. set (M := inject_Z m) in *.
  set (p := poaching) in *. clearbody N M p.
  assert (Hκ0 : (0 <= N * u)%Q) by (apply Qmult_le_0_compat; lra).
  set (κ := (N * u)%Q) in *. clearbody κ.
  apply Qabs_Qle_condition in Hav.
  assert (HMp : (0 <= M * p ∧ M * p <= M)%Q).
  { split; [apply Qmult_le_0_compat; lra|].
    assert (M * p <= M * 1)%Q; [|lra].
    rewrite !(Qmult_comm M). apply Qmult_le_compat_r; lra. }
  assert (Hb : (8 * κ * (N - M * p) <= 8 * κ * N)%Q).
  { rewrite !(Qmult_comm (8 * κ)). apply Qmult_le_compat_r; lra. }
  set (D := ((N - M) * v - (N - M * p))%Q) in *.
  assert (HD : ((M * p + (N - M) * v) / N - 1 == D / N)%Q)
    by (unfold D; field; lra).
  rewrite HD. clearbody D. apply Qabs_Qle_condition. split.
  - apply Qle_shift_div_l; [lra|]. lra.
  - apply Qle_shift_div_r; [lra|]. lra.
Qed.

Lemma periodic_mean_within_rounding_witness :
  ∃ start v l,
    Rounded.start_region round53 3.5 1 3 = Ok start
    ∧ 0 ≤ start ≤ 3
    ∧ Rounded.open_signal round53 1 3 0 = Ok v
    ∧ Rounded.multipliers round53 3.5 1 1 3 0 "periodic" = Ok l
    ∧ l = (λ region, if (region - start) mod 3 <? 1 then 0%Q else v)
            <$> range 3
    ∧ count_true (λ region, (region - start) mod 3 <? 1) (range 3) = 1
    ∧ (Qabs (Qsum l / inject_Z 3 - 1) <= 8 * (inject_Z 3 * u64))%Q.
Proof.
  apply (periodic_mean_within_rounding round53 u64 3.5 1 1 3 0).
  - exact round53_accurate.
  - by vm_compute.
  - by vm_compute.
  - lia.
  - lia.
  - by vm_compute.
  - split; by vm_compute.
Defined.

(** C1 as stated fails twice.  With every patch closed the mean is
    [poaching]: 0.1 for [n = m = 4].  And with a patch open the mean is
    not exactly 1 in binary64: for [n = 3], [m = 1], [poaching = 0] the
    open value is [3/2 - 2^-52], the multipliers are that twice and 0,
    and their mean is [1 - 2^-52 * 2/3]. *)
Lemma periodic_mean_is_not_exactly_one :
  Rounded.multipliers round53 3.5 1 4 4 (round53 0.1) "periodic"
  = Ok [round53 0.1; round53 0.1; round53 0.1; round53 0.1]
  ∧ ¬ (Qsum [round53 0.1; round53 0.1; round53 0.1; round53 0.1]
       / inject_Z 4 == 1)%Q
  ∧ ∃ v l,
      Rounded.open_signal round53 1 3 0 = Ok v
      ∧ (v == (3 # 2) - pow2 (-52))%Q
      ∧ Rounded.multipliers round53 3.5 1 1 3 0 "periodic" = Ok l
      ∧ (Qsum l / inject_Z 3 == 1 - pow2 (-52) * (2 # 3))%Q
      ∧ ¬ (Qsum l / inject_Z 3 == 1)%Q.
Proof.
  split; [vm_compute; reflexivity|].
  split; [by vm_compute|].
  eexists. eexists. split; [vm_compute; reflexivity|].
  split; [by vm_compute|].
  split; [vm_compute; reflexivity|].
  split; by vm_compute.
Qed.

(** With exact arithmetic, [u = 0], the mean is exactly 1. *)
Lemma periodic_mean_exact_arithmetic (t closure_length : Q) (m n : Z)
    (poaching : Q) :
  1 ≤ n → 0 ≤ m < n → (0 <= closure_length)%Q → (0 <= poaching <= 1)%Q →
  ∃ l, Rounded.multipliers (λ x, x) t closure_length m n poaching "periodic"
       = Ok l
       ∧ (Qsum l / inject_Z n == 1)%Q.
Proof.
  intros Hn Hm Hcl Hp.
  assert (Hacc : accurate (λ x, x) 0).
  { intros x. assert (x - x == 0)%Q as -> by ring. by vm_compute. }
  assert (Hk : (inject_Z n * 0 <= 1 # 100)%Q) by lra.
  destruct (rounded_multipliers (λ x, x) 0 Hacc (Qle_refl 0) t closure_length
              m n poaching Hn Hm Hcl Hp Hk)
    as (start & v & _ & Hs & _ & Hav & Hl).
  exists ((λ region, if (region - start) mod n <? m then poaching else v)
            <$> range n).
  split; [done|].
  rewrite (Qsum_two_valued (λ region, (region - start) mod n <? m) poaching v).
  rewrite count_window by lia. rewrite length_range.
  replace (Z.max 0 n) with n by lia.
  rewrite inject_Z_minus.
  assert (HN : (1 <= inject_Z n)%Q) by (by rewrite <- (Zle_Qle 1)).
  apply Qabs_Qle_condition in Hav.
  field_simplify_eq; [|lra]. lra.
Qed.

(** X1: in float arithmetic the periodic window is the [m] consecutive
    patch indices from the slot the code computes, wrapping modulo [n].
    The slot is one of [0 .. n]; the slot [n], reached when the
    remainder rounds up to a whole period, closes the same patches as
    the slot 0. *)
Theorem periodic_window (rnd : Q → Q) (u t closure_length : Q) (m n : Z)
    (poaching : Q) :
  accurate rnd u → (0 <= u)%Q → (inject_Z n * u <= 1 # 100)%Q →
  1 ≤ n → 0 ≤ m ≤ n → (0 <= closure_length)%Q →
  ∃ start,
    Rounded.start_region rnd t closure_length n = Ok start
    ∧ 0 ≤ start ≤ n
    ∧ ∀ region, 0 ≤ region < n →
        Rounded.square_signal rnd t closure_length region m n poaching
          "periodic"
        = if (region - start) mod n <? m then Ok (Some poaching)
          else Some <$> Rounded.open_signal rnd m n poaching.
Proof.
  intros Hacc Hu Hk Hn Hm Hcl. by apply (rounded_window rnd u Hacc Hu).
Qed.

Lemma periodic_window_witness :
  ∃ start,
    Rounded.start_region round53 (round53 0.4) (round53 0.1) 3 = Ok start
    ∧ 0 ≤ start ≤ 3
    ∧ ∀ region, 0 ≤ region < 3 →
        Rounded.square_signal round53 (round53 0.4) (round53 0.1) region 1 3
          0 "periodic"
        = if (region - start) mod 3 <? 1 then Ok (Some 0%Q)
          else Some <$> Rounded.open_signal round53 1 3 0.
Proof.
  apply (periodic_window round53 u64 (round53 0.4) (round53 0.1) 1 3 0).
  - exact round53_accurate.
  - by vm_compute.
  - by vm_compute.
  - lia.
  - lia.
  - by vm_compute.
Defined.

(** The slot itself depends on the rounding: at [t = 0.4] with closures
    of length 0.1 on 3 patches binary64 gives slot 0 where exact
    arithmetic on the same numbers gives slot 1, and just below a whole
    period it gives the slot [n]. *)
Lemma periodic_slot_rounds :
  Rounded.start_region round53 (round53 0.4) (round53 0.1) 3 = Ok 0
  ∧ start_region (round53 0.4) (round53 0.1) 3 = Ok 1
  ∧ Rounded.start_region round53
      (round53 (- (1 # 100000000000000000000))) 1 4 = Ok 4.
Proof. repeat split; vm_compute; reflexivity. Qed.

(** X4: with at least one patch open and [poaching] in [[0,1]], the
    multiplier of a patch is either [poaching] (closed) or, up to a
    relative rounding error of [8 n u], a value between 1 and [n/(n-m)]
    (open), under both strategies. *)
Theorem signal_range (rnd : Q → Q) (u t closure_length : Q)
    (region m n : Z) (poaching : Q) (mgmt_strat : string) :
  accurate rnd u → (0 <= u)%Q → (inject_Z n * u <= 1 # 100)%Q →
  0 ≤ m < n → 0 ≤ region < n → (0 <= closure_length)%Q →
  (0 <= poaching <= 1)%Q →
  mgmt_strat = "periodic" ∨ mgmt_strat = "MPA" →
  ∃ v, Rounded.square_signal rnd t closure_length region m n poaching
         mgmt_strat = Ok (Some v)
       ∧ (v = poaching
          ∨ (1 - 8 * (inject_Z n * u) <= v
             ∧ (inject_Z n - inject_Z m) * v
               <= inject_Z n * (1 + 8 * (inject_Z n * u)))%Q).
Proof.
  intros Hacc Hu Hk Hm Hr Hcl Hp Hstrat.
  assert (Hn : 1 ≤ n) by lia.
  destruct (open_signal_accurate rnd u Hacc Hu m n poaching Hn Hm Hp Hk)
    as (v & Hv & Hav).
  assert (HN : (1 <= inject_Z n)%Q) by (by rewrite <- (Zle_Qle 1)).
  assert (HM0 : (0 <= inject_Z m)%Q) by (rewrite <- (Zle_Qle 0); lia).
  assert (HMN : (inject_Z m + 1 <= inject_Z n)%Q).
  { assert (H : (inject_Z (m + 1) <= inject_Z n)%Q)
      by (rewrite <- Zle_Qle; lia).
    rewrite inject_Z_plus in H. exact H. }
  set (N := inject_Z n) in *. set (M := inject_Z m) in *.
  assert (Hκ0 : (0 <= N * u)%Q) by (apply Qmult_le_0_compat; lra).
  set (κ := (N * u)%Q) in *.
  assert (Hopen : (1 - 8 * κ <= v ∧ (N - M) * v <= N * (1 + 8 * κ))%Q).
  { clearbody κ N M. apply Qabs_Qle_condition in Hav.
    assert (HMp : (0 <= M * poaching ∧ M * poaching <= M)%Q).
    { split; [apply Qmult_le_0_compat; lra|].
      assert (M * poaching <= M * 1)%Q; [|lra].
      rewrite !(Qmult_comm M). apply Qmult_le_compat_r; lra. }
    assert (H1 : (8 * κ * (N - M * poaching) <= 8 * κ * N)%Q).
    { rewrite !(Qmult_comm (8 * κ)). apply Qmult_le_compat_r; lra. }
    assert (H2 : (8 * κ * (N - M) <= 8 * κ * (N - M * poaching))%Q).
    { rewrite !(Qmult_comm (8 * κ)). apply Qmult_le_compat_r; lra. }
    split; [|lra].
    apply Qmult_le_l with (z := (N - M)%Q); [lra|].
    assert (0 <= (M - M * poaching) * (1 - 8 * κ))%Q
      by (apply Qmult_le_0_compat; lra).
    lra. }
  destruct Hstrat as [-> | ->].
  - destruct (rounded_window rnd u Hacc Hu t closure_length m n poaching
                Hn ltac:(lia) Hcl Hk) as (start & _ & _ & Hsig).
    rewrite Hsig by done. destruct (_ <? m).
    + exists poaching. split; [done | by left].
    + rewrite Hv. exists v. split; [done | by right].
  - unfold Rounded.square_signal. cbn [String.eqb Ascii.eqb Bool.eqb].
    change (String.eqb "MPA" "periodic") with false.
    change (String.eqb "MPA" "MPA") with true. cbv iota.
    destruct (Z.eqb_spec m 0) as [-> | Hm0].
    { exists 1%Q. split; [done|]. right. unfold M.
      change (inject_Z 0) with 0%Q. clearbody κ N.
      assert (0 <= N * (8 * κ))%Q by (apply Qmult_le_0_compat; lra).
      split; lra. }
    destruct (Z.eqb_spec m n); [lia|].
    destruct (region <=? m).
    + exists poaching. split; [done | by left].
    + rewrite Hv. exists v. split; [done | by right].
Qed.

Lemma signal_range_witness :
  ∃ v, Rounded.square_signal round53 3.5 1 2 4 5 0 "periodic" = Ok (Some v)
       ∧ (v = 0%Q
          ∨ (1 - 8 * (inject_Z 5 * u64) <= v
             ∧ (inject_Z 5 - inject_Z 4) * v
               <= inject_Z 5 * (1 + 8 * (inject_Z 5 * u64)))%Q).
Proof.
  apply (signal_range round53 u64 3.5 1 2 4 5 0 "periodic").
  - exact round53_accurate.
  - by vm_compute.
  - by vm_compute.
  - lia.
  - lia.
  - by vm_compute.
  - split; by vm_compute.
  - by left.
Defined.

(** ** Dispersal in rounded arithmetic *)

Lemma growth_ge_1 (u : Q) (k : nat) : (0 <= u)%Q → (1 <= growth u k)%Q.
Proof.
  intros Hu. induction k as [|k IH]; cbn [growth]; [lra|].
  assert (0 <= u * (growth u k - 1))%Q by (apply Qmult_le_0_compat; lra).
  lra.
Qed.

Lemma growth_succ_ge (u : Q) (k : nat) :
  (0 <= u)%Q → (1 + u <= growth u (S k))%Q.
Proof.
  intros Hu. cbn [growth]. pose proof (growth_ge_1 u k Hu).
  assert (0 <= (1 + u) * (growth u k - 1))%Q by (apply Qmult_le_0_compat; lra).
  lra.
Qed.

(** One more term: the product is rounded, then the addition. *)
Lemma accumulate_step (u g acc S T t p r : Q) :
  (0 <= u → 1 + u <= g → Qabs S <= T →
   Qabs (acc - S) <= (g - 1) * T →
   Qabs (p - t) <= u * Qabs t →
   Qabs (r - (acc + p)) <= u * Qabs (acc + p) →
   Qabs (r - (S + t)) <= ((1 + u) * g - 1) * (T + Qabs t))%Q.
Proof.
  intros Hu Hg HS Hacc Hp Hr.
  pose proof (Qabs_nonneg t) as Hτ. set (τ := Qabs t) in *.
  assert (Ht : (- τ <= t <= τ)%Q).
  { apply Qabs_Qle_condition. unfold τ. lra. }
  clearbody τ.
  apply Qabs_Qle_condition in HS, Hacc, Hp.
  assert (HT : (0 <= T)%Q) by lra.
  assert (HgT : (0 <= (g - 1) * T)%Q) by (apply Qmult_le_0_compat; lra).
  assert (Huτ : (0 <= u * τ)%Q) by (apply Qmult_le_0_compat; lra).
  assert (Hs : (Qabs (acc + p) <= g * T + (1 + u) * τ)%Q).
  { apply Qabs_Qle_condition. lra. }
  assert (Hus : (u * Qabs (acc + p) <= u * (g * T + (1 + u) * τ))%Q).
  { rewrite !(Qmult_comm u). apply Qmult_le_compat_r; assumption. }
  assert (Hr' : (Qabs (r - (acc + p)) <= u * (g * T + (1 + u) * τ))%Q)
    by lra.
  clear Hr Hus Hs. apply Qabs_Qle_condition in Hr'.
  assert (Hslack : (0 <= τ * ((1 + u) * (g - (1 + u))))%Q).
  { apply Qmult_le_0_compat; [lra|]. apply Qmult_le_0_compat; lra. }
  apply Qabs_Qle_condition.
  assert (Hexp : ((( 1 + u) * g - 1) * (T + τ)
                  == u * (g * T + (1 + u) * τ) + (g - 1) * T + u * τ
                     + τ * ((1 + u) * (g - (1 + u))))%Q) by ring.
  rewrite Hexp. lra.
Qed.

Section Dispersal.

Variable rnd : Q → Q.
Variable u : Q.
Hypothesis rnd_accurate : accurate rnd u.
Hypothesis u_nonneg : (0 <= u)%Q.

(** The running sum of [k] products differs from the exact sum by at
    most [(1+u)^(k+1) - 1] times the sum of the absolute values. *)
Lemma accumulate_error (f : Z → Q) (js : list Z) (k : nat) (acc S T : Q) :
  (Qabs S <= T)%Q →
  (Qabs (acc - S) <= (growth u (Datatypes.S k) - 1) * T)%Q →
  (Qabs (foldl (λ a j, rnd (a + rnd (f j))%Q) acc js
         - (S + Qsum (f <$> js)))
   <= (growth u (Datatypes.S (k + length js)) - 1)
      * (T + Qsum ((λ j, Qabs (f j)) <$> js)))%Q.
Proof.
  revert k acc S T.
  induction js as [|j js IH]; intros k acc S T HS Hacc; cbn [foldl].
  - cbn [fmap list_fmap length]. unfold Qsum. cbn [foldr].
    rewrite Nat.add_0_r.
    assert (S + 0 == S)%Q as -> by ring.
    assert (T + 0 == T)%Q as -> by ring. exact Hacc.
  - rewrite !fmap_cons, !Qsum_cons. cbn [length].
    replace (k + Datatypes.S (length js))%nat
      with (Datatypes.S k + length js)%nat by lia.
    assert (S + (f j + Qsum (f <$> js)) == (S + f j) + Qsum (f <$> js))%Q
      as -> by ring.
    assert (T + (Qabs (f j) + Qsum ((λ j, Qabs (f j)) <$> js))
            == (T + Qabs (f j)) + Qsum ((λ j, Qabs (f j)) <$> js))%Q
      as -> by ring.
    apply IH.
    + eapply Qle_trans; [apply Qabs_triangle|]. pose proof (Qabs_nonneg (f j)).
      lra.
    + change (growth u (Datatypes.S (Datatypes.S k)))
        with ((1 + u) * growth u (Datatypes.S k))%Q.
      apply (accumulate_step u (growth u (Datatypes.S k)) acc S T (f j)
               (rnd (f j)) (rnd (acc + rnd (f j)))); try assumption.
      * by apply growth_succ_ge.
      * apply rnd_accurate.
      * apply rnd_accurate.
Qed.


Lemma rounded_add_influx_value (n : Z) (fd : Q) (X : list Q) (i j : Z)
    (P_influx : list Q) :
  n ≤ Z.of_nat (length X) → 0 ≤ i < n → 0 ≤ j < n →
  Z.of_nat (length P_influx) = n →
  Rounded.add_influx rnd (Rounded.build_kP rnd n fd) X i j P_influx
  = Ok (<[Z.to_nat i :=
           rnd (at_ P_influx i
                + rnd ((if i =? j
                        then rnd (- fd * inject_Z (n - 1)) else fd)
                       * at_ X j))%Q]> P_influx).
Proof.
  intros HX Hi Hj Hlen. unfold Rounded.add_influx.
  rewrite getitem_at by lia. py_simpl.
  unfold Rounded.build_kP. rewrite getitem_range_fmap by done. py_simpl.
  rewrite getitem_range_fmap by done. py_simpl.
  rewrite getitem_at by lia. py_simpl. apply setitem_insert. lia.
Qed.

Lemma rounded_influx_inner (n : Z) (fd : Q) (X : list Q) (i : Z)
    (js : list Z) (P_influx : list Q) :
  n ≤ Z.of_nat (length X) → 0 ≤ i < n → (∀ j, j ∈ js → 0 ≤ j < n) →
  Z.of_nat (length P_influx) = n →
  loop js (Rounded.add_influx rnd (Rounded.build_kP rnd n fd) X i) P_influx
  = Ok (<[Z.to_nat i :=
           rounded_influx rnd (rnd (- fd * inject_Z (n - 1))) fd X i
             (at_ P_influx i) js]> P_influx).
Proof.
  intros HX Hi. revert P_influx.
  induction js as [|j js IH]; intros P_influx Hjs Hlen; cbn [loop].
  - unfold rounded_influx. cbn [foldl]. f_equal.
    symmetry. apply list_insert_id. unfold at_.
    destruct (lookup_lt_is_Some_2 P_influx (Z.to_nat i)) as [x Hx]; [lia|].
    by rewrite (nth_lookup_Some _ _ _ _ Hx).
  - rewrite rounded_add_influx_value;
      [|done|done|apply Hjs, list_elem_of_here|done].
    py_simpl. rewrite IH.
    + rewrite (at_insert X P_influx i) by lia. rewrite list_insert_insert_eq. reflexivity.
    + intros j' Hj'. apply Hjs. by apply list_elem_of_further.
    + by rewrite length_insert.
Qed.

Lemma length_foldl_insert (F : Z → Q → Q) (is_ : list Z) (P : list Q) :
  length (foldl (λ P i, <[Z.to_nat i := F i (at_ P i)]> P) P is_) = length P.
Proof.
  revert P. induction is_ as [|i is_ IH]; intros P; cbn [foldl]; [done|].
  by rewrite IH, length_insert.
Qed.

Lemma rounded_influx_outer (n : Z) (fd : Q) (X : list Q) (is_ : list Z)
    (P_influx : list Q) :
  n ≤ Z.of_nat (length X) → (∀ i, i ∈ is_ → 0 ≤ i < n) →
  Z.of_nat (length P_influx) = n →
  loop is_
    (λ i P, loop (range n)
              (Rounded.add_influx rnd (Rounded.build_kP rnd n fd) X i) P)
    P_influx
  = Ok (foldl (λ P i, <[Z.to_nat i :=
                 rounded_influx rnd (rnd (- fd * inject_Z (n - 1))) fd X i
                   (at_ P i) (range n)]> P) P_influx is_).
Proof.
  intros HX. revert P_influx.
  induction is_ as [|i is_ IH]; intros P_influx His Hlen; cbn [loop foldl].
  - reflexivity.
  - rewrite rounded_influx_inner; try done.
    + py_simpl. apply IH.
      * intros i' Hi'. apply His. by apply list_elem_of_further.
      * by rewrite length_insert.
    + apply His, list_elem_of_here.
    + intros j Hj. by apply elem_of_range.
Qed.

End Dispersal.

(** Filling a list of zeros entry by entry. *)
Lemma fill_prefix (F : Z → Q → Q) (n : Z) (k : nat) :
  (Z.of_nat k ≤ n) →
  foldl (λ P i, <[Z.to_nat i := F i (at_ P i)]> P) (times 0%Q n)
    (range (Z.of_nat k))
  = ((λ i, F i 0%Q) <$> range (Z.of_nat k))
    ++ replicate (Z.to_nat n - k) 0%Q.
Proof.
  induction k as [|k IH]; intros Hk.
  - simpl. unfold times. f_equal. lia.
  - rewrite range_succ, foldl_app, IH by lia. cbn [foldl].
    assert (Hlen : length ((λ i, F i 0%Q) <$> range (Z.of_nat k)) = k).
    { unfold range. by rewrite !length_fmap, length_seq, Nat2Z.id. }
    assert (Hat : at_ (((λ i, F i 0%Q) <$> range (Z.of_nat k))
                       ++ replicate (Z.to_nat n - k) 0%Q) (Z.of_nat k) = 0%Q).
    { unfold at_. rewrite Nat2Z.id. apply nth_lookup_Some.
      rewrite lookup_app_r by lia. rewrite Hlen, Nat.sub_diag.
      apply lookup_replicate_2. lia. }
    rewrite Hat, Nat2Z.id.
    replace k with (length ((λ i, F i 0%Q) <$> range (Z.of_nat k)) + 0)%nat
      at 1 by (rewrite Hlen; lia).
    rewrite insert_app_r.
    replace (Z.to_nat n - k)%nat with (S (Z.to_nat n - S k)) by lia.
    cbn [replicate]. cbn [list_insert insert]. rewrite fmap_app, <- app_assoc.
    reflexivity.
Qed.

(** What the two loops of [patch_system] leave in [P_influx]. *)
Lemma rounded_P_influx_value (rnd : Q → Q) (n : Z) (fd : Q) (X : list Q) :
  0 ≤ n → n ≤ Z.of_nat (length X) →
  Rounded.P_influx rnd n (Rounded.build_kP rnd n fd) X
  = Ok ((λ i, rounded_influx rnd (rnd (- fd * inject_Z (n - 1))%Q) fd X i
                0%Q (range n)) <$> range n).
Proof.
  intros Hn HX. unfold Rounded.P_influx.
  rewrite rounded_influx_outer; [|done| |by apply length_times].
  2: { intros i Hi. by apply elem_of_range. }
  f_equal.
  pose proof (fill_prefix
                (λ i a, rounded_influx rnd (rnd (- fd * inject_Z (n - 1))%Q)
                          fd X i a (range n)) n (Z.to_nat n)) as H.
  rewrite Z2Nat.id in H by lia. rewrite H by lia.
  rewrite Nat.sub_diag. apply app_nil_r.
Qed.

(** ** Sums over a matrix of two values *)

Lemma Qsum_two_entry (d fd : Q) (w : Z → Q) (i n : Z) :
  0 ≤ i < n →
  (Qsum ((λ j, (if i =? j then d else fd) * w j) <$> range n)
   == fd * Qsum (w <$> range n) + (d - fd) * w i)%Q.
Proof.
  intros Hi.
  rewrite (Qsum_fmap_ext _
    (λ j, fd * w j + (d - fd) * (if i =? j then w j else 0))%Q).
  2: { intros j _. destruct (i =? j); ring. }
  rewrite Qsum_affine.
  replace n with (Z.of_nat (Z.to_nat n)) at 2 by lia.
  rewrite Qsum_pick by lia.
  destruct (Z.ltb_spec i (Z.of_nat (Z.to_nat n))); [|lia]. ring.
Qed.

Lemma Qsum_two_entry_line (d fd : Q) (i n : Z) :
  0 ≤ i < n →
  (Qsum ((λ j, if i =? j then d else fd) <$> range n)
   == d + inject_Z (n - 1) * fd)%Q.
Proof.
  intros Hi.
  rewrite (Qsum_fmap_ext _
    (λ j, (if i =? j then d else fd) * (λ _, 1) j)%Q) by (intros; ring).
  rewrite Qsum_two_entry, Qsum_ones, length_range by done.
  replace (Z.max 0 n) with n by lia. rewrite inject_Z_minus. ring.
Qed.

Lemma Qsum_two_entry_all (d fd : Q) (w : Z → Q) (n : Z) :
  0 ≤ n →
  (Qsum ((λ i, Qsum ((λ j, (if i =? j then d else fd) * w j) <$> range n))
           <$> range n)
   == (d + inject_Z (n - 1) * fd) * Qsum (w <$> range n))%Q.
Proof.
  intros Hn.
  rewrite (Qsum_fmap_ext _
    (λ i, (fd * Qsum (w <$> range n)) * (λ _, 1) i + (d - fd) * w i)%Q).
  2: { intros i Hi. apply elem_of_range in Hi.
       rewrite Qsum_two_entry by done. ring. }
  rewrite Qsum_affine, Qsum_ones, length_range.
  replace (Z.max 0 n) with n by lia. rewrite inject_Z_minus. ring.
Qed.

Lemma Qsum_scale (c : Q) (f : Z → Q) (l : list Z) :
  (Qsum ((λ r, c * f r) <$> l) == c * Qsum (f <$> l))%Q.
Proof.
  induction l as [|r l IH].
  - unfold Qsum. cbn [fmap list_fmap foldr]. ring.
  - rewrite !fmap_cons, !Qsum_cons, IH. ring.
Qed.

Lemma Qsum_close (f g h : Z → Q) (l : list Z) :
  (∀ r, r ∈ l → (Qabs (f r - g r) <= h r)%Q) →
  (Qabs (Qsum (f <$> l) - Qsum (g <$> l)) <= Qsum (h <$> l))%Q.
Proof.
  induction l as [|r l IH]; intros H.
  - unfold Qsum. cbn [fmap list_fmap foldr]. by vm_compute.
  - rewrite !fmap_cons, !Qsum_cons.
    assert (f r + Qsum (f <$> l) - (g r + Qsum (g <$> l))
            == (f r - g r) + (Qsum (f <$> l) - Qsum (g <$> l)))%Q as -> by ring.
    eapply Qle_trans; [apply Qabs_triangle|].
    apply Qplus_le_compat.
    + apply H, list_elem_of_here.
    + apply IH. intros r' Hr'. apply H. by apply list_elem_of_further.
Qed.

Lemma Qabs_Qsum (f : Z → Q) (l : list Z) :
  (Qabs (Qsum (f <$> l)) <= Qsum ((λ r, Qabs (f r)) <$> l))%Q.
Proof.
  induction l as [|r l IH].
  - unfold Qsum. cbn [fmap list_fmap foldr]. by vm_compute.
  - rewrite !fmap_cons, !Qsum_cons.
    eapply Qle_trans; [apply Qabs_triangle|].
    apply Qplus_le_compat; [apply Qle_refl | exact IH].
Qed.

Lemma Qsum_abs_nonneg (f : Z → Q) (l : list Z) :
  (0 <= Qsum ((λ r, Qabs (f r)) <$> l))%Q.
Proof.
  eapply Qle_trans; [apply Qabs_nonneg | apply Qabs_Qsum].
Qed.

(** The rounding of the diagonal and of a row of sums, put together. *)
Lemma influx_bound (u G B D A ρ W P : Q) :
  (0 <= u → 1 <= G → 0 <= B → D <= (1 + u) * B → Qabs ρ <= u * B →
   Qabs W <= A →
   Qabs (P - ρ * W) <= (G - 1) * ((D + B) * A) →
   Qabs P <= B * (u + (2 + u) * (G - 1)) * A)%Q.
Proof.
  intros Hu HG HB HD Hρ HW HE.
  assert (HA : (0 <= A)%Q).
  { eapply Qle_trans; [apply Qabs_nonneg | exact HW]. }
  assert (E : (P == (P - ρ * W) + ρ * W)%Q) by ring.
  rewrite E. eapply Qle_trans; [apply Qabs_triangle|].
  rewrite (Qabs_Qmult ρ W).
  assert (H1 : (Qabs ρ * Qabs W <= u * B * A)%Q).
  { apply Qle_trans with (u * B * Qabs W)%Q.
    - apply Qmult_le_compat_r; [assumption | apply Qabs_nonneg].
    - rewrite !(Qmult_comm (u * B)). apply Qmult_le_compat_r; [assumption|].
      apply Qmult_le_0_compat; assumption. }
  assert (H2 : ((G - 1) * ((D + B) * A) <= (G - 1) * ((2 + u) * B * A))%Q).
  { rewrite !(Qmult_comm (G - 1)). apply Qmult_le_compat_r; [|lra].
    apply Qmult_le_compat_r; [lra | assumption]. }
  assert (E2 : (B * (u + (2 + u) * (G - 1)) * A
                == (G - 1) * ((2 + u) * B * A) + u * B * A)%Q) by ring.
  rewrite E2. lra.
Qed.

Section Conservation.

Variable rnd : Q → Q.
Variable u : Q.
Hypothesis rnd_accurate : accurate rnd u.
Hypothesis u_nonneg : (0 <= u)%Q.

(** The diagonal entry is [-(n-1) frac_dispersed], rounded once. *)
Lemma diagonal_residual (fd : Q) (n : Z) :
  1 ≤ n →
  (Qabs (rnd (- fd * inject_Z (n - 1)) + inject_Z (n - 1) * fd)
   <= u * (inject_Z (n - 1) * Qabs fd))%Q.
Proof.
  intros Hn. pose proof (rnd_accurate (- fd * inject_Z (n - 1))%Q) as H.
  assert (Hk : (0 <= inject_Z (n - 1))%Q) by (rewrite <- (Zle_Qle 0); lia).
  rewrite Qabs_Qmult, Qabs_opp, (Qabs_pos (inject_Z (n - 1))) in H by done.
  assert (E : (rnd (- fd * inject_Z (n - 1)) - - fd * inject_Z (n - 1)
               == rnd (- fd * inject_Z (n - 1)) + inject_Z (n - 1) * fd)%Q)
    by ring.
  rewrite E in H. rewrite (Qmult_comm (inject_Z (n - 1)) (Qabs fd)). exact H.
Qed.

Lemma diagonal_size (fd : Q) (n : Z) :
  1 ≤ n →
  (Qabs (rnd (- fd * inject_Z (n - 1)))
   <= (1 + u) * (inject_Z (n - 1) * Qabs fd))%Q.
Proof.
  intros Hn. pose proof (diagonal_residual fd n Hn) as H.
  set (d := rnd (- fd * inject_Z (n - 1))%Q) in *. clearbody d.
  assert (Hk : (0 <= inject_Z (n - 1))%Q) by (rewrite <- (Zle_Qle 0); lia).
  set (k := inject_Z (n - 1)) in *. clearbody k.
  assert (E : (d == (d + k * fd) + - (k * fd))%Q) by ring.
  rewrite E. eapply Qle_trans; [apply Qabs_triangle|].
  rewrite Qabs_opp, Qabs_Qmult, (Qabs_pos k) by done. lra.
Qed.

(** One patch: the computed influx against the exact sum of its row. *)
Lemma rounded_influx_error (d fd : Q) (X : list Q) (i n : Z) :
  (Qabs (rounded_influx rnd d fd X i 0 (range n)
         - Qsum ((λ j, (if i =? j then d else fd) * at_ X j) <$> range n))
   <= (growth u (S (Z.to_nat n)) - 1)
      * Qsum ((λ j, (if i =? j then Qabs d else Qabs fd) * Qabs (at_ X j))
                <$> range n))%Q.
Proof.
  pose proof (accumulate_error rnd u rnd_accurate u_nonneg
                (λ j, (if i =? j then d else fd) * at_ X j)%Q
                (range n) 0 0 0 0) as H.
  cbv beta in H.
  assert (Hlen : length (range n) = Z.to_nat n).
  { unfold range. by rewrite length_fmap, length_seq. }
  rewrite Hlen, !Qplus_0_l in H. cbn [Nat.add] in H.
  unfold rounded_influx.
  rewrite (Qsum_fmap_ext
             (λ j, (if i =? j then Qabs d else Qabs fd) * Qabs (at_ X j))%Q
             (λ j, Qabs ((if i =? j then d else fd) * at_ X j))%Q).
  2: { intros j _. rewrite Qabs_Qmult. destruct (i =? j); reflexivity. }
  apply H.
  - by vm_compute.
  - assert (Qabs (0 - 0) == 0)%Q as -> by reflexivity. lra.
Qed.

(** All patches: the total influx is zero up to rounding. *)
Lemma rounded_influx_total (fd : Q) (X : list Q) (n : Z) :
  1 ≤ n →
  (Qabs (Qsum ((λ i, rounded_influx rnd (rnd (- fd * inject_Z (n - 1))) fd X
                       i 0 (range n)) <$> range n))
   <= inject_Z (n - 1) * Qabs fd * influx_error u n
      * Qsum ((λ j, Qabs (at_ X j)) <$> range n))%Q.
Proof.
  intros Hn.
  pose proof (diagonal_residual fd n Hn) as Hρ.
  pose proof (diagonal_size fd n Hn) as Hd.
  set (d := rnd (- fd * inject_Z (n - 1))%Q) in *. clearbody d.
  pose proof (Qsum_close
    (λ i, rounded_influx rnd d fd X i 0 (range n))
    (λ i, Qsum ((λ j, (if i =? j then d else fd) * at_ X j)%Q <$> range n))
    (λ i, (growth u (S (Z.to_nat n)) - 1)
          * Qsum ((λ j, (if i =? j then Qabs d else Qabs fd)
                        * Qabs (at_ X j)) <$> range n))%Q
    (range n) (λ i _, rounded_influx_error d fd X i n)) as HE.
  cbv beta in HE.
  rewrite (Qsum_scale (growth u (S (Z.to_nat n)) - 1)) in HE.
  rewrite (Qsum_two_entry_all (Qabs d) (Qabs fd) (λ j, Qabs (at_ X j)))
    in HE by lia.
  rewrite (Qsum_two_entry_all d fd (at_ X)) in HE by lia.
  pose proof (Qabs_Qsum (at_ X) (range n)) as HW.
  pose proof (growth_ge_1 u (S (Z.to_nat n)) u_nonneg) as HG.
  assert (Hk : (0 <= inject_Z (n - 1))%Q) by (rewrite <- (Zle_Qle 0); lia).
  unfold influx_error.
  apply (influx_bound u _ _ (Qabs d) _ (d + inject_Z (n - 1) * fd)
           (Qsum (at_ X <$> range n))); try assumption.
  - apply Qmult_le_0_compat; [assumption | apply Qabs_nonneg].
Qed.

(** One patch at a uniform density [x]. *)
Lemma rounded_influx_uniform (fd x : Q) (X : list Q) (i n : Z) :
  0 ≤ i < n → (∀ j, 0 ≤ j < n → (at_ X j == x)%Q) →
  (Qabs (rounded_influx rnd (rnd (- fd * inject_Z (n - 1))) fd X i 0
           (range n))
   <= inject_Z (n - 1) * Qabs fd * influx_error u n * Qabs x)%Q.
Proof.
  intros Hi Hx.
  pose proof (diagonal_residual fd n ltac:(lia)) as Hρ.
  pose proof (diagonal_size fd n ltac:(lia)) as Hd.
  set (d := rnd (- fd * inject_Z (n - 1))%Q) in *. clearbody d.
  pose proof (rounded_influx_error d fd X i n) as HE.
  rewrite (Qsum_two_entry (Qabs d) (Qabs fd) (λ j, Qabs (at_ X j))) in HE
    by done.
  rewrite (Qsum_two_entry d fd (at_ X)) in HE by done.
  rewrite (Qsum_fmap_ext (λ j, Qabs (at_ X j)) (λ _, Qabs x)) in HE.
  2: { intros j Hj. apply elem_of_range in Hj. by rewrite (Hx j Hj). }
  rewrite (Qsum_fmap_ext (at_ X) (λ _, x)) in HE.
  2: { intros j Hj. apply elem_of_range in Hj. by apply Hx. }
  rewrite !Qsum_const, length_range, (Hx i Hi) in HE.
  replace (Z.max 0 n) with n in HE by lia.
  pose proof (growth_ge_1 u (S (Z.to_nat n)) u_nonneg) as HG.
  assert (Hk : (0 <= inject_Z (n - 1))%Q) by (rewrite <- (Zle_Qle 0); lia).
  unfold influx_error.
  apply (influx_bound u _ _ (Qabs d) _ (d + inject_Z (n - 1) * fd) x);
    try assumption.
  - apply Qmult_le_0_compat; [assumption | apply Qabs_nonneg].
  - apply Qle_refl.
  - rewrite inject_Z_minus in *.
    assert (E1 : (fd * (x * inject_Z n) + (d - fd) * x
                  == (d + (inject_Z n - 1) * fd) * x)%Q) by ring.
    assert (E2 : (Qabs fd * (Qabs x * inject_Z n) + (Qabs d - Qabs fd) * Qabs x
                  == (Qabs d + (inject_Z n - 1) * Qabs fd) * Qabs x)%Q) by ring.
    rewrite E1, E2 in HE. exact HE.
Qed.

End Conservation.

(** ** The dispersal matrix in rounded arithmetic *)

Lemma rounded_kP_value (rnd : Q → Q) (frac_nomove : Q) (n : Z) :
  1 ≤ n →
  Rounded.frac_dispersed rnd frac_nomove n
  = Ok (rnd (rnd (1 - frac_nomove) * rnd (inject_Z 1 / inject_Z n)))%Q
  ∧ Rounded.kP rnd frac_nomove n
    = Ok (Rounded.build_kP rnd n
            (rnd (rnd (1 - frac_nomove) * rnd (inject_Z 1 / inject_Z n)))%Q).
Proof.
  intros Hn. unfold Rounded.kP, Rounded.frac_dispersed, Rounded.truediv.
  destruct (Z.eqb_spec n 0); [lia|]. py_simpl.
  destruct (Z.ltb_spec n 0); [lia|]. done.
Qed.

Lemma lookup_two_valued (d fd : Q) (n : Z) (i : nat) (row : list Q) :
  ((λ i, (λ j, if i =? j then d else fd) <$> range n) <$> range n) !! i
  = Some row →
  0 ≤ Z.of_nat i < n
  ∧ row = (λ j, if Z.of_nat i =? j then d else fd) <$> range n.
Proof.
  rewrite list_lookup_fmap. intros H.
  destruct (range n !! i) as [i'|] eqn:E; [|done].
  assert (Hlt : (i < Z.to_nat n)%nat).
  { apply lookup_lt_Some in E. unfold range in E.
    by rewrite length_fmap, length_seq in E. }
  rewrite lookup_range in E by done. injection E as <-.
  injection H as <-. split; [lia | reflexivity].
Qed.

Lemma column_two_valued (d fd : Q) (n j : Z) :
  0 ≤ j < n →
  column j ((λ i, (λ j, if i =? j then d else fd) <$> range n) <$> range n)
  = (λ i, if j =? i then d else fd) <$> range n.
Proof.
  intros Hj. unfold column. rewrite <- list_fmap_compose.
  apply list_fmap_ext. intros k i Hi. cbn.
  unfold at_. rewrite Z.eqb_sym. apply nth_lookup_Some.
  rewrite list_lookup_fmap, lookup_range by lia. cbn.
  by rewrite Z2Nat.id by lia.
Qed.

(** Without rounding the matrix is the exact one. *)
Lemma rounded_build_kP_exact (n : Z) (frac_dispersed : Q) :
  Rounded.build_kP (λ x, x) n frac_dispersed = build_kP n frac_dispersed.
Proof. reflexivity. Qed.

(** C10: in float arithmetic of unit roundoff [u], for [n >= 1] patches
    and any [frac_nomove], the matrix [kP] that [initialize_patch_model]
    builds has [frac_dispersed] off the diagonal and the rounded product
    [-frac_dispersed*(n - 1)] on it.  Every row and every column sums to
    the same residual, which is zero up to the rounding of the diagonal:
    at most [u (n-1) |frac_dispersed|] in absolute value.  For every
    state [X] the loops of [patch_system] complete, and the influx values
    [P_influx[i]] sum to zero up to rounding: to at most
    [(n-1) |frac_dispersed| (u + (2+u) ((1+u)^(n+1) - 1))] times the sum
    of the [|X[j]|] of the patches. *)
Theorem dispersal_conserves_fish_up_to_rounding (rnd : Q → Q)
    (u frac_nomove : Q) (n : Z) :
  accurate rnd u → (0 <= u)%Q → 1 ≤ n →
  ∃ fd d kP,
    Rounded.frac_dispersed rnd frac_nomove n = Ok fd
    ∧ d = rnd (- fd * inject_Z (n - 1))%Q
    ∧ Rounded.kP rnd frac_nomove n = Ok kP
    ∧ kP = (λ i, (λ j, if i =? j then d else fd) <$> range n) <$> range n
    ∧ (Qabs (d + inject_Z (n - 1) * fd)
       <= u * (inject_Z (n - 1) * Qabs fd))%Q
    ∧ (∀ i row, kP !! i = Some row →
         (Qsum row == d + inject_Z (n - 1) * fd)%Q)
    ∧ (∀ j, 0 ≤ j < n →
         (Qsum (column j kP) == d + inject_Z (n - 1) * fd)%Q)
    ∧ ∀ X, n ≤ Z.of_nat (length X) →
        ∃ P_influx,
          Rounded.P_influx rnd n kP X = Ok P_influx
          ∧ Z.of_nat (length P_influx) = n
          ∧ (Qabs (Qsum P_influx)
             <= inject_Z (n - 1) * Qabs fd * influx_error u n
                * Qsum ((λ j, Qabs (at_ X j)) <$> range n))%Q.
Proof.
  intros Hacc Hu Hn.
  destruct (rounded_kP_value rnd frac_nomove n Hn) as [Hfd HkP].
  set (fd := rnd (rnd (1 - frac_nomove) * rnd (inject_Z 1 / inject_Z n))%Q)
    in *. clearbody fd.
  exists fd, (rnd (- fd * inject_Z (n - 1))%Q), (Rounded.build_kP rnd n fd).
  split; [done|]. split; [done|]. split; [done|]. split; [done|].
  split; [by apply diagonal_residual|].
  split; [|split].
  - intros i row Hrow. apply lookup_two_valued in Hrow as [Hi ->].
    by apply Qsum_two_entry_line.
  - intros j Hj. unfold Rounded.build_kP. rewrite column_two_valued by done.
    by apply Qsum_two_entry_line.
  - intros X HX. eexists. split; [apply rounded_P_influx_value; lia|].
    split; [rewrite length_fmap, length_range; lia|].
    by apply rounded_influx_total.
Qed.

Lemma dispersal_conserves_fish_up_to_rounding_witness :
  ∃ fd d kP,
    Rounded.frac_dispersed round53 (round53 0.9) 7 = Ok fd
    ∧ d = round53 (- fd * inject_Z (7 - 1))%Q
    ∧ Rounded.kP round53 (round53 0.9) 7 = Ok kP
    ∧ kP = (λ i, (λ j, if i =? j then d else fd) <$> range 7) <$> range 7
    ∧ (Qabs (d + inject_Z (7 - 1) * fd)
       <= u64 * (inject_Z (7 - 1) * Qabs fd))%Q
    ∧ (∀ i row, kP !! i = Some row →
         (Qsum row == d + inject_Z (7 - 1) * fd)%Q)
    ∧ (∀ j, 0 ≤ j < 7 →
         (Qsum (column j kP) == d + inject_Z (7 - 1) * fd)%Q)
    ∧ ∀ X, 7 ≤ Z.of_nat (length X) →
        ∃ P_influx,
          Rounded.P_influx round53 7 kP X = Ok P_influx
          ∧ Z.of_nat (length P_influx) = 7
          ∧ (Qabs (Qsum P_influx)
             <= inject_Z (7 - 1) * Qabs fd * influx_error u64 7
                * Qsum ((λ j, Qabs (at_ X j)) <$> range 7))%Q.
Proof.
  apply (dispersal_conserves_fish_up_to_rounding round53 u64 (round53 0.9) 7).
  - exact round53_accurate.
  - by vm_compute.
  - lia.
Defined.

(** C10 as stated fails in binary64.  For [n = 7] and
    [frac_nomove = 0.9] the off-diagonal entry is
    [8235153604334619 * 2^-59] and the diagonal entry
    [-1544091300812741 * 2^-54], so every row and every column of [kP]
    sums to [2^-58] and not to zero.  A state with one fish unit in
    patch 0 has a total influx of [2^-58], and a uniform state of
    density 0.3 one of [-3 * 2^-60]. *)
Lemma dispersal_is_not_exactly_conservative :
  ∃ kP row P_influx P_influx',
    Rounded.kP round53 (round53 0.9) 7 = Ok kP
    ∧ kP !! 0%nat = Some row
    ∧ (Qsum row == pow2 (-58))%Q
    ∧ (Qsum (column 0 kP) == pow2 (-58))%Q
    ∧ ¬ (Qsum (column 0 kP) == 0)%Q
    ∧ Rounded.P_influx round53 7 kP [1; 0; 0; 0; 0; 0; 0]%Q = Ok P_influx
    ∧ (Qsum P_influx == pow2 (-58))%Q
    ∧ ¬ (Qsum P_influx == 0)%Q
    ∧ Rounded.P_influx round53 7 kP (times (round53 0.3) 7) = Ok P_influx'
    ∧ (Qsum P_influx' == - (3 * pow2 (-60)))%Q
    ∧ ¬ (Qsum P_influx' == 0)%Q.
Proof.
  do 4 eexists.
  split; [vm_compute; reflexivity|].
  split; [vm_compute; reflexivity|].
  split; [by vm_compute|].
  split; [by vm_compute|].
  split; [by vm_compute|].
  split; [vm_compute; reflexivity|].
  split; [by vm_compute|].
  split; [by vm_compute|].
  split; [vm_compute; reflexivity|].
  split; by vm_compute.
Qed.

(** With exact arithmetic, [u = 0], the sums are exactly zero. *)
Lemma dispersal_exact_arithmetic (frac_nomove : Q) (n : Z) (X : list Q) :
  1 ≤ n → n ≤ Z.of_nat (length X) →
  ∃ kP P_influx,
    Rounded.kP (λ x, x) frac_nomove n = Ok kP
    ∧ (∀ i row, kP !! i = Some row → (Qsum row == 0)%Q)
    ∧ (∀ j, 0 ≤ j < n → (Qsum (column j kP) == 0)%Q)
    ∧ Rounded.P_influx (λ x, x) n kP X = Ok P_influx
    ∧ (Qsum P_influx == 0)%Q.
Proof.
  intros Hn HX.
  assert (Hacc : accurate (λ x, x) 0).
  { intros x. assert (x - x == 0)%Q as -> by ring. by vm_compute. }
  destruct (rounded_kP_value (λ x, x) frac_nomove n Hn) as [_ HkP].
  cbv beta in HkP.
  set (fd := ((1 - frac_nomove) * (inject_Z 1 / inject_Z n))%Q) in *.
  clearbody fd.
  pose proof (diagonal_residual (λ x, x) 0 Hacc fd n Hn) as Hρ.
  cbv beta in Hρ.
  assert (Hz : (- fd * inject_Z (n - 1) + inject_Z (n - 1) * fd == 0)%Q)
    by ring.
  eexists. eexists. split; [exact HkP|].
  split; [|split; [|split; [apply rounded_P_influx_value; lia|]]].
  - intros i row Hrow. apply lookup_two_valued in Hrow as [Hi ->].
    rewrite Qsum_two_entry_line by done. exact Hz.
  - intros j Hj. unfold Rounded.build_kP. rewrite column_two_valued by done.
    rewrite Qsum_two_entry_line by done. exact Hz.
  - pose proof (rounded_influx_total (λ x, x) 0 Hacc (Qle_refl 0) fd X n Hn)
      as H.
    cbv beta in H.
    assert (E : (inject_Z (n - 1) * Qabs fd * influx_error 0 n
                 * Qsum ((λ j, Qabs (at_ X j)) <$> range n) == 0)%Q).
    { unfold influx_error.
      assert (growth 0 (S (Z.to_nat n)) == 1)%Q as ->; [|ring].
      generalize (S (Z.to_nat n)). intros k.
      induction k as [|k IH]; cbn [growth]; [reflexivity|]. rewrite IH. ring. }
    rewrite E in H. apply Qabs_Qle_condition in H.
    apply Qle_antisym; lra.
Qed.

(** X8: in float arithmetic a fish density that is the same in every
    patch disperses to nothing up to rounding: with the first [n]
    entries of the state equal to [x], every [P_influx[i]] is at most
    [(n-1) |frac_dispersed| (u + (2+u) ((1+u)^(n+1) - 1)) |x|] in
    absolute value.  It need not be zero: for [n = 7],
    [frac_nomove = 0.9] and density 0.3 the first entry is [2^-59]. *)
Theorem uniform_density_influx_within_rounding (rnd : Q → Q)
    (u frac_nomove x : Q) (n : Z) (X : list Q) :
  accurate rnd u → (0 <= u)%Q → 1 ≤ n → n ≤ Z.of_nat (length X) →
  (∀ j, 0 ≤ j < n → (at_ X j == x)%Q) →
  ∃ fd kP P_influx,
    Rounded.frac_dispersed rnd frac_nomove n = Ok fd
    ∧ Rounded.kP rnd frac_nomove n = Ok kP
    ∧ Rounded.P_influx rnd n kP X = Ok P_influx
    ∧ Z.of_nat (length P_influx) = n
    ∧ ∀ v, v ∈ P_influx →
        (Qabs v <= inject_Z (n - 1) * Qabs fd * influx_error u n * Qabs x)%Q.
Proof.
  intros Hacc Hu Hn HX Hx.
  destruct (rounded_kP_value rnd frac_nomove n Hn) as [Hfd HkP].
  set (fd := rnd (rnd (1 - frac_nomove) * rnd (inject_Z 1 / inject_Z n))%Q)
    in *. clearbody fd.
  exists fd, (Rounded.build_kP rnd n fd). eexists.
  split; [done|]. split; [done|].
  split; [apply rounded_P_influx_value; lia|].
  split; [rewrite length_fmap, length_range; lia|].
  intros v Hv. apply list_elem_of_fmap in Hv as (i & -> & Hi).
  apply elem_of_range in Hi. by apply (rounded_influx_uniform rnd u).
Qed.

Lemma uniform_density_influx_within_rounding_witness :
  ∃ fd kP P_influx,
    Rounded.frac_dispersed round53 (round53 0.9) 7 = Ok fd
    ∧ Rounded.kP round53 (round53 0.9) 7 = Ok kP
    ∧ Rounded.P_influx round53 7 kP (times (round53 0.3) 21) = Ok P_influx
    ∧ Z.of_nat (length P_influx) = 7
    ∧ ∀ v, v ∈ P_influx →
        (Qabs v <= inject_Z (7 - 1) * Qabs fd * influx_error u64 7
                   * Qabs (round53 0.3))%Q.
Proof.
  apply (uniform_density_influx_within_rounding round53 u64 (round53 0.9)
           (round53 0.3) 7 (times (round53 0.3) 21)).
  - exact round53_accurate.
  - by vm_compute.
  - lia.
  - by vm_compute.
  - intros j Hj.
    assert (j = 0 ∨ j = 1 ∨ j = 2 ∨ j = 3 ∨ j = 4 ∨ j = 5 ∨ j = 6)
      as [->|[->|[->|[->|[->|[->| ->]]]]]] by lia; reflexivity.
Defined.

Lemma uniform_density_influx_is_not_zero :
  ∃ kP P_influx,
    Rounded.kP round53 (round53 0.9) 7 = Ok kP
    ∧ Rounded.P_influx round53 7 kP (times (round53 0.3) 21) = Ok P_influx
    ∧ (at_ P_influx 0 == pow2 (-59))%Q.
Proof.
  do 2 eexists. split; [vm_compute; reflexivity|].
  split; [vm_compute; reflexivity|]. by vm_compute.
Qed.
